(** * tlspolicy-server: DNS processor, host summaries, certificate validity

    A shallow embedding of [dns_processor.go], the host summary code and
    [certificate_validity.go], with the properties of the design document
    stated over it. *)

From Stdlib Require Import ZArith Ascii String List Lia Bool.
From stdpp Require Import base tactics option list gmap strings pretty.

Local Open Scope Z_scope.
Local Open Scope string_scope.

(** ** Outcomes of Go code: a normal return or a run-time panic *)

Inductive go (A : Type) : Type :=
| Ret (a : A)
| Panic (why : string).
Arguments Ret {A} a.
Arguments Panic {A} why.

Definition go_bind {A B : Type} (m : go A) (k : A -> go B) : go B :=
  match m with
  | Ret a => k a
  | Panic w => Panic w
  end.

#[global] Instance go_ret : MRet go := fun _ a => Ret a.
#[global] Instance go_mbind : MBind go := fun _ _ k m => go_bind m k.

Definition nil_dereference : string := "invalid memory address or nil pointer dereference".
Definition slice_out_of_range : string := "slice bounds out of range".
Definition index_out_of_range : string := "index out of range".

(** Reading through a pointer. *)
Definition deref {A : Type} (p : option A) : go A :=
  match p with
  | Some a => Ret a
  | None => Panic nil_dereference
  end.

(** ** Byte strings, as the [strings] package sees them *)

Module Strings.

Fixpoint HasPrefix (s prefix : string) {struct prefix} : bool :=
  match prefix with
  | EmptyString => true
  | String p prefix' =>
      match s with
      | EmptyString => false
      | String c s' => if Ascii.eqb c p then HasPrefix s' prefix' else false
      end
  end.

(** [last_from s sep i found]: scan [s], whose first byte has index [i];
    [found] is the latest index before [i] at which [sep] starts. *)
Fixpoint last_from (s sep : string) (i found : Z) : Z :=
  let found' := if HasPrefix s sep then i else found in
  match s with
  | EmptyString => found'
  | String _ s' => last_from s' sep (i + 1) found'
  end.

(** [strings.LastIndex]: index of the last instance of [sep], or -1. *)
Definition LastIndex (s sep : string) : Z := last_from s sep 0 (-1).

Definition len (s : string) : Z := Z.of_nat (String.length s).

Fixpoint drop (n : nat) (s : string) : string :=
  match n, s with
  | O, _ => s
  | S n', String _ s' => drop n' s'
  | S _, EmptyString => EmptyString
  end.

Fixpoint take (n : nat) (s : string) : string :=
  match n, s with
  | S n', String c s' => String c (take n' s')
  | _, _ => EmptyString
  end.

(** The slice expression [s[lo:hi]]; panics unless [0 <= lo <= hi <= len s]. *)
Definition slice (s : string) (lo hi : Z) : go string :=
  if ((0 <=? lo)%Z && (lo <=? hi)%Z && (hi <=? len s)%Z)%bool
  then Ret (take (Z.to_nat (hi - lo)) (drop (Z.to_nat lo) s))
  else Panic slice_out_of_range.

(** [strings.Contains] *)
Fixpoint Contains (s sub : string) : bool :=
  HasPrefix s sub ||
  match s with
  | EmptyString => false
  | String _ s' => Contains s' sub
  end.

(** [strings.TrimSuffix] *)
Definition TrimSuffix (s suffix : string) : string :=
  let n := (String.length s - String.length suffix)%nat in
  if (String.length suffix <=? String.length s)%nat && String.eqb (drop n s) suffix
  then take n s else s.

End Strings.

(** ** Errors *)

(** The values of Go's [error] interface that this code creates or passes
    on: [errors.New(text)], and error values handed over by a library call
    (resolver, network, TLS, X.509), known by their [Error()] text. *)
Inductive error : Type :=
| errors_New (text : string)
| library_error (text : string).

Definition Error_text (e : error) : string :=
  match e with
  | errors_New t => t
  | library_error t => t
  end.

(** ** Parsed certificates *)

(** The fields of [x509.Certificate] that the code reads; [Raw] is the
    encoded certificate, [NotBefore] and [NotAfter] are instants. *)
Record Certificate : Type := {
  Raw : list Z;
  NotBefore : Z;
  NotAfter : Z;
  UnhandledCriticalExtensions : list (list Z);
  FingerprintSHA1 : list Z
}.

(** ** The DNS processor: queries, results and the two lookups *)

Module Dns.

(** Record types and response codes of the DNS protocol, as the [dns]
    package numbers them. *)
Definition TypeA : Z := 1.
Definition TypeAAAA : Z := 28.
Definition TypeTLSA : Z := 52.
Definition RcodeSuccess : Z := 0.
Definition RcodeNameError : Z := 3.

Record DnsQuery : Type := {
  Domain : string;
  Type_ : Z
}.

#[global] Instance DnsQuery_eq_dec : EqDecision DnsQuery.
Proof. solve_decision. Defined.

#[global] Instance DnsQuery_countable : Countable DnsQuery.
Proof.
  refine (inj_countable' (fun q => (Domain q, Type_ q))
                         (fun p => {| Domain := p.1; Type_ := p.2 |}) _).
  intros []; reflexivity.
Defined.

Record DnsResult : Type := {
  Results : list string;
  Secure : bool;
  Error : option error;
  WhyBogus : option string
}.

(** The zero value of the named result [result DnsResult]. *)
Definition zero_result : DnsResult :=
  {| Results := []; Secure := false; Error := None; WhyBogus := None |}.

Definition set_Error (r : DnsResult) (e : option error) : DnsResult :=
  {| Results := Results r; Secure := Secure r; Error := e; WhyBogus := WhyBogus r |}.

Definition set_Secure (r : DnsResult) (b : bool) : DnsResult :=
  {| Results := Results r; Secure := b; Error := Error r; WhyBogus := WhyBogus r |}.

Definition set_WhyBogus (r : DnsResult) (w : option string) : DnsResult :=
  {| Results := Results r; Secure := Secure r; Error := Error r; WhyBogus := w |}.

(** [result.append(entry)] *)
Definition append (r : DnsResult) (entry : string) : DnsResult :=
  {| Results := (Results r ++ [entry])%list; Secure := Secure r;
     Error := Error r; WhyBogus := WhyBogus r |}.

(** Resource records by dynamic type; addresses are kept as their bytes. *)
Inductive RR : Type :=
| RR_MX (Mx : string)
| RR_A (A : list Z)
| RR_AAAA (AAAA : list Z)
| RR_TLSA (Usage Selector MatchingType : Z) (Certificate : string)
| RR_other.

(** Library functions the rendering relies on: [strings.ToLower],
    [net.IP.String] and the table [dns.RcodeToString] (a missing key of
    a Go map reads as the empty string). *)
Record Library : Type := {
  ToLower : string -> string;
  IP_String : list Z -> string;
  RcodeToString : Z -> string
}.

(** [strconv.Itoa] *)
Definition Itoa (n : Z) : string := pretty n.

(** [result.appendRR(rr)] *)
Definition appendRR (lib : Library) (r : DnsResult) (rr : RR) : DnsResult :=
  match rr with
  | RR_MX mx => append r (ToLower lib (Strings.TrimSuffix mx "."))
  | RR_A a => append r (IP_String lib a)
  | RR_AAAA a => append r (IP_String lib a)
  | RR_TLSA u s m c =>
      append r (Itoa u ++ " " ++ Itoa s ++ " " ++ Itoa m ++ " " ++ c)
  | RR_other => r
  end.

(** [dns.Msg], as far as the lookup reads a response. *)
Record Msg : Type := {
  Rcode : Z;
  Answer : list RR
}.

(** What [proc.dnsClient.Exchange] hands back: [response] and [err]. *)
Definition Exchanged : Type := (option Msg * option error)%type.

(** [lookupDns], given the outcome of the exchange. *)
Definition lookupDns (lib : Library) (x : Exchanged) : go DnsResult :=
  let result := zero_result in
  let '(response, err) := x in
  match err with
  | Some _ => Ret (set_Error result err)
  | None =>
      resp ← deref response;
      if (Rcode resp =? RcodeNameError)%Z then Ret (set_Error result err)
      else if negb (Rcode resp =? RcodeSuccess)%Z then
        Ret (set_Error result (Some (errors_New (RcodeToString lib (Rcode resp)))))
      else Ret (fold_left (appendRR lib) (Answer resp) result)
  end.

(** [unbound.Result], as far as the lookup reads it. *)
Record UnboundResult : Type := {
  u_Secure : bool;
  u_WhyBogus : string;
  u_NxDomain : bool;
  u_Rcode : Z;
  u_Data : list (list Z);
  u_Rr : list RR
}.

Definition Resolved : Type := (UnboundResult * option error)%type.

(** The loop [for i, _ := range response.Data { result.appendRR(response.Rr[i]) }],
    started at index [i]. *)
Fixpoint append_data (lib : Library) (rrs : list RR) (data : list (list Z))
    (i : nat) (r : DnsResult) : go DnsResult :=
  match data with
  | [] => Ret r
  | _ :: data' =>
      match rrs !! i with
      | Some rr => append_data lib rrs data' (S i) (appendRR lib r rr)
      | None => Panic index_out_of_range
      end
  end.

(** [lookupUnbound], given the outcome of the resolution. *)
Definition lookupUnbound (lib : Library) (x : Resolved) : go DnsResult :=
  let result := zero_result in
  let '(response, err) := x in
  let result := set_Secure result (u_Secure response) in
  let result :=
    if negb (String.eqb (u_WhyBogus response) "")
    then set_WhyBogus result (Some (u_WhyBogus response)) else result in
  match err with
  | Some _ => Ret (set_Error result err)
  | None =>
      if u_NxDomain response then Ret (set_Error result err)
      else if negb (u_Rcode response =? RcodeSuccess)%Z then
        Ret (set_Error result (Some (errors_New (RcodeToString lib (u_Rcode response)))))
      else append_data lib (u_Rr response) (u_Data response) 0 result
  end.

(** What the two resolvers answer to a query. *)
Record Network : Type := {
  Exchange : DnsQuery -> Exchanged;
  Resolve : DnsQuery -> Resolved
}.

(** [proc.Lookup(query)] *)
Definition Lookup (lib : Library) (net : Network) (query : DnsQuery) : go DnsResult :=
  if (Type_ query =? TypeTLSA)%Z
  then lookupUnbound lib (Resolve net query)
  else lookupDns lib (Exchange net query).

(** [result.ErrorMessage()]: the error string or nil. *)
Definition ErrorMessage (r : DnsResult) : option string :=
  match Error r with
  | None => None
  | Some e => Some (Error_text e)
  end.

End Dns.

(** ** Certificate validity *)

Module Validity.

Inductive InvalidReason : Type :=
| IncompatibleUsage
| OtherReason (code : Z).

Inductive ExtKeyUsage : Type :=
| ExtKeyUsageServerAuth
| OtherUsage (code : Z).

(** What [v.Error] can hold: an error as above, or the struct
    [x509.CertificateInvalidError{Cert, Reason}] with its pointer [Cert]. *)
Inductive error_value : Type :=
| Plain (e : error)
| CertificateInvalidError (Cert : option Certificate) (Reason : InvalidReason).

Record CertificateValidity : Type := {
  Expired : bool;
  Error : option error_value;
  Certificates : list Certificate;
  TrustedChains : gmap string (list Certificate)
}.

(** [x509.VerifyOptions]; a certificate pool is the sequence of the
    certificates added to it. *)
Record VerifyOptions : Type := {
  CurrentTime : Z;
  Intermediates : list Certificate;
  Roots : list Certificate
}.

(** The X.509 library and the clock, as the function meets them. *)
Record X509 : Type := {
  time_Now : Z;
  SystemRootsPool : list Certificate;
  BuildChains : Certificate -> VerifyOptions -> list (list Certificate) * option error;
  FilterChainsByKeyUsage :
    list (list Certificate) -> list ExtKeyUsage -> list (list Certificate)
}.

(** A call into the chain builder, with the validity record as it stands
    when the call is made. *)
Inductive call : Type :=
| call_BuildChains (v : CertificateValidity) (leaf : Certificate) (opts : VerifyOptions)
| call_FilterChainsByKeyUsage (v : CertificateValidity)
    (chains : list (list Certificate)) (usages : list ExtKeyUsage).

Definition at_call (c : call) : CertificateValidity :=
  match c with
  | call_BuildChains v _ _ => v
  | call_FilterChainsByKeyUsage v _ _ => v
  end.

Definition is_BuildChains (c : call) : bool :=
  match c with
  | call_BuildChains _ _ _ => true
  | call_FilterChainsByKeyUsage _ _ _ => false
  end.

Definition set_Expired (v : CertificateValidity) (b : bool) : CertificateValidity :=
  {| Expired := b; Error := Error v; Certificates := Certificates v;
     TrustedChains := TrustedChains v |}.

Definition set_Error (v : CertificateValidity) (e : error_value) : CertificateValidity :=
  {| Expired := Expired v; Error := Some e; Certificates := Certificates v;
     TrustedChains := TrustedChains v |}.

Definition set_chain (v : CertificateValidity) (name : string)
    (chain : list Certificate) : CertificateValidity :=
  {| Expired := Expired v; Error := Error v; Certificates := Certificates v;
     TrustedChains := <[name := chain]> (TrustedChains v) |}.

Definition AddCert (pool : list Certificate) (cert : Certificate) : list Certificate :=
  (pool ++ [cert])%list.

(** The loop [for i, cert := range certs], started at index [i]. *)
Fixpoint range_certs (certs : list Certificate) (i : nat)
    (leaf : option Certificate) (opts : VerifyOptions)
    : option Certificate * VerifyOptions :=
  match certs with
  | [] => (leaf, opts)
  | cert :: certs' =>
      if Nat.eqb i 0 then range_certs certs' (S i) (Some cert) opts
      else range_certs certs' (S i) leaf
             {| CurrentTime := CurrentTime opts;
                Intermediates := AddCert (Intermediates opts) cert;
                Roots := Roots opts |}
  end.

(** [time.Time.Before] and [time.Time.After] on instants. *)
Definition Before (t u : Z) : bool := (t <? u)%Z.
Definition After (t u : Z) : bool := (u <? t)%Z.

(** The value of [opts] before the loop. *)
Definition opts0 (env : X509) : VerifyOptions :=
  {| CurrentTime := time_Now env; Intermediates := [];
     Roots := SystemRootsPool env |}.

(** The value the expiry check computes for a leaf. *)
Definition expired_at (env : X509) (leaf : Certificate) : bool :=
  Before (time_Now env) (NotBefore leaf) || After (time_Now env) (NotAfter leaf).

(** [NewCertificateValidity(certs)]: the record returned and the calls made
    into the chain builder, oldest first. *)
Definition NewCertificateValidity (env : X509) (certs : list Certificate)
    : go (CertificateValidity * list call) :=
  let v := {| Expired := false; Error := None; Certificates := certs;
              TrustedChains := ∅ |} in
  let '(leaf, opts) := range_certs certs 0 None (opts0 env) in
  (* Check expiration *)
  l ← deref leaf;
  expired ← (if Before (CurrentTime opts) (NotBefore l) then Ret true
             else l' ← deref leaf; Ret (After (CurrentTime opts) (NotAfter l')));
  let v := set_Expired v expired in
  (* Check for unhandled critical extensions *)
  l ← deref leaf;
  if (0 <? length (UnhandledCriticalExtensions l))%nat then
    Ret (set_Error v (Plain (errors_New "unhandled critical extension")), [])
  else
    (* Build chains to root certificates *)
    l ← deref leaf;
    let '(candidateChains, err) := BuildChains env l opts in
    let calls := [call_BuildChains v l opts] in
    match err with
    | Some e => Ret (set_Error v (Plain e), calls)
    | None =>
        (* Filter chains by key usage *)
        let keyUsages := [ExtKeyUsageServerAuth] in
        let chains := FilterChainsByKeyUsage env candidateChains keyUsages in
        let calls := (calls ++ [call_FilterChainsByKeyUsage v candidateChains keyUsages])%list in
        (* Any valid chains left? *)
        match chains with
        | [] => Ret (set_Error v (CertificateInvalidError leaf IncompatibleUsage), calls)
        | chain0 :: _ => Ret (set_chain v "system" chain0, calls)
        end
    end.

End Validity.

(** ** Host summaries *)

Module MxHost.

(** Protocol versions, as the TLS library numbers them. *)
Definition VersionTLS10 : Z := 769.
Definition VersionTLS12 : Z := 771.

(** The dynamic type of [dhParams interface{}]. *)
Inductive DHParams : Type :=
| dh_nil
| dh_ECDHEParams (CurveType CurveID PublicKeyLength : Z)
| dh_other.

(** The result of a single connection attempt. *)
Record MxHostGrab : Type := {
  starttls : option bool;
  tlsVersion : Z;
  tlsCipherSuite : Z;
  g_certificates : option (list Certificate);
  dhParams : DHParams;
  g_Error : option string
}.

(** Summary of several connection attempts to one host.  The two sets hold
    the version and suite codes, whose byte strings the code stores. *)
Record MxHostSummary : Type := {
  address : list Z;
  Updated : Z;
  Starttls : option bool;
  tlsVersions : option (gset Z);
  tlsCipherSuites : option (gset Z);
  certificates : option (list Certificate);
  fingerprints : option (list (list Z));
  validity : option Validity.CertificateValidity;
  ecdheCurveType : option Z;
  ecdheCurveId : option Z;
  ecdheKeyLength : option Z;
  Error : option string
}.

Definition set_first (s : MxHostSummary) (st : option bool) (e : option string)
    : MxHostSummary :=
  {| address := address s; Updated := Updated s; Starttls := st;
     tlsVersions := tlsVersions s; tlsCipherSuites := tlsCipherSuites s;
     certificates := certificates s; fingerprints := fingerprints s;
     validity := validity s; ecdheCurveType := ecdheCurveType s;
     ecdheCurveId := ecdheCurveId s; ecdheKeyLength := ecdheKeyLength s;
     Error := e |}.

Definition set_certificates (s : MxHostSummary) (c : option (list Certificate))
    : MxHostSummary :=
  {| address := address s; Updated := Updated s; Starttls := Starttls s;
     tlsVersions := tlsVersions s; tlsCipherSuites := tlsCipherSuites s;
     certificates := c; fingerprints := fingerprints s;
     validity := validity s; ecdheCurveType := ecdheCurveType s;
     ecdheCurveId := ecdheCurveId s; ecdheKeyLength := ecdheKeyLength s;
     Error := Error s |}.

Definition set_sets (s : MxHostSummary) (vs cs : option (gset Z)) : MxHostSummary :=
  {| address := address s; Updated := Updated s; Starttls := Starttls s;
     tlsVersions := vs; tlsCipherSuites := cs;
     certificates := certificates s; fingerprints := fingerprints s;
     validity := validity s; ecdheCurveType := ecdheCurveType s;
     ecdheCurveId := ecdheCurveId s; ecdheKeyLength := ecdheKeyLength s;
     Error := Error s |}.

Definition set_ecdhe (s : MxHostSummary) (ty id len : option Z) : MxHostSummary :=
  {| address := address s; Updated := Updated s; Starttls := Starttls s;
     tlsVersions := tlsVersions s; tlsCipherSuites := tlsCipherSuites s;
     certificates := certificates s; fingerprints := fingerprints s;
     validity := validity s; ecdheCurveType := ty;
     ecdheCurveId := id; ecdheKeyLength := len;
     Error := Error s |}.

Definition set_validity (s : MxHostSummary) (f : option (list (list Z)))
    (v : option Validity.CertificateValidity) : MxHostSummary :=
  {| address := address s; Updated := Updated s; Starttls := Starttls s;
     tlsVersions := tlsVersions s; tlsCipherSuites := tlsCipherSuites s;
     certificates := certificates s; fingerprints := f;
     validity := v; ecdheCurveType := ecdheCurveType s;
     ecdheCurveId := ecdheCurveId s; ecdheKeyLength := ecdheKeyLength s;
     Error := Error s |}.

(** A set that may still be the nil interface: [Add] on an allocated one. *)
Definition set_Add (x : Z) (s : option (gset Z)) : option (gset Z) :=
  match s with
  | Some m => Some ({[ x ]} ∪ m)
  | None => None
  end.

(** [summary.Append(grab)] *)
Definition Append (summary : MxHostSummary) (grab : MxHostGrab) : MxHostSummary :=
  (* Copy certificates *)
  let summary :=
    match certificates summary with
    | None => set_certificates summary (g_certificates grab)
    | Some _ => summary
    end in
  if negb (tlsVersion grab =? 0)%Z then
    (* Copy TLS parameters *)
    let summary :=
      match tlsVersions summary with
      | None => set_sets summary (Some ∅) (Some ∅)
      | Some _ => summary
      end in
    let summary :=
      set_sets summary (set_Add (tlsVersion grab) (tlsVersions summary))
                       (set_Add (tlsCipherSuite grab) (tlsCipherSuites summary)) in
    (* Copy ECDHE params *)
    match ecdheCurveType summary with
    | None =>
        match dhParams grab with
        | dh_ECDHEParams ty id len => set_ecdhe summary (Some ty) (Some id) (Some len)
        | _ => summary
        end
    | Some _ => summary
    end
  else summary.

(** [result.TLSSuccessful()] *)
Definition TLSSuccessful (grab : MxHostGrab) : bool :=
  match g_certificates grab with
  | Some _ => true
  | None => false
  end.

(** [summary.Fingerprints()] *)
Definition Fingerprints (summary : MxHostSummary) : list (list Z) :=
  match certificates summary with
  | Some certs => map FingerprintSHA1 certs
  | None => []
  end.

(** The surroundings of a summary: the clock, what a connection attempt
    with a given maximum TLS version yields, and the X.509 library. *)
Record World : Type := {
  time_Now : Z;
  NewMxHostGrab : list Z -> Z -> MxHostGrab;
  x509 : Validity.X509
}.

(** The first part of [NewMxHostSummary(address)], up to the fingerprints:
    the summary merged from the connection attempts, and the maximum
    versions of the attempts made, in order. *)
Definition merge_grabs (w : World) (addr : list Z) : MxHostSummary * list Z :=
  let result :=
    {| address := addr; Updated := time_Now w; Starttls := None;
       tlsVersions := None; tlsCipherSuites := None; certificates := None;
       fingerprints := None; validity := None; ecdheCurveType := None;
       ecdheCurveId := None; ecdheKeyLength := None; Error := None |} in
  (* The first connection attempt with up to TLS 1.2 *)
  let grab := NewMxHostGrab w addr VersionTLS12 in
  let probes := [VersionTLS12] in
  let result := set_first result (starttls grab) (g_Error grab) in
  (* Was the TLS handshake successful? *)
  match Starttls result with
  | Some true =>
      let result := Append result grab in
      (* Try TLS 1.0 as well if we just had a higher version *)
      if (VersionTLS10 <? tlsVersion grab)%Z then
        let grab := NewMxHostGrab w addr VersionTLS10 in
        let probes := (probes ++ [VersionTLS10])%list in
        if TLSSuccessful grab then (Append result grab, probes)
        else (result, probes)
      else (result, probes)
  | _ => (result, probes)
  end.

(** [NewMxHostSummary(address)]: the summary (or the panic of the validity
    check), and the connection attempts made. *)
Definition NewMxHostSummary (w : World) (addr : list Z)
    : go MxHostSummary * list Z :=
  let '(result, probes) := merge_grabs w addr in
  (* set fingerprints and certificate validity *)
  match certificates result with
  | Some certs =>
      (vc ← Validity.NewCertificateValidity (x509 w) certs;
       Ret (set_validity result (Some (Fingerprints result)) (Some vc.1)),
       probes)
  | None => (Ret result, probes)
  end.

Definition stripErrors : list string :=
  [ "Conversation error"; "Could not connect"; "dial tcp"; "read tcp"; "write tcp" ].

(** The loop [for _, prefix := range stripErrors] of [simplifyError]. *)
Fixpoint simplify_loop (prefixes : list string) (err : error) : go error :=
  let msg := Error_text err in
  match prefixes with
  | [] => Ret err
  | prefix :: rest =>
      if Strings.HasPrefix msg prefix then
        let i := Strings.LastIndex msg ": " in
        if negb (i =? -1)%Z then
          s ← Strings.slice msg (i + 2) (Strings.len msg); Ret (errors_New s)
        else simplify_loop rest err
      else simplify_loop rest err
  end.

Definition simplifyError (err : error) : go error :=
  simplify_loop stripErrors err.

End MxHost.

(** ** The DNS processor as goroutines over a shared map *)

(** Callers run [NewJob], [NewJobs], [Wait] and [Results]; workers run the
    [work] closure of [NewDnsProcessor].  Every statement that touches the
    map, the mutex, a job or the pool's queue is one atomic step of the
    goroutine that executes it, and a schedule says which goroutine moves
    next. *)

Module Proc.

Import Dns.

(** A [DnsJob] object; a [*DnsJob] is its index in the heap.  [wait] is the
    counter of the [sync.WaitGroup]. *)
Record DnsJob : Type := {
  wait : Z;
  Query : DnsQuery;
  Result : option DnsResult
}.

Definition set_Result (job : DnsJob) (r : DnsResult) : DnsJob :=
  {| wait := wait job; Query := Query job; Result := Some r |}.

Definition set_wait (job : DnsJob) (n : Z) : DnsJob :=
  {| wait := n; Query := Query job; Result := Result job |}.

(** The calls a caller makes; [Wait] and [Results] are made on the handle
    that the goroutine's last [NewJob] or [NewJobs] returned. *)
Inductive op : Type :=
| op_NewJob (domain : string) (typ : Z)
| op_NewJobs (domain : string) (types : list Z)
| op_job_Wait
| op_job_Results
| op_group_Wait
| op_group_Results.

(** Where [NewJob] returns to: a caller's program, or the loop of
    [NewJobs] with its locals. *)
Inductive cont : Type :=
| k_top
| k_group (domain : string) (types rest : list Z) (group : list nat).

(** Program points, with the locals that are live there. *)
Inductive pc : Type :=
(* a caller between two calls *)
| c_next
(* NewJob *)
| c_Lock (query : DnsQuery) (k : cont)
| c_Lookup (query : DnsQuery) (k : cont)
| c_Insert (query : DnsQuery) (k : cont)
| c_Unlock (query : DnsQuery) (job : nat) (existed : bool) (k : cont)
| c_Add (query : DnsQuery) (job : nat) (k : cont)
| c_Return (query : DnsQuery) (job : nat) (k : cont)
(* NewJobs: head of the loop over [rest] *)
| c_Jobs (domain : string) (types rest : list Z) (group : list nat)
(* job.Wait() *)
| c_job_Wait (job : nat)
(* job.Results(): wait, then read job.Result.Results *)
| c_Results_Wait (job : nat)
| c_Results_Read (job : nat)
(* group.Wait(): loop over [rest] *)
| c_group_Wait (group rest : list nat)
(* group.Results(): loop over [rest], [results] so far *)
| c_group_Results (group rest : list nat) (results : list string)
| c_group_Read (group : list nat) (job : nat) (rest : list nat) (results : list string)
(* the work closure of a worker *)
| w_idle
| w_Lookup (job : nat)
| w_Lock (job : nat)
| w_Delete (job : nat)
| w_Unlock (job : nat)
| w_Done (job : nat)
(* a goroutine that panicked *)
| crashed.

Record thread : Type := {
  at_pc : pc;
  prog : list op;
  cur_job : option nat;
  cur_group : option (list nat)
}.

Definition goto (th : thread) (p : pc) : thread :=
  {| at_pc := p; prog := prog th; cur_job := cur_job th; cur_group := cur_group th |}.

(** Modelled from the spec: the worker pool, whose source is not part of
    these files.  It is the shared unbounded intake queue of the design
    document: [Add] appends an item and does not block, and each worker
    takes the oldest item and invokes [work] on it. *)
Definition WorkerPool_Add (queue : list nat) (item : nat) : list nat :=
  (queue ++ [item])%list.

Record state : Type := {
  jobs : gmap DnsQuery nat;      (* proc.jobs *)
  mutex : option nat;            (* proc.mutex, with the goroutine that locked it *)
  heap : list DnsJob;            (* the DnsJob objects allocated so far *)
  queue : list nat;              (* the worker pool's queue, oldest first *)
  threads : list thread;
  panicked : bool
}.

Definition with_thread (s : state) (t : nat) (th : thread) : state :=
  {| jobs := jobs s; mutex := mutex s; heap := heap s; queue := queue s;
     threads := <[t := th]> (threads s); panicked := panicked s |}.

Definition with_jobs (s : state) (m : gmap DnsQuery nat) : state :=
  {| jobs := m; mutex := mutex s; heap := heap s; queue := queue s;
     threads := threads s; panicked := panicked s |}.

Definition with_mutex (s : state) (m : option nat) : state :=
  {| jobs := jobs s; mutex := m; heap := heap s; queue := queue s;
     threads := threads s; panicked := panicked s |}.

Definition with_heap (s : state) (h : list DnsJob) : state :=
  {| jobs := jobs s; mutex := mutex s; heap := h; queue := queue s;
     threads := threads s; panicked := panicked s |}.

Definition with_queue (s : state) (q : list nat) : state :=
  {| jobs := jobs s; mutex := mutex s; heap := heap s; queue := q;
     threads := threads s; panicked := panicked s |}.

Definition crash (s : state) : state :=
  {| jobs := jobs s; mutex := mutex s; heap := heap s; queue := queue s;
     threads := threads s; panicked := true |}.

(** What a step does, as seen from outside. *)
Inductive event : Type :=
| EvCall (t : nat) (o : op)
| EvIter (t : nat) (query : DnsQuery)
| EvLock (t : nat)
| EvUnlock (t : nat)
| EvFound (t : nat) (query : DnsQuery) (job : nat)
| EvMissing (t : nat) (query : DnsQuery)
| EvInsert (t : nat) (query : DnsQuery) (job : nat)
| EvEnqueue (t : nat) (job : nat)
| EvReturn (t : nat) (query : DnsQuery) (job : nat)
| EvGroup (t : nat) (domain : string) (types : list Z) (group : list nat)
| EvWaited (t : nat) (job : nat)
| EvRead (t : nat) (job : nat) (results : list string)
| EvJobResults (t : nat) (job : nat) (results : list string)
| EvGroupWaited (t : nat) (group : list nat)
| EvGroupResults (t : nat) (group : list nat) (results : list string)
| EvDequeue (t : nat) (job : nat)
| EvResult (t : nat) (job : nat) (r : DnsResult)
| EvDelete (t : nat) (query : DnsQuery) (job : nat)
| EvDone (t : nat) (job : nat)
| EvPanic (t : nat) (why : string).

(** The lookups of the run: the libraries, and what the resolvers answer
    when the worker handles a given job. *)
Record config : Type := {
  lib : Library;
  net : nat -> Network
}.

(** [job.wait.Wait()] returns once the counter is zero. *)
Definition done (s : state) (j : nat) : bool :=
  match heap s !! j with
  | Some job => (wait job =? 0)%Z
  | None => false
  end.

Definition mkq (domain : string) (typ : Z) : DnsQuery :=
  {| Domain := domain; Type_ := typ |}.

Definition panic (s : state) (t : nat) (th : thread) (why : string)
    : option (event * state) :=
  Some (EvPanic t why, with_thread (crash s) t (goto th crashed)).

(** One step of goroutine [t] standing at [th]; [None] when it cannot move. *)
Definition step_at (cfg : config) (s : state) (t : nat) (th : thread)
    : option (event * state) :=
  let move ev p s' := Some (ev, with_thread s' t (goto th p)) in
  match at_pc th with
  | c_next =>
      match prog th with
      | [] => None
      | o :: rest =>
          let th' p := {| at_pc := p; prog := rest; cur_job := cur_job th;
                          cur_group := cur_group th |} in
          match o with
          | op_NewJob d ty =>
              Some (EvCall t o, with_thread s t (th' (c_Lock (mkq d ty) k_top)))
          | op_NewJobs d tys =>
              Some (EvCall t o, with_thread s t (th' (c_Jobs d tys tys [])))
          | op_job_Wait =>
              match cur_job th with
              | Some j => Some (EvCall t o, with_thread s t (th' (c_job_Wait j)))
              | None => panic s t th nil_dereference
              end
          | op_job_Results =>
              match cur_job th with
              | Some j => Some (EvCall t o, with_thread s t (th' (c_Results_Wait j)))
              | None => panic s t th nil_dereference
              end
          | op_group_Wait =>
              match cur_group th with
              | Some g => Some (EvCall t o, with_thread s t (th' (c_group_Wait g g)))
              | None => panic s t th nil_dereference
              end
          | op_group_Results =>
              match cur_group th with
              | Some g => Some (EvCall t o, with_thread s t (th' (c_group_Results g g [])))
              | None => panic s t th nil_dereference
              end
          end
      end
  (* proc.mutex.Lock() *)
  | c_Lock q k =>
      match mutex s with
      | None => move (EvLock t) (c_Lookup q k) (with_mutex s (Some t))
      | Some _ => None
      end
  (* job, exist = proc.jobs[query] *)
  | c_Lookup q k =>
      match jobs s !! q with
      | Some j => move (EvFound t q j) (c_Unlock q j true k) s
      | None => move (EvMissing t q) (c_Insert q k) s
      end
  (* job = &DnsJob{}; job.Query = &query; job.wait.Add(1); proc.jobs[query] = job *)
  | c_Insert q k =>
      let j := length (heap s) in
      let job := {| wait := 0 + 1; Query := q; Result := None |} in
      move (EvInsert t q j) (c_Unlock q j false k)
           (with_jobs (with_heap s (heap s ++ [job])%list) (<[q := j]> (jobs s)))
  (* proc.mutex.Unlock(); then the test of [exist] *)
  | c_Unlock q j existed k =>
      match mutex s with
      | Some _ =>
          move (EvUnlock t) (if existed then c_Return q j k else c_Add q j k)
               (with_mutex s None)
      | None => panic s t th "sync: unlock of unlocked mutex"
      end
  (* proc.workers.Add(job) *)
  | c_Add q j k =>
      move (EvEnqueue t j) (c_Return q j k) (with_queue s (WorkerPool_Add (queue s) j))
  (* return job *)
  | c_Return q j k =>
      match k with
      | k_top =>
          Some (EvReturn t q j,
                with_thread s t {| at_pc := c_next; prog := prog th;
                                   cur_job := Some j; cur_group := cur_group th |})
      | k_group d tys rest g =>
          move (EvReturn t q j) (c_Jobs d tys rest (g ++ [j])%list) s
      end
  (* for _, typ := range types *)
  | c_Jobs d tys rest g =>
      match rest with
      | [] =>
          Some (EvGroup t d tys g,
                with_thread s t {| at_pc := c_next; prog := prog th;
                                   cur_job := cur_job th; cur_group := Some g |})
      | ty :: rest' =>
          move (EvIter t (mkq d ty)) (c_Lock (mkq d ty) (k_group d tys rest' g)) s
      end
  | c_job_Wait j =>
      if done s j then move (EvWaited t j) c_next s else None
  | c_Results_Wait j =>
      if done s j then move (EvWaited t j) (c_Results_Read j) s else None
  (* return job.Result.Results *)
  | c_Results_Read j =>
      match heap s !! j with
      | Some job =>
          match Result job with
          | Some r => move (EvJobResults t j (Results r)) c_next s
          | None => panic s t th nil_dereference
          end
      | None => panic s t th nil_dereference
      end
  (* for _, job := range group.jobs { job.wait.Wait() } *)
  | c_group_Wait g rest =>
      match rest with
      | [] => move (EvGroupWaited t g) c_next s
      | j :: rest' =>
          if done s j then move (EvWaited t j) (c_group_Wait g rest') s else None
      end
  (* for _, job := range group.jobs { for _, item := range job.Results() ... } *)
  | c_group_Results g rest results =>
      match rest with
      | [] => move (EvGroupResults t g results) c_next s
      | j :: rest' =>
          if done s j then move (EvWaited t j) (c_group_Read g j rest' results) s
          else None
      end
  | c_group_Read g j rest results =>
      match heap s !! j with
      | Some job =>
          match Result job with
          | Some r =>
              move (EvRead t j (Results r))
                   (c_group_Results g rest (results ++ Results r)%list) s
          | None => panic s t th nil_dereference
          end
      | None => panic s t th nil_dereference
      end
  (* a worker takes the oldest item of the queue *)
  | w_idle =>
      match queue s with
      | j :: queue' => move (EvDequeue t j) (w_Lookup j) (with_queue s queue')
      | [] => None
      end
  (* result := proc.Lookup(job.Query); job.Result = &result *)
  | w_Lookup j =>
      match heap s !! j with
      | Some job =>
          match Lookup (lib cfg) (net cfg j) (Query job) with
          | Ret r =>
              move (EvResult t j r) (w_Lock j)
                   (with_heap s (<[j := set_Result job r]> (heap s)))
          | Panic why => panic s t th why
          end
      | None => panic s t th nil_dereference
      end
  (* proc.mutex.Lock() *)
  | w_Lock j =>
      match mutex s with
      | None => move (EvLock t) (w_Delete j) (with_mutex s (Some t))
      | Some _ => None
      end
  (* delete(proc.jobs, *job.Query) *)
  | w_Delete j =>
      match heap s !! j with
      | Some job =>
          move (EvDelete t (Query job) j) (w_Unlock j)
               (with_jobs s (delete (Query job) (jobs s)))
      | None => panic s t th nil_dereference
      end
  (* proc.mutex.Unlock() *)
  | w_Unlock j =>
      match mutex s with
      | Some _ => move (EvUnlock t) (w_Done j) (with_mutex s None)
      | None => panic s t th "sync: unlock of unlocked mutex"
      end
  (* job.wait.Done() *)
  | w_Done j =>
      match heap s !! j with
      | Some job =>
          if (wait job - 1 <? 0)%Z then panic s t th "sync: negative WaitGroup counter"
          else move (EvDone t j) w_idle
                    (with_heap s (<[j := set_wait job (wait job - 1)]> (heap s)))
      | None => panic s t th nil_dereference
      end
  | crashed => None
  end.

(** A panic ends the program. *)
Definition step (cfg : config) (s : state) (t : nat) : option (event * state) :=
  if panicked s then None
  else match threads s !! t with
       | Some th => step_at cfg s t th
       | None => None
       end.

(** The start: the callers with their programs, then the idle workers. *)
Definition init (programs : list (list op)) (workersCount : nat) : state :=
  {| jobs := ∅; mutex := None; heap := []; queue := [];
     threads :=
       (map (fun p => {| at_pc := c_next; prog := p; cur_job := None;
                         cur_group := None |}) programs
        ++ replicate workersCount
             {| at_pc := w_idle; prog := []; cur_job := None; cur_group := None |})%list;
     panicked := false |}.

(** Running a schedule; a goroutine that cannot move is passed over.  The
    trace lists the events, newest first. *)
Fixpoint run_from (cfg : config) (sched : list nat) (tr : list event) (s : state)
    : list event * state :=
  match sched with
  | [] => (tr, s)
  | t :: sched' =>
      match step cfg s t with
      | Some (ev, s') => run_from cfg sched' (ev :: tr) s'
      | None => run_from cfg sched' tr s
      end
  end.

Definition run (cfg : config) (programs : list (list op)) (workersCount : nat)
    (sched : list nat) : list event * state :=
  run_from cfg sched [] (init programs workersCount).

(** The traces and states that some schedule reaches. *)
Inductive reachable (cfg : config) (programs : list (list op)) (workersCount : nat)
    : list event -> state -> Prop :=
| reachable_init : reachable cfg programs workersCount [] (init programs workersCount)
| reachable_step tr s t ev s' :
    reachable cfg programs workersCount tr s ->
    step cfg s t = Some (ev, s') ->
    reachable cfg programs workersCount (ev :: tr) s'.

End Proc.

(** ** Reading a trace *)

Module Trace.

Import Dns Proc.

Definition thread_of (ev : event) : nat :=
  match ev with
  | EvCall t _ | EvIter t _ | EvLock t | EvUnlock t | EvFound t _ _
  | EvMissing t _ | EvInsert t _ _ | EvEnqueue t _ | EvReturn t _ _
  | EvGroup t _ _ _ | EvWaited t _ | EvRead t _ _ | EvJobResults t _ _
  | EvGroupWaited t _ | EvGroupResults t _ _ | EvDequeue t _
  | EvResult t _ _ | EvDelete t _ _ | EvDone t _ | EvPanic t _ => t
  end.

(** The life of a job: put into the map, handed to the pool, taken by a
    worker, result written, removed from the map, completion signalled. *)
Inductive stage : Type :=
| Inserted | Enqueued | Dequeued | Written | Deleted | Finished.

#[global] Instance stage_eq_dec : EqDecision stage.
Proof. solve_decision. Defined.

Definition stage_of (ev : event) : option (nat * stage) :=
  match ev with
  | EvInsert _ _ j => Some (j, Inserted)
  | EvEnqueue _ j => Some (j, Enqueued)
  | EvDequeue _ j => Some (j, Dequeued)
  | EvResult _ j _ => Some (j, Written)
  | EvDelete _ _ j => Some (j, Deleted)
  | EvDone _ j => Some (j, Finished)
  | _ => None
  end.

(** The latest stage of job [j], and the goroutine that brought it there. *)
Fixpoint phase (tr : list event) (j : nat) : option (stage * nat) :=
  match tr with
  | [] => None
  | ev :: tr' =>
      match stage_of ev with
      | Some (j', st) =>
          if decide (j' = j) then Some (st, thread_of ev) else phase tr' j
      | None => phase tr' j
      end
  end.

Definition finished (tr : list event) (j : nat) : Prop :=
  exists w, phase tr j = Some (Finished, w).

(** Who holds the mutex after the trace. *)
Fixpoint holder (tr : list event) : option nat :=
  match tr with
  | [] => None
  | EvLock t :: _ => Some t
  | EvUnlock _ :: _ => None
  | _ :: tr' => holder tr'
  end.

(** The map entry of a query after the trace. *)
Fixpoint entry (tr : list event) (q : DnsQuery) : option nat :=
  match tr with
  | [] => None
  | EvInsert _ q' j :: tr' => if decide (q' = q) then Some j else entry tr' q
  | EvDelete _ q' _ :: tr' => if decide (q' = q) then None else entry tr' q
  | _ :: tr' => entry tr' q
  end.

(** The events of one goroutine, newest first. *)
Definition by_thread (t : nat) (tr : list event) : list event :=
  filter (fun ev => thread_of ev = t) tr.

(** The latest events of goroutine [t] are [l], newest first. *)
Definition recent (tr : list event) (t : nat) (l : list event) : Prop :=
  exists older, by_thread t tr = (l ++ older)%list.

Definition is_enqueue (j : nat) (ev : event) : bool :=
  match ev with
  | EvEnqueue _ j' => bool_decide (j' = j)
  | _ => false
  end.

Definition is_insert (q : DnsQuery) (ev : event) : bool :=
  match ev with
  | EvInsert _ q' _ => bool_decide (q' = q)
  | _ => false
  end.

Definition is_delete (q : DnsQuery) (ev : event) : bool :=
  match ev with
  | EvDelete _ q' _ => bool_decide (q' = q)
  | _ => false
  end.

Definition count (f : event -> bool) (tr : list event) : nat :=
  length (List.filter f tr).

(** The handle a lookup under the lock ends with. *)
Definition handle_of (q : DnsQuery) (ev : event) : option nat :=
  match ev with
  | EvFound _ q' j => if decide (q' = q) then Some j else None
  | EvInsert _ q' j => if decide (q' = q) then Some j else None
  | _ => None
  end.

(** The latest events of [t] are a complete pass through [NewJob] for
    query [q] that ends with handle [j]: lock, lookup, unlock when the job
    was found; lock, lookup, insertion, unlock, hand-over to the pool when
    it was not. *)
Definition call_done (tr : list event) (t : nat) (q : DnsQuery) (j : nat) : Prop :=
  recent tr t [EvUnlock t; EvFound t q j; EvLock t] \/
  recent tr t [EvEnqueue t j; EvUnlock t; EvInsert t q j; EvMissing t q; EvLock t].

(** What an event requires of the trace before it. *)
Definition ev_ok (tr : list event) (ev : event) : Prop :=
  match ev with
  | EvLock t => holder tr = None
  | EvUnlock t => holder tr = Some t
  | EvFound t q j => entry tr q = Some j /\ holder tr = Some t
  | EvMissing t q => entry tr q = None /\ holder tr = Some t
  | EvInsert t q j => entry tr q = None /\ phase tr j = None /\ holder tr = Some t
  | EvEnqueue t j =>
      phase tr j = Some (Inserted, t) /\ holder tr <> Some t /\
      exists q, recent tr t [EvUnlock t; EvInsert t q j; EvMissing t q; EvLock t]
  | EvReturn t q j =>
      (exists p, phase tr j = Some p /\ p <> (Inserted, t)) /\ call_done tr t q j
  | EvDequeue t j => exists w, phase tr j = Some (Enqueued, w)
  | EvResult t j r => phase tr j = Some (Dequeued, t)
  | EvDelete t q j =>
      entry tr q = Some j /\ holder tr = Some t /\ phase tr j = Some (Written, t)
  | EvDone t j =>
      phase tr j = Some (Deleted, t) /\
      exists q r, recent tr t [EvUnlock t; EvDelete t q j; EvLock t;
                               EvResult t j r; EvDequeue t j]
  | EvWaited t j | EvRead t j _ | EvJobResults t j _ => finished tr j
  | EvGroupWaited t g | EvGroupResults t g _ => Forall (finished tr) g
  | _ => True
  end.

Fixpoint coherent (tr : list event) : Prop :=
  match tr with
  | [] => True
  | ev :: tr' => ev_ok tr' ev /\ coherent tr'
  end.

(** What an event does to the map, the mutex, the heap and the queue. *)
Definition effect (ev : event) (s : state) : state :=
  match ev with
  | EvLock t => with_mutex s (Some t)
  | EvUnlock _ => with_mutex s None
  | EvInsert _ q j =>
      with_jobs (with_heap s (heap s ++ [{| wait := 0 + 1; Query := q; Result := None |}])%list)
                (<[q := j]> (jobs s))
  | EvEnqueue _ j => with_queue s (WorkerPool_Add (queue s) j)
  | EvDequeue _ _ => with_queue s (tail (queue s))
  | EvResult _ j r =>
      match heap s !! j with
      | Some job => with_heap s (<[j := set_Result job r]> (heap s))
      | None => s
      end
  | EvDelete _ q _ => with_jobs s (delete q (jobs s))
  | EvDone _ j =>
      match heap s !! j with
      | Some job => with_heap s (<[j := set_wait job (wait job - 1)]> (heap s))
      | None => s
      end
  | EvPanic _ _ => crash s
  | _ => s
  end.

Definition query_of (s : state) (j : nat) : option DnsQuery :=
  Query <$> heap s !! j.

(** What an event requires of the state it happens in. *)
Definition ev_state (s : state) (ev : event) : Prop :=
  match ev with
  | EvInsert _ _ j => j = length (heap s)
  | EvDequeue _ j => exists l, queue s = j :: l
  | EvResult _ j _ => is_Some (heap s !! j)
  | EvDelete _ q j => query_of s j = Some q
  | EvDone _ j => is_Some (heap s !! j)
  | _ => True
  end.

(** [job.Result.Results] of a job whose result is written. *)
Definition results_of (s : state) (j : nat) : list string :=
  match heap s !! j with
  | Some job => match Result job with Some r => Results r | None => [] end
  | None => []
  end.

Definition pending (st : stage) : bool :=
  match st with Inserted | Enqueued | Dequeued => true | _ => false end.

Definition mapped (st : stage) : bool :=
  match st with Inserted | Enqueued | Dequeued | Written => true | _ => false end.

(** The program points between [proc.mutex.Lock()] and
    [proc.mutex.Unlock()]. *)
Definition crit (p : pc) : bool :=
  match p with
  | c_Lookup _ _ | c_Insert _ _ | c_Unlock _ _ _ _ | w_Delete _ | w_Unlock _ => true
  | _ => false
  end.

(** The group built so far holds the jobs of the types already visited. *)
Definition group_ok (s : state) (d : string) (tys rest : list Z) (g : list nat) : Prop :=
  exists dn, tys = (dn ++ rest)%list /\
             map (query_of s) g = map (fun ty => Some (mkq d ty)) dn.

Definition cont_ok (s : state) (q : DnsQuery) (k : cont) : Prop :=
  match k with
  | k_top => True
  | k_group d tys rest g => exists ty, q = mkq d ty /\ group_ok s d tys (ty :: rest) g
  end.

(** What holds when a goroutine stands at a program point. *)
Definition pc_ok (tr : list event) (s : state) (t : nat) (p : pc) : Prop :=
  match p with
  | c_Lock q k => cont_ok s q k
  | c_Lookup q k => cont_ok s q k /\ recent tr t [EvLock t]
  | c_Insert q k =>
      jobs s !! q = None /\ cont_ok s q k /\ recent tr t [EvMissing t q; EvLock t]
  | c_Unlock q j e k =>
      query_of s j = Some q /\
      (if e
       then phase tr j <> Some (Inserted, t) /\
            recent tr t [EvFound t q j; EvLock t]
       else phase tr j = Some (Inserted, t) /\
            recent tr t [EvInsert t q j; EvMissing t q; EvLock t]) /\
      cont_ok s q k
  | c_Add q j k =>
      query_of s j = Some q /\ phase tr j = Some (Inserted, t) /\
      recent tr t [EvUnlock t; EvInsert t q j; EvMissing t q; EvLock t] /\
      cont_ok s q k
  | c_Return q j k =>
      query_of s j = Some q /\ phase tr j <> Some (Inserted, t) /\
      call_done tr t q j /\ cont_ok s q k
  | c_Jobs d tys rest g => group_ok s d tys rest g
  | c_Results_Read j => finished tr j
  | c_group_Wait g rest =>
      exists dn, g = (dn ++ rest)%list /\ Forall (finished tr) dn
  | c_group_Results g rest acc =>
      exists dn, g = (dn ++ rest)%list /\ Forall (finished tr) dn /\
                 acc = concat (map (results_of s) dn)
  | c_group_Read g j rest acc =>
      exists dn, g = (dn ++ j :: rest)%list /\ Forall (finished tr) dn /\
                 finished tr j /\ acc = concat (map (results_of s) dn)
  | w_Lookup j => phase tr j = Some (Dequeued, t) /\ recent tr t [EvDequeue t j]
  | w_Lock j =>
      phase tr j = Some (Written, t) /\
      exists r, recent tr t [EvResult t j r; EvDequeue t j]
  | w_Delete j =>
      phase tr j = Some (Written, t) /\
      exists r, recent tr t [EvLock t; EvResult t j r; EvDequeue t j]
  | w_Unlock j =>
      phase tr j = Some (Deleted, t) /\
      exists q r, recent tr t [EvDelete t q j; EvLock t; EvResult t j r; EvDequeue t j]
  | w_Done j =>
      phase tr j = Some (Deleted, t) /\
      exists q r, recent tr t [EvUnlock t; EvDelete t q j; EvLock t;
                               EvResult t j r; EvDequeue t j]
  | _ => True
  end.

(** The invariant of the processor. *)
Record Inv (tr : list event) (s : state) : Prop := {
  inv_coh : coherent tr;
  inv_mutex : mutex s = holder tr;
  inv_crit : forall t th,
    threads s !! t = Some th -> crit (at_pc th) = true -> mutex s = Some t;
  inv_held : forall t,
    mutex s = Some t -> exists th, threads s !! t = Some th /\ crit (at_pc th) = true;
  inv_entry : forall q, jobs s !! q = entry tr q;
  inv_fresh : forall j, phase tr j = None <-> (length (heap s) <= j)%nat;
  inv_heap : forall j job,
    heap s !! j = Some job ->
    exists st w, phase tr j = Some (st, w) /\
                 wait job = (if decide (st = Finished) then 0 else 1)%Z /\
                 (Result job = None <-> pending st = true) /\
                 (jobs s !! Query job = Some j <-> mapped st = true);
  inv_entryq : forall q j, jobs s !! q = Some j -> query_of s j = Some q;
  inv_queue : NoDup (queue s) /\
              forall j, j ∈ queue s -> exists w, phase tr j = Some (Enqueued, w);
  inv_pc : forall t th, threads s !! t = Some th -> pc_ok tr s t (at_pc th);
  inv_inserted : forall j t,
    phase tr j = Some (Inserted, t) ->
    exists th q k, threads s !! t = Some th /\
                   (at_pc th = c_Unlock q j false k \/ at_pc th = c_Add q j k);
  inv_group : forall t d tys g,
    EvGroup t d tys g ∈ tr ->
    map (query_of s) g = map (fun ty => Some (mkq d ty)) tys;
  inv_results : forall t g r,
    EvGroupResults t g r ∈ tr -> r = concat (map (results_of s) g)
}.

End Trace.

(** ** Indexing a slice *)

(** [l[i]] for a Go [int] index; panics outside [0 <= i < len(l)]. *)
Definition index_at {A : Type} (l : list A) (i : Z) : go A :=
  if (i <? 0)%Z then Panic index_out_of_range
  else match l !! Z.to_nat i with
       | Some x => Ret x
       | None => Panic index_out_of_range
       end.

(** [l[lo:hi]]; panics unless [0 <= lo <= hi <= len(l)]. *)
Definition slice_of {A : Type} (l : list A) (lo hi : Z) : go (list A) :=
  if ((0 <=? lo)%Z && (lo <=? hi)%Z && (hi <=? Z.of_nat (length l))%Z)%bool
  then Ret (take (Z.to_nat (hi - lo)) (drop (Z.to_nat lo) l))
  else Panic slice_out_of_range.

Definition makeslice_out_of_range : string := "makeslice: len out of range".

(** ** Accessors of a certificate validity *)

Module Chains.

Import Validity.

(** The three accessors range over the map [v.TrustedChains]; Go visits the
    entries of a map in an order of its choosing, which is the argument
    [visit] here. *)
Definition range_of (v : CertificateValidity)
    (visit : list (string * list Certificate)) : Prop :=
  visit ≡ₚ map_to_list (TrustedChains v).

(** [v.TrustedNames()] *)
Definition TrustedNames (visit : list (string * list Certificate)) : gset string :=
  fold_left (fun set kv => {[ kv.1 ]} ∪ set) visit ∅.

(** [v.RootCertificate()]: the last certificate of the first chain visited,
    nil for an empty map. *)
Definition RootCertificate (visit : list (string * list Certificate))
    : go (option Certificate) :=
  match visit with
  | (_, chain) :: _ =>
      c ← index_at chain (Z.of_nat (length chain) - 1); Ret (Some c)
  | [] => Ret None
  end.

(** The loop [for i, cert := range chain[1 : len(chain)-1] { certs[i] = cert }],
    started at index [i]. *)
Fixpoint copy_certs (src : list Certificate) (i : nat)
    (certs : list (option Certificate)) : go (list (option Certificate)) :=
  match src with
  | [] => Ret certs
  | cert :: src' =>
      if (i <? length certs)%nat
      then copy_certs src' (S i) (<[i := Some cert]> certs)
      else Panic index_out_of_range
  end.

(** [v.IntermediateCertificates()]: a slice of pointers, or nil. *)
Definition IntermediateCertificates (visit : list (string * list Certificate))
    : go (option (list (option Certificate))) :=
  match visit with
  | (_, chain) :: _ =>
      if (length chain <? 3)%nat then
        (* no intermediate CAs *)
        Ret None
      else
        (* Skip server and root certificate *)
        let certs := replicate (length chain - 2) None in
        sl ← slice_of chain 1 (Z.of_nat (length chain) - 1);
        certs ← copy_certs sl 0 certs;
        Ret (Some certs)
  | [] => Ret None
  end.

End Chains.

(** ** Accessors of a host summary *)

Module Summary.

Import MxHost.

(** [summary.ServerFingerprint()]: a pointer to the first fingerprint, or
    nil. *)
Definition ServerFingerprint (summary : MxHostSummary) : go (option (list Z)) :=
  match fingerprints summary with
  | None => Ret None
  | Some fps => fp ← index_at fps 0; Ret (Some fp)
  end.

(** The loop of [CaFingerprints] over [summary.fingerprints], started at
    index [i]: [if i > 0 { fingerprints[i-1] = fingerprint }]. *)
Fixpoint shift_fingerprints (src : list (list Z)) (i : nat)
    (out : list (list Z)) : go (list (list Z)) :=
  match src with
  | [] => Ret out
  | fingerprint :: src' =>
      if (0 <? i)%nat then
        if (i - 1 <? length out)%nat
        then shift_fingerprints src' (S i) (<[(i - 1)%nat := fingerprint]> out)
        else Panic index_out_of_range
      else shift_fingerprints src' (S i) out
  end.

(** [summary.CaFingerprints()]; a nil [[]byte] is the empty list. *)
Definition CaFingerprints (summary : MxHostSummary) : go (option (list (list Z))) :=
  match fingerprints summary with
  | None => Ret None
  | Some fps =>
      if (Z.of_nat (length fps) - 1 <? 0)%Z then Panic makeslice_out_of_range
      else
        out ← shift_fingerprints fps 0 (replicate (length fps - 1) []);
        Ret (Some out)
  end.

(** [summary.CertificateValidForDomain(domain)], given the library's
    [cert.VerifyHostname]. *)
Definition CertificateValidForDomain
    (VerifyHostname : Certificate -> string -> option error)
    (summary : MxHostSummary) (domain : string) : go bool :=
  match certificates summary with
  | None => Panic index_out_of_range
  | Some certs =>
      c ← index_at certs 0;
      Ret (match VerifyHostname c domain with None => true | Some _ => false end)
  end.

End Summary.

(** ** One connection attempt, read off the banner log *)

Module Grab.

Import MxHost.

(** The parts of the handshake log that the code reads. *)
Record ServerHello : Type := {
  Version : Z;
  CipherSuite : Z
}.

Record Certificates : Type := {
  ParsedCertificates : option (list Certificate)
}.

Record ServerHandshake : Type := {
  Hello : option ServerHello;
  ServerCertificates : option Certificates;
  DHParams : MxHost.DHParams
}.

(** The dynamic type of [entry.Data]; [GetHandshakeLog()] may return nil. *)
Inductive EventData : Type :=
| TLSHandshakeEvent (GetHandshakeLog : option ServerHandshake)
| StartTLSEvent
| OtherEvent.

Record LogEntry : Type := {
  Data : EventData;
  Error : option error
}.

(** The locals of [NewMxHostGrab] that the loop over the log updates. *)
Record locals : Type := {
  l_starttls : option bool;
  l_Error : option string;
  tlsHandshake : option ServerHandshake;
  tlsHello : option ServerHello
}.

Definition locals0 : locals :=
  {| l_starttls := None; l_Error := None; tlsHandshake := None; tlsHello := None |}.

(** The body of [for _, entry := range banner.Log]. *)
Definition log_entry (st : locals) (entry : LogEntry) : go locals :=
  st ← match Data entry with
       | TLSHandshakeEvent log =>
           h ← deref log;
           Ret {| l_starttls := l_starttls st; l_Error := l_Error st;
                  tlsHandshake := log; tlsHello := Hello h |}
       | StartTLSEvent =>
           let val := match Error entry with None => true | Some _ => false end in
           Ret {| l_starttls := Some val; l_Error := l_Error st;
                  tlsHandshake := tlsHandshake st; tlsHello := tlsHello st |}
       | OtherEvent => Ret st
       end;
  match Error entry with
  | Some e =>
      (* If an error occurs we expect the log entry to be the last *)
      err ← simplifyError e;
      Ret {| l_starttls := l_starttls st; l_Error := Some (Error_text err);
             tlsHandshake := tlsHandshake st; tlsHello := tlsHello st |}
  | None => Ret st
  end.

Fixpoint log_loop (st : locals) (log : list LogEntry) : go locals :=
  match log with
  | [] => Ret st
  | entry :: log' => st' ← log_entry st entry; log_loop st' log'
  end.

(** [NewMxHostGrab(address, tlsVersion)], given the log of the banner that
    [zlib.GrabBanner] returned for them. *)
Definition NewMxHostGrab (log : list LogEntry) : go MxHostGrab :=
  st ← log_loop locals0 log;
  (* Copy TLS Parameters *)
  let '(version, suite) :=
    match tlsHello st with
    | Some hello => (Version hello, CipherSuite hello)
    | None => (0%Z, 0%Z)
    end in
  let '(certs, dh) :=
    match tlsHandshake st with
    | Some h =>
        (match ServerCertificates h with
         | Some certs => ParsedCertificates certs
         | None => None
         end, DHParams h)
    | None => (None, dh_nil)
    end in
  Ret {| starttls := l_starttls st; tlsVersion := version; tlsCipherSuite := suite;
         g_certificates := certs; dhParams := dh; g_Error := l_Error st |}.

(** The last entry of a log that satisfies [p]. *)
Definition last_with (p : LogEntry -> bool) (log : list LogEntry) : option LogEntry :=
  last (List.filter p log).

Definition is_starttls (entry : LogEntry) : bool :=
  match Data entry with StartTLSEvent => true | _ => false end.

Definition is_handshake (entry : LogEntry) : bool :=
  match Data entry with TLSHandshakeEvent _ => true | _ => false end.

Definition has_error (entry : LogEntry) : bool :=
  match Error entry with Some _ => true | None => false end.

(** What the locals hold after the loop over a log. *)
Definition loop_post (log : list LogEntry) (st : locals) : Prop :=
  l_starttls st = (fun e => negb (has_error e)) <$> last_with is_starttls log /\
  match last_with has_error log with
  | None => l_Error st = None
  | Some entry =>
      exists e err, Error entry = Some e /\ simplifyError e = Ret err /\
                    l_Error st = Some (Error_text err)
  end /\
  match last_with is_handshake log with
  | None => tlsHandshake st = None /\ tlsHello st = None
  | Some entry =>
      exists h, Data entry = TLSHandshakeEvent (Some h) /\
                tlsHandshake st = Some h /\ tlsHello st = Hello h
  end.

End Grab.

(** ** Counting the work done for a job *)

Module Observed.

Import Proc.

Definition is_lookup (j : nat) (ev : event) : bool :=
  match ev with
  | EvResult _ j' _ => bool_decide (j' = j)
  | _ => false
  end.

Definition is_dequeue (j : nat) (ev : event) : bool :=
  match ev with
  | EvDequeue _ j' => bool_decide (j' = j)
  | _ => false
  end.

(** What [proc.Lookup] gives for the jobs of a group, type by type. *)
Definition lookups_of (cfg : config) (d : string) (g : list nat) (tys : list Z)
    : list (go Dns.DnsResult) :=
  zip_with (fun j ty => Dns.Lookup (lib cfg) (net cfg j) (mkq d ty)) g tys.

(** The job that a handle in an event names has the query named with
    it. *)
Definition names_query (s : state) (ev : event) : Prop :=
  match ev with
  | EvFound _ q j | EvInsert _ q j | EvReturn _ q j | EvDelete _ q j =>
      Trace.query_of s j = Some q
  | _ => True
  end.

End Observed.

(** ** Statements of the design document that are put to the test *)

Module Stated.

(** Lookups over the recursive backend that fail with a transport error or
    are answered with NXDOMAIN return empty results and a non-nil error. *)
Definition failed_lookup_has_error : Prop :=
  forall (lib : Dns.Library) (net : Dns.Network) (query : Dns.DnsQuery)
         (response : option Dns.Msg) (err : option error),
    Dns.Type_ query <> Dns.TypeTLSA ->
    Dns.Exchange net query = (response, err) ->
    (err <> None \/ exists m, response = Some m /\ Dns.Rcode m = Dns.RcodeNameError) ->
    exists r, Dns.Lookup lib net query = Ret r /\
              Dns.Results r = [] /\ Dns.Error r <> None /\ Dns.ErrorMessage r <> None.



End Stated.

(** ** Concrete surroundings used to run the definitions *)

Module Sample.

Definition lib : Dns.Library :=
  {| Dns.ToLower := fun s => s; Dns.IP_String := fun _ => "192.0.2.1";
     Dns.RcodeToString := fun rc => if (rc =? 2)%Z then "SERVFAIL" else "" |}.

Definition no_such : Dns.DnsQuery :=
  {| Dns.Domain := "no-such.example."; Dns.Type_ := Dns.TypeA |}.

Definition unbound_empty : Dns.Resolved :=
  ({| Dns.u_Secure := false; Dns.u_WhyBogus := ""; Dns.u_NxDomain := false;
      Dns.u_Rcode := 0; Dns.u_Data := []; Dns.u_Rr := [] |}, None).

(** The resolver answers NXDOMAIN; the exchange itself succeeds. *)
Definition net_nxdomain : Dns.Network :=
  {| Dns.Exchange := fun _ => (Some {| Dns.Rcode := 3; Dns.Answer := [] |}, None);
     Dns.Resolve := fun _ => unbound_empty |}.

(** The exchange times out. *)
Definition net_timeout : Dns.Network :=
  {| Dns.Exchange := fun _ => (None, Some (library_error "i/o timeout"));
     Dns.Resolve := fun _ => unbound_empty |}.

Definition cert (raw : Z) (nb na : Z) (crit : list (list Z)) : Certificate :=
  {| Raw := [raw]; NotBefore := nb; NotAfter := na;
     UnhandledCriticalExtensions := crit; FingerprintSHA1 := [raw; raw] |}.

Definition leaf_ok : Certificate := cert 1 100 200 [].
Definition leaf_critical : Certificate := cert 2 100 200 [[1; 2; 3]].
Definition root : Certificate := cert 9 0 1000 [].

(** A chain builder that finds one chain to the root; every chain passes
    the filter. *)
Definition x509_one_chain : Validity.X509 :=
  {| Validity.time_Now := 150;
     Validity.SystemRootsPool := [root];
     Validity.BuildChains := fun l _ => ([[l; root]], None);
     Validity.FilterChainsByKeyUsage := fun chains _ => chains |}.

(** The first attempt negotiates TLS 1.2 without ECDHE, the second TLS 1.0
    with an ECDHE key exchange. *)
Definition grab_tls12 : MxHost.MxHostGrab :=
  {| MxHost.starttls := Some true; MxHost.tlsVersion := 771;
     MxHost.tlsCipherSuite := 47; MxHost.g_certificates := Some [leaf_ok];
     MxHost.dhParams := MxHost.dh_nil; MxHost.g_Error := None |}.

Definition grab_tls10 : MxHost.MxHostGrab :=
  {| MxHost.starttls := Some true; MxHost.tlsVersion := 769;
     MxHost.tlsCipherSuite := 49171; MxHost.g_certificates := Some [leaf_ok];
     MxHost.dhParams := MxHost.dh_ECDHEParams 3 23 65; MxHost.g_Error := None |}.

Definition world : MxHost.World :=
  {| MxHost.time_Now := 150;
     MxHost.NewMxHostGrab :=
       fun _ version => if (version =? 771)%Z then grab_tls12 else grab_tls10;
     MxHost.x509 := x509_one_chain |}.

(** Both resolvers are up: every exchange brings one address record. *)
Definition net_answers : Dns.Network :=
  {| Dns.Exchange :=
       fun _ => (Some {| Dns.Rcode := 0; Dns.Answer := [Dns.RR_A [192; 0; 2; 1]%Z] |}, None);
     Dns.Resolve := fun _ => unbound_empty |}.

Definition proc_cfg : Proc.config :=
  {| Proc.lib := lib; Proc.net := fun _ => net_answers |}.

(** Goroutine 0 resolves the addresses of a host as the MX processor does;
    goroutine 1 asks for the A record of the same host; 2 and 3 are the
    workers. *)
Definition programs : list (list Proc.op) :=
  [ [Proc.op_NewJobs "mx.example." [Dns.TypeA; Dns.TypeAAAA];
     Proc.op_group_Wait; Proc.op_group_Results];
    [Proc.op_NewJob "mx.example." Dns.TypeA; Proc.op_job_Results] ].

Definition sched : list nat :=
  (repeat 0 8 ++ repeat 1 3 ++ concat (repeat [0; 1; 2; 3] 30))%list%nat.

Definition mx_A : Dns.DnsQuery := Proc.mkq "mx.example." Dns.TypeA.

End Sample.

(** ** Further concrete surroundings *)

Module Cases.

Definition inter : Certificate := Sample.cert 5 0 1000 [].

(** A chain builder that links the leaf over the intermediates it is given
    to the roots. *)
Definition x509_via_intermediates : Validity.X509 :=
  {| Validity.time_Now := 150;
     Validity.SystemRootsPool := [Sample.root];
     Validity.BuildChains :=
       fun l opts => ([l :: Validity.Intermediates opts ++ Validity.Roots opts]%list, None);
     Validity.FilterChainsByKeyUsage := fun chains _ => chains |}.

Definition presented : list Certificate := [Sample.leaf_ok; inter].

Definition chain3 : list Certificate := [Sample.leaf_ok; inter; Sample.root].

Definition handshake12 : Grab.ServerHandshake :=
  {| Grab.Hello := Some {| Grab.Version := 771; Grab.CipherSuite := 47 |};
     Grab.ServerCertificates :=
       Some {| Grab.ParsedCertificates := Some [Sample.leaf_ok] |};
     Grab.DHParams := MxHost.dh_nil |}.

(** Connect, STARTTLS, handshake: all succeed. *)
Definition log_tls12 : list Grab.LogEntry :=
  [ {| Grab.Data := Grab.OtherEvent; Grab.Error := None |};
    {| Grab.Data := Grab.StartTLSEvent; Grab.Error := None |};
    {| Grab.Data := Grab.TLSHandshakeEvent (Some handshake12); Grab.Error := None |} ].

(** The server refuses STARTTLS. *)
Definition log_no_starttls : list Grab.LogEntry :=
  [ {| Grab.Data := Grab.OtherEvent; Grab.Error := None |};
    {| Grab.Data := Grab.StartTLSEvent;
       Grab.Error := Some (library_error "Conversation error: 502 not implemented") |} ].

Definition world_no_starttls : MxHost.World :=
  {| MxHost.time_Now := 150;
     MxHost.NewMxHostGrab :=
       fun _ _ => {| MxHost.starttls := Some false; MxHost.tlsVersion := 0;
                     MxHost.tlsCipherSuite := 0; MxHost.g_certificates := None;
                     MxHost.dhParams := MxHost.dh_nil;
                     MxHost.g_Error := Some "502 not implemented" |};
     MxHost.x509 := Sample.x509_one_chain |}.

(** The validating resolver has a secure answer with two TLSA records. *)
Definition unbound_tlsa : Dns.Resolved :=
  ({| Dns.u_Secure := true; Dns.u_WhyBogus := ""; Dns.u_NxDomain := false;
      Dns.u_Rcode := 0; Dns.u_Data := [[3; 1; 1]; [2; 0; 1]]%Z;
      Dns.u_Rr := [Dns.RR_TLSA 3 1 1 "ab"; Dns.RR_TLSA 2 0 1 "cd"] |}, None).

Definition net_tlsa : Dns.Network :=
  {| Dns.Exchange :=
       fun _ => (Some {| Dns.Rcode := 0;
                         Dns.Answer := [Dns.RR_MX "MX1.Example."; Dns.RR_other;
                                        Dns.RR_A [192; 0; 2; 1]%Z] |}, None);
     Dns.Resolve := fun _ => unbound_tlsa |}.

Definition tlsa_query : Dns.DnsQuery :=
  {| Dns.Domain := "_25._tcp.mx.example."; Dns.Type_ := Dns.TypeTLSA |}.


(** A caller that waits on a handle it never obtained. *)
Definition programs_no_handle : list (list Proc.op) := [ [Proc.op_job_Wait] ].

End Cases.

(** * Properties *)

(** ** Byte strings *)

Section StringFacts.

Import Strings.

Lemma drop_S c s n : drop (S n) (String c s) = drop n s.
Proof. reflexivity. Qed.

Lemma length_drop n s : String.length (drop n s) = (String.length s - n)%nat.
Proof.
  revert s; induction n as [|n IH]; intros [|c s]; simpl; auto with arith.
Qed.

Lemma drop_drop n m s : drop n (drop m s) = drop (m + n) s.
Proof.
  revert s; induction m as [|m IH]; intros s; simpl.
  - reflexivity.
  - destruct s as [|c s]; simpl.
    + destruct n; reflexivity.
    + apply IH.
Qed.

Lemma take_all s : take (String.length s) s = s.
Proof. induction s as [|c s IH]; simpl; congruence. Qed.

Lemma take_drop n s : (take n s ++ drop n s)%string = s.
Proof.
  revert s; induction n as [|n IH]; intros [|c s]; try reflexivity.
  change (String c (take n s ++ drop n s)%string = String c s).
  now rewrite IH.
Qed.

Lemma length_append s t :
  String.length (s ++ t)%string = (String.length s + String.length t)%nat.
Proof. induction s as [|c s IH]; simpl; [reflexivity|]. now rewrite IH. Qed.

Lemma HasPrefix_app s p : HasPrefix s p = true -> exists t, s = (p ++ t)%string.
Proof.
  revert s; induction p as [|a p IH]; intros s H; simpl in *.
  - now exists s.
  - destruct s as [|c s]; simpl in H; [discriminate|].
    destruct (Ascii.eqb c a) eqn:E; [|discriminate].
    apply Ascii.eqb_eq in E; subst c.
    destruct (IH _ H) as [t ->]. now exists t.
Qed.

(** [Contains] is the existence of a position where the pattern starts. *)
Lemma Contains_true s sub :
  Contains s sub = true <->
  exists k, (k <= String.length s)%nat /\ HasPrefix (drop k s) sub = true.
Proof.
  induction s as [|c s IH].
  - simpl. rewrite orb_false_r. split.
    + intros H. exists 0%nat. split; [lia|]. exact H.
    + intros (k & _ & H). destruct k; exact H.
  - cbn [Contains]. rewrite orb_true_iff, IH. split.
    + intros [H | (k & Hk & H)].
      * exists 0%nat. split; [lia|]. exact H.
      * exists (S k). split; [simpl; lia|]. exact H.
    + intros (k & Hk & H). destruct k as [|k].
      * left. exact H.
      * right. exists k. split; [simpl in Hk; lia|]. exact H.
Qed.

Lemma Contains_false s sub :
  Contains s sub = false <->
  forall k, (k <= String.length s)%nat -> HasPrefix (drop k s) sub = false.
Proof.
  split.
  - intros H k Hk. destruct (HasPrefix (drop k s) sub) eqn:E; [|reflexivity].
    assert (Contains s sub = true) by (apply Contains_true; eauto). congruence.
  - intros H. destruct (Contains s sub) eqn:E; [|reflexivity].
    apply Contains_true in E. destruct E as (k & Hk & E).
    rewrite (H k Hk) in E. discriminate.
Qed.

(** What the scan of [LastIndex] computes. *)
Lemma last_from_spec s sep i found :
  (Contains s sep = false /\ last_from s sep i found = found) \/
  (exists k : nat,
      last_from s sep i found = (i + Z.of_nat k)%Z /\
      (k <= String.length s)%nat /\
      HasPrefix (drop k s) sep = true /\
      forall k', (k < k' <= String.length s)%nat -> HasPrefix (drop k' s) sep = false).
Proof.
  revert i found; induction s as [|c s IH]; intros i found.
  - cbn [last_from Contains]. rewrite orb_false_r.
    destruct (HasPrefix "" sep) eqn:E.
    + right. exists 0%nat. repeat split; [lia|simpl; lia|exact E|].
      simpl. intros k' Hk'. lia.
    + left. split; reflexivity.
  - cbn [last_from Contains].
    destruct (IH (i + 1)%Z (if HasPrefix (String c s) sep then i else found))
      as [[Hc Hl] | (k & Hl & Hk & Hp & Hlast)].
    + rewrite Hl, Hc, orb_false_r.
      destruct (HasPrefix (String c s) sep) eqn:E.
      * right. exists 0%nat. repeat split; [lia|simpl; lia|exact E|].
        intros k' Hk'. destruct k' as [|k']; [lia|].
        rewrite drop_S. rewrite Contains_false in Hc. apply Hc. simpl in Hk'. lia.
      * left. split; reflexivity.
    + right. exists (S k). repeat split.
      * rewrite Hl. lia.
      * simpl. lia.
      * exact Hp.
      * intros k' Hk'. destruct k' as [|k']; [lia|].
        rewrite drop_S. apply Hlast. simpl in Hk'. lia.
Qed.

Lemma LastIndex_none s sep : LastIndex s sep = (-1)%Z <-> Contains s sep = false.
Proof.
  unfold LastIndex.
  destruct (last_from_spec s sep 0 (-1)) as [[Hc Hl] | (k & Hl & Hk & Hp & _)].
  - rewrite Hl, Hc. tauto.
  - rewrite Hl. split; [lia|].
    intros Hc. rewrite Contains_false in Hc. rewrite (Hc k Hk) in Hp. discriminate.
Qed.

(** Cutting behind the last separator: the text splits at it, and the part
    kept holds no further separator. *)
Lemma LastIndex_cut msg :
  Contains msg ": " = true ->
  exists pre suf,
    msg = (pre ++ ": " ++ suf)%string /\
    Contains suf ": " = false /\
    LastIndex msg ": " = len pre /\
    slice msg (LastIndex msg ": " + 2) (len msg) = Ret suf.
Proof.
  intros Hc. unfold LastIndex.
  destruct (last_from_spec msg ": " 0 (-1)) as [[Hc' _] | (k & Hl & Hk & Hp & Hlast)];
    [congruence|].
  destruct (HasPrefix_app _ _ Hp) as [suf Hsuf].
  assert (Hlen : (k + 2 + String.length suf = String.length msg)%nat).
  { pose proof (f_equal String.length Hsuf) as E.
    rewrite length_drop, length_append in E. simpl in E. lia. }
  assert (Hd : drop (k + 2) msg = suf).
  { rewrite <- drop_drop, Hsuf. reflexivity. }
  exists (take k msg), suf.
  assert (Hpre : String.length (take k msg) = k).
  { pose proof (f_equal String.length (take_drop k msg)) as E.
    rewrite length_append, length_drop in E. lia. }
  repeat split.
  - rewrite <- Hsuf. symmetry. apply take_drop.
  - apply Contains_false. intros j Hj.
    rewrite <- Hd, drop_drop. apply Hlast. lia.
  - rewrite Hl. unfold len. rewrite Hpre. lia.
  - rewrite Hl. unfold slice, len.
    replace ((0 <=? 0 + Z.of_nat k + 2)%Z) with true by (symmetry; apply Z.leb_le; lia).
    replace ((0 + Z.of_nat k + 2 <=? Z.of_nat (String.length msg))%Z) with true
      by (symmetry; apply Z.leb_le; lia).
    rewrite Z.leb_refl. simpl andb. cbv iota.
    replace (Z.to_nat (0 + Z.of_nat k + 2)) with (k + 2)%nat by lia.
    replace (Z.to_nat (Z.of_nat (String.length msg) - (0 + Z.of_nat k + 2)))
      with (String.length suf) by lia.
    rewrite Hd, take_all. reflexivity.
Qed.

End StringFacts.

(** ** Error simplification *)

Lemma simplify_loop_spec (ps : list string) (err : error) :
  MxHost.simplify_loop ps err =
  if existsb (Strings.HasPrefix (Error_text err)) ps
     && Strings.Contains (Error_text err) ": "
  then s ← Strings.slice (Error_text err)
             (Strings.LastIndex (Error_text err) ": " + 2)
             (Strings.len (Error_text err));
       Ret (errors_New s)
  else Ret err.
Proof.
  induction ps as [|p ps IH]; [reflexivity|].
  cbn [MxHost.simplify_loop existsb].
  destruct (Strings.HasPrefix (Error_text err) p) eqn:Hp; cbn [orb]; [|exact IH].
  destruct (Strings.Contains (Error_text err) ": ") eqn:Hc; cbn [andb].
  - destruct (Z.eqb_spec (Strings.LastIndex (Error_text err) ": ") (-1)) as [E|E].
    + apply LastIndex_none in E. congruence.
    + reflexivity.
  - assert (E : Strings.LastIndex (Error_text err) ": " = (-1)%Z)
      by (now apply LastIndex_none).
    rewrite E. cbn [Z.eqb negb]. rewrite IH, andb_false_r. reflexivity.
Qed.

(** C6. An error whose text starts with one of the listed prefixes and
    holds the separator ": " is replaced by a new error whose text is
    what follows the last separator; any other error is returned as it
    is; the refused connection of the design document comes out as
    "connection refused". *)
Theorem simplifyError_keeps_text_after_last_separator (err : error) :
  ((exists prefix, In prefix MxHost.stripErrors /\
                   Strings.HasPrefix (Error_text err) prefix = true) ->
   Strings.Contains (Error_text err) ": " = true ->
   exists pre suf,
     Error_text err = (pre ++ ": " ++ suf)%string /\
     Strings.Contains suf ": " = false /\
     MxHost.simplifyError err = Ret (errors_New suf)) /\
  ((forall prefix, In prefix MxHost.stripErrors ->
                   Strings.HasPrefix (Error_text err) prefix = false) \/
   Strings.Contains (Error_text err) ": " = false ->
   MxHost.simplifyError err = Ret err) /\
  (Error_text err = "dial tcp 203.0.113.5:25: connection refused" ->
   MxHost.simplifyError err = Ret (errors_New "connection refused")).
Proof.
  unfold MxHost.simplifyError. rewrite simplify_loop_spec.
  split; [|split].
  - intros (p & Hin & Hp) Hc.
    assert (Hex : existsb (Strings.HasPrefix (Error_text err)) MxHost.stripErrors = true)
      by (apply existsb_exists; eauto).
    rewrite Hex, Hc. cbn [andb].
    destruct (LastIndex_cut _ Hc) as (pre & suf & Hmsg & Hsuf & _ & Hslice).
    exists pre, suf. rewrite Hslice. auto.
  - intros [Hno | Hc].
    + assert (Hex : existsb (Strings.HasPrefix (Error_text err)) MxHost.stripErrors = false).
      { destruct (existsb _ _) eqn:E; [|reflexivity].
        apply existsb_exists in E. destruct E as (p & Hin & Hp).
        rewrite (Hno p Hin) in Hp. discriminate. }
      now rewrite Hex.
    + now rewrite Hc, andb_false_r.
  - intros ->. reflexivity.
Qed.

Lemma simplifyError_keeps_text_after_last_separator_witness :
  (exists pre suf,
      "dial tcp 203.0.113.5:25: connection refused" = (pre ++ ": " ++ suf)%string /\
      Strings.Contains suf ": " = false /\
      MxHost.simplifyError (library_error "dial tcp 203.0.113.5:25: connection refused")
      = Ret (errors_New suf)) /\
  MxHost.simplifyError (library_error "EOF: unexpected") = Ret (library_error "EOF: unexpected") /\
  MxHost.simplifyError (library_error "dial tcp 203.0.113.5:25: connection refused")
  = Ret (errors_New "connection refused").
Proof.
  split; [|split].
  - apply (proj1 (simplifyError_keeps_text_after_last_separator
                    (library_error "dial tcp 203.0.113.5:25: connection refused"))).
    + exists "dial tcp". split; [simpl; tauto | reflexivity].
    + reflexivity.
  - apply (proj1 (proj2 (simplifyError_keeps_text_after_last_separator
                           (library_error "EOF: unexpected")))).
    left. intros p Hp. simpl in Hp.
    destruct Hp as [<-|[<-|[<-|[<-|[<-|[]]]]]]; reflexivity.
  - apply (proj2 (proj2 (simplifyError_keeps_text_after_last_separator
                           (library_error "dial tcp 203.0.113.5:25: connection refused")))).
    reflexivity.
Defined.

(** ** Lookups over the recursive backend *)

(** C1, as amended.  Over the recursive backend a transport error gives
    empty results and that error, so that [ErrorMessage()] is non-nil; an
    NXDOMAIN answer that arrives without a transport error gives empty
    results and no error. *)
Theorem Lookup_transport_error_and_nxdomain
    (lib : Dns.Library) (net : Dns.Network) (query : Dns.DnsQuery) :
  Dns.Type_ query <> Dns.TypeTLSA ->
  (forall response e,
      Dns.Exchange net query = (response, Some e) ->
      exists r, Dns.Lookup lib net query = Ret r /\
                Dns.Results r = [] /\ Dns.Error r = Some e /\
                Dns.ErrorMessage r = Some (Error_text e)) /\
  (forall m,
      Dns.Exchange net query = (Some m, None) ->
      Dns.Rcode m = Dns.RcodeNameError ->
      exists r, Dns.Lookup lib net query = Ret r /\
                Dns.Results r = [] /\ Dns.Error r = None /\
                Dns.ErrorMessage r = None).
Proof.
  intros Hty. unfold Dns.Lookup.
  destruct (Z.eqb_spec (Dns.Type_ query) Dns.TypeTLSA) as [E|_]; [contradiction|].
  split.
  - intros response e ->. eexists. split; [reflexivity|]. auto.
  - intros m -> Hm. unfold Dns.lookupDns. cbn [deref mbind go_mbind go_bind].
    rewrite Hm. eexists. split; [reflexivity|]. auto.
Qed.

Lemma Lookup_transport_error_and_nxdomain_witness :
  (exists r, Dns.Lookup Sample.lib Sample.net_timeout Sample.no_such = Ret r /\
             Dns.Results r = [] /\
             Dns.Error r = Some (library_error "i/o timeout") /\
             Dns.ErrorMessage r = Some "i/o timeout") /\
  (exists r, Dns.Lookup Sample.lib Sample.net_nxdomain Sample.no_such = Ret r /\
             Dns.Results r = [] /\ Dns.Error r = None /\
             Dns.ErrorMessage r = None).
Proof.
  split.
  - apply (proj1 (Lookup_transport_error_and_nxdomain
                    Sample.lib Sample.net_timeout Sample.no_such
                    ltac:(vm_compute; discriminate)) None).
    reflexivity.
  - apply (proj2 (Lookup_transport_error_and_nxdomain
                    Sample.lib Sample.net_nxdomain Sample.no_such
                    ltac:(vm_compute; discriminate))
                 {| Dns.Rcode := 3; Dns.Answer := [] |}); reflexivity.
Defined.

(** An NXDOMAIN answer leaves the error nil: the statement of the design
    document does not hold. *)
Lemma failed_lookup_has_error_fails : ~ Stated.failed_lookup_has_error.
Proof.
  intros H.
  destruct (H Sample.lib Sample.net_nxdomain Sample.no_such
              (Some {| Dns.Rcode := 3; Dns.Answer := [] |}) None)
    as (r & Hr & _ & He & _).
  - vm_compute. discriminate.
  - reflexivity.
  - right. eexists. split; reflexivity.
  - vm_compute in Hr. injection Hr as <-. apply He. reflexivity.
Qed.

(** ** Certificate validity *)

Section ValidityFacts.

Import Validity.

Variable env : X509.

(** Past index 0 the loop leaves [leaf] and the clock reading alone. *)
Lemma range_certs_S certs i leaf opts :
  (range_certs certs (S i) leaf opts).1 = leaf /\
  CurrentTime (range_certs certs (S i) leaf opts).2 = CurrentTime opts.
Proof.
  revert i opts; induction certs as [|c certs IH]; intros i opts; simpl; [auto|].
  destruct (IH (S i) {| CurrentTime := CurrentTime opts;
                        Intermediates := AddCert (Intermediates opts) c;
                        Roots := Roots opts |}) as [H1 H2].
  split; [exact H1 | exact H2].
Qed.

Lemma range_certs_cons cert rest :
  exists opts, range_certs (cert :: rest) 0 None (opts0 env) = (Some cert, opts) /\
               CurrentTime opts = time_Now env.
Proof.
  simpl. destruct (range_certs_S rest 0 (Some cert) (opts0 env)) as [H1 H2].
  destruct (range_certs rest 1 (Some cert) (opts0 env)) as [l o]. simpl in *.
  subst l. eauto.
Qed.

(** The shape of every run on a non-empty sequence. *)
Lemma NewCertificateValidity_cons leaf rest :
  exists opts,
    range_certs (leaf :: rest) 0 None (opts0 env) = (Some leaf, opts) /\
    let v := {| Expired := expired_at env leaf; Error := None;
                Certificates := leaf :: rest; TrustedChains := ∅ |} in
    NewCertificateValidity env (leaf :: rest) =
    if (0 <? length (UnhandledCriticalExtensions leaf))%nat then
      Ret (set_Error v (Plain (errors_New "unhandled critical extension")), [])
    else
      match BuildChains env leaf opts with
      | (_, Some e) => Ret (set_Error v (Plain e), [call_BuildChains v leaf opts])
      | (cands, None) =>
          let calls := [call_BuildChains v leaf opts;
                        call_FilterChainsByKeyUsage v cands [ExtKeyUsageServerAuth]] in
          match FilterChainsByKeyUsage env cands [ExtKeyUsageServerAuth] with
          | [] => Ret (set_Error v (CertificateInvalidError (Some leaf) IncompatibleUsage),
                       calls)
          | chain0 :: _ => Ret (set_chain v "system" chain0, calls)
          end
      end.
Proof.
  destruct (range_certs_cons leaf rest) as (opts & Hr & Hnow).
  exists opts. split; [exact Hr|].
  unfold NewCertificateValidity. rewrite Hr.
  cbn [deref mbind go_mbind go_bind]. rewrite Hnow. unfold expired_at.
  destruct (Before (time_Now env) (NotBefore leaf));
    cbn [orb mbind go_mbind go_bind deref];
    destruct (0 <? length (UnhandledCriticalExtensions leaf))%nat; try reflexivity;
    destruct (BuildChains env leaf opts) as [cands [e|]]; reflexivity.
Qed.

End ValidityFacts.

(** C7. On a non-empty sequence [Expired] is true exactly when the clock
    reads before the leaf's not-before or after its not-after; the field has
    that value at every call into the chain builder. *)
Theorem Expired_iff_outside_validity_period
    (env : Validity.X509) (leaf : Certificate) (rest : list Certificate) :
  exists v calls,
    Validity.NewCertificateValidity env (leaf :: rest) = Ret (v, calls) /\
    (Validity.Expired v = true <->
     (Validity.time_Now env < NotBefore leaf \/ NotAfter leaf < Validity.time_Now env)%Z) /\
    Forall (fun c => Validity.Expired (Validity.at_call c) = Validity.Expired v) calls.
Proof.
  destruct (NewCertificateValidity_cons env leaf rest) as (opts & _ & ->).
  assert (Hexp : Validity.expired_at env leaf = true <->
                 (Validity.time_Now env < NotBefore leaf \/
                  NotAfter leaf < Validity.time_Now env)%Z).
  { unfold Validity.expired_at, Validity.Before, Validity.After.
    rewrite orb_true_iff, !Z.ltb_lt. tauto. }
  destruct (0 <? length (UnhandledCriticalExtensions leaf))%nat.
  { eexists _, _. split; [reflexivity|]. split; [exact Hexp | constructor]. }
  destruct (Validity.BuildChains env leaf opts) as [cands [e|]].
  { eexists _, _. split; [reflexivity|]. split; [exact Hexp|].
    repeat constructor. }
  destruct (Validity.FilterChainsByKeyUsage env cands _) as [|chain0 chains];
    eexists _, _; (split; [reflexivity|]); (split; [exact Hexp|]);
    repeat constructor.
Qed.

(** C8. A leaf with an unhandled critical extension ends the function with
    the error "unhandled critical extension", no chain stored and no call
    into the chain builder. *)
Theorem unhandled_critical_extension_stops
    (env : Validity.X509) (leaf : Certificate) (rest : list Certificate) :
  UnhandledCriticalExtensions leaf <> [] ->
  exists v,
    Validity.NewCertificateValidity env (leaf :: rest) = Ret (v, []) /\
    Validity.Error v = Some (Validity.Plain (errors_New "unhandled critical extension")) /\
    Validity.TrustedChains v = ∅.
Proof.
  intros Hne.
  destruct (NewCertificateValidity_cons env leaf rest) as (opts & _ & ->).
  destruct (UnhandledCriticalExtensions leaf) as [|x xs]; [contradiction|].
  simpl. eexists. split; [reflexivity|]. split; reflexivity.
Qed.

Lemma unhandled_critical_extension_stops_witness :
  exists v,
    Validity.NewCertificateValidity Sample.x509_one_chain [Sample.leaf_critical; Sample.root]
    = Ret (v, []) /\
    Validity.Error v = Some (Validity.Plain (errors_New "unhandled critical extension")) /\
    Validity.TrustedChains v = ∅.
Proof.
  apply (unhandled_critical_extension_stops
           Sample.x509_one_chain Sample.leaf_critical [Sample.root]).
  simpl. discriminate.
Defined.

(** C9. When the leaf has no unhandled critical extension and the chains
    are built without error, they are filtered for server authentication;
    the first chain left is stored under "system", and only there, with no
    error; when none is left the error is the incompatible-usage one and no
    chain is stored. *)
Theorem first_surviving_chain_stored_under_system
    (env : Validity.X509) (leaf : Certificate) (rest : list Certificate)
    (cands : list (list Certificate)) :
  UnhandledCriticalExtensions leaf = [] ->
  Validity.BuildChains env leaf
    (Validity.range_certs (leaf :: rest) 0 None (Validity.opts0 env)).2 = (cands, None) ->
  exists v calls,
    Validity.NewCertificateValidity env (leaf :: rest) = Ret (v, calls) /\
    match Validity.FilterChainsByKeyUsage env cands [Validity.ExtKeyUsageServerAuth] with
    | chain0 :: _ =>
        Validity.TrustedChains v = {[ "system" := chain0 ]} /\
        Validity.Error v = None
    | [] =>
        Validity.Error v =
          Some (Validity.CertificateInvalidError (Some leaf) Validity.IncompatibleUsage) /\
        Validity.TrustedChains v = ∅
    end.
Proof.
  intros Hext Hbuild.
  destruct (NewCertificateValidity_cons env leaf rest) as (opts & Hr & ->).
  rewrite Hr in Hbuild. simpl in Hbuild. rewrite Hext, Hbuild. simpl.
  destruct (Validity.FilterChainsByKeyUsage env cands _) as [|chain0 chains];
    eexists _, _; (split; [reflexivity|]); split; reflexivity.
Qed.

Lemma first_surviving_chain_stored_under_system_witness :
  exists v calls,
    Validity.NewCertificateValidity Sample.x509_one_chain [Sample.leaf_ok; Sample.root]
    = Ret (v, calls) /\
    Validity.TrustedChains v = {[ "system" := [Sample.leaf_ok; Sample.root] ]} /\
    Validity.Error v = None.
Proof.
  apply (first_surviving_chain_stored_under_system
           Sample.x509_one_chain Sample.leaf_ok [Sample.root]
           [[Sample.leaf_ok; Sample.root]]); reflexivity.
Defined.


(** ** Host summaries *)

Section SummaryFacts.

Import MxHost.



End SummaryFacts.

Section MergeFacts.

Import MxHost.

Local Ltac crunch :=
  repeat match goal with
         | |- context [match ?x with _ => _ end] => destruct x eqn:?; simpl in *
         | H : context [match ?x with _ => _ end] |- _ => destruct x eqn:?; simpl in *
         end; simplify_eq; try done.

Lemma Append_first s g :
  Starttls (Append s g) = Starttls s /\ Error (Append s g) = Error s.
Proof. unfold Append. crunch. Qed.

Lemma Append_certificates s g :
  certificates (Append s g) =
  match certificates s with Some c => Some c | None => g_certificates g end.
Proof. unfold Append. crunch. Qed.

Lemma Append_ecdhe_kept s g ty :
  ecdheCurveType s = Some ty ->
  ecdheCurveType (Append s g) = ecdheCurveType s /\
  ecdheCurveId (Append s g) = ecdheCurveId s /\
  ecdheKeyLength (Append s g) = ecdheKeyLength s.
Proof. intros H. unfold Append. crunch. Qed.




(** The summary before the fingerprints, as a nest of [Append]s. *)
Lemma merge_grabs_eq w addr :
  merge_grabs w addr =
  let g1 := NewMxHostGrab w addr VersionTLS12 in
  let g2 := NewMxHostGrab w addr VersionTLS10 in
  let r0 :=
    {| address := addr; Updated := time_Now w; Starttls := starttls g1;
       tlsVersions := None; tlsCipherSuites := None; certificates := None;
       fingerprints := None; validity := None; ecdheCurveType := None;
       ecdheCurveId := None; ecdheKeyLength := None; Error := g_Error g1 |} in
  match starttls g1 with
  | Some true =>
      if (VersionTLS10 <? tlsVersion g1)%Z
      then (if TLSSuccessful g2 then Append (Append r0 g1) g2 else Append r0 g1,
            [VersionTLS12; VersionTLS10])
      else (Append r0 g1, [VersionTLS12])
  | _ => (r0, [VersionTLS12])
  end.
Proof.
  unfold merge_grabs. cbn [Starttls set_first].
  destruct (starttls (NewMxHostGrab w addr VersionTLS12)) as [[|]|]; try reflexivity.
  destruct (VersionTLS10 <? _)%Z; [|reflexivity].
  destruct (TLSSuccessful _); reflexivity.
Qed.



End MergeFacts.




(** ** The DNS processor *)

Section ProcFacts.

Import Dns Proc Trace.
Local Open Scope list_scope.

Variable cfg : config.

Ltac step_cases H :=
  unfold step_at, panic in H;
  repeat (match type of H with
          | context [match ?x with _ => _ end] => destruct x eqn:?
          | context [if ?x then _ else _] => destruct x eqn:?
          end; simplify_eq).

Lemma step_at_shape s t th ev s' :
  threads s !! t = Some th ->
  step_at cfg s t th = Some (ev, s') ->
  thread_of ev = t /\ exists th', s' = with_thread (effect ev s) t th'.
Proof.
  intros Hth H. step_cases H; simpl;
    (split; [reflexivity|]);
    (eexists; unfold effect;
     repeat match goal with E : _ = _ |- _ => rewrite E end; reflexivity).
Qed.

Lemma step_inv s t ev s' :
  step cfg s t = Some (ev, s') ->
  panicked s = false /\
  exists th, threads s !! t = Some th /\ step_at cfg s t th = Some (ev, s').
Proof.
  unfold step. destruct (panicked s); [discriminate|].
  destruct (threads s !! t) as [th|]; [|discriminate]. eauto.
Qed.

Lemma done_finished tr s j :
  Inv tr s -> done s j = true -> finished tr j.
Proof.
  intros I H. unfold done in H.
  destruct (heap s !! j) as [job|] eqn:E; [|discriminate].
  destruct (inv_heap _ _ I _ _ E) as (st & w & Hp & Hw & _).
  apply Z.eqb_eq in H. rewrite H in Hw.
  destruct (decide (st = Finished)) as [->|]; [|discriminate].
  now exists w.
Qed.

Lemma query_of_fresh tr s j q :
  Inv tr s -> query_of s j = Some q -> phase tr j <> None.
Proof.
  intros I H Hn. apply (inv_fresh _ _ I) in Hn.
  unfold query_of in H. rewrite lookup_ge_None_2 in H by lia. discriminate.
Qed.

Lemma step_ev tr s t th ev s' :
  Inv tr s ->
  threads s !! t = Some th ->
  step_at cfg s t th = Some (ev, s') ->
  ev_ok tr ev /\ ev_state s ev.
Proof.
  intros I Hth H.
  pose proof (inv_pc _ _ I _ _ Hth) as Hpc.
  pose proof (inv_crit _ _ I _ _ Hth) as Hcrit.
  pose proof (inv_mutex _ _ I) as Hmx.
  pose proof (inv_entry _ _ I) as Hen.
  step_cases H; simpl in Hpc, Hcrit; simpl; try tauto;
    try (specialize (Hcrit eq_refl); rewrite Hcrit in Hmx);
    rewrite <- ?Hen;
    try solve [ intuition congruence
              | intuition eauto using done_finished
              | split; [|done]; destruct Hpc as (dn & -> & Hf & _);
                rewrite app_nil_r; exact Hf
              | split; [|done]; destruct Hpc as (dn & -> & Hf);
                rewrite app_nil_r; exact Hf
              | destruct Hpc as (dn & _ & _ & Hf & _); split; [exact Hf | done] ].
  - (* insert *)
    repeat split; try tauto; [|congruence].
    apply (inv_fresh _ _ I). lia.
  - (* enqueue *)
    destruct Hpc as (Hq & Hp & Hr & Hk).
    split; [|done]. split; [done|]. split; [|eauto].
    intros Hh. rewrite <- Hmx in Hh.
    destruct (inv_held _ _ I _ Hh) as (th0 & Hth0 & Hc).
    rewrite Hth in Hth0. injection Hth0 as <-. rewrite Heqp in Hc. discriminate.
  - (* return to a caller *)
    split; [|done]. destruct Hpc as (Hq & Hp & Hr & _). split; [|done].
    destruct (phase tr job) as [p|] eqn:E.
    + exists p. split; congruence.
    + exfalso. eapply query_of_fresh; eauto.
  - (* return into the loop *)
    split; [|done]. destruct Hpc as (Hq & Hp & Hr & _). split; [|done].
    destruct (phase tr job) as [p|] eqn:E.
    + exists p. split; congruence.
    + exfalso. eapply query_of_fresh; eauto.
  - (* dequeue *)
    split; [|eauto]. apply (inv_queue _ _ I).
    match goal with E : queue s = _ |- _ => rewrite E end. left.
  - (* delete *)
    destruct Hpc as (Hp & r & Hr).
    match goal with E : heap s !! job = Some _ |- _ =>
      pose proof E as Hjob;
      destruct (inv_heap _ _ I _ _ E) as (st & w & Hp' & _ & _ & Hm) end.
    rewrite Hp in Hp'. injection Hp' as <- <-.
    split; [split; [now apply Hm | split; congruence]|].
    unfold query_of. now rewrite Hjob.
Qed.

(** *** Traces *)

Lemma phase_frame tr ev j st w :
  ev_ok tr ev -> phase tr j = Some (st, w) ->
  w <> thread_of ev -> st <> Enqueued ->
  phase (ev :: tr) j = Some (st, w).
Proof.
  intros Hok Hp Hw Hst. simpl.
  destruct (stage_of ev) as [[j' st']|] eqn:E; [|exact Hp].
  destruct (decide (j' = j)) as [->|]; [|exact Hp].
  exfalso. destruct ev; simpl in *; simplify_eq; destruct_and?;
    try destruct Hok as [? Hok]; congruence.
Qed.

Lemma finished_cons tr ev j :
  ev_ok tr ev -> finished tr j -> finished (ev :: tr) j.
Proof.
  intros Hok [w Hp]. unfold finished. simpl.
  destruct (stage_of ev) as [[j' st']|] eqn:E; [|eauto].
  destruct (decide (j' = j)) as [->|]; [|eauto].
  exfalso. destruct ev; simpl in *; simplify_eq; destruct_and?;
    try destruct Hok as [? Hok]; congruence.
Qed.

Lemma Forall_finished_cons tr ev g :
  ev_ok tr ev -> Forall (finished tr) g -> Forall (finished (ev :: tr)) g.
Proof.
  intros Hok H. eapply Forall_impl; [exact H|]. intros j. now apply finished_cons.
Qed.

Lemma phase_not_inserted tr ev j t :
  ev_ok tr ev -> phase tr j <> None ->
  phase tr j <> Some (Inserted, t) -> phase (ev :: tr) j <> Some (Inserted, t).
Proof.
  intros Hok Hn Hp. simpl.
  destruct (stage_of ev) as [[j' st']|] eqn:E; [|exact Hp].
  destruct (decide (j' = j)) as [->|]; [|exact Hp].
  destruct ev; simpl in *; simplify_eq; try congruence.
  destruct Hok as (_ & Hf & _). congruence.
Qed.

Lemma recent_frame tr ev t l :
  thread_of ev <> t -> recent tr t l -> recent (ev :: tr) t l.
Proof.
  intros Hne [older H]. exists older. unfold by_thread in *.
  rewrite filter_cons_False; auto.
Qed.

Lemma recent_push tr ev t l :
  thread_of ev = t -> recent tr t l -> recent (ev :: tr) t (ev :: l).
Proof.
  intros He [older H]. exists older. unfold by_thread in *.
  rewrite filter_cons_True by done. simpl. now rewrite H.
Qed.

Lemma call_done_frame tr ev t q j :
  thread_of ev <> t -> call_done tr t q j -> call_done (ev :: tr) t q j.
Proof. intros Hne [H|H]; [left|right]; now apply recent_frame. Qed.

Lemma recent_nil tr t : recent tr t [].
Proof. now exists (by_thread t tr). Qed.


(** *** The shared state after an event *)

Lemma eff_mutex tr s ev :
  Inv tr s -> mutex (effect ev s) = holder (ev :: tr).
Proof.
  intros I. pose proof (inv_mutex _ _ I).
  destruct ev; simpl; try done; destruct (heap s !! job); done.
Qed.

Lemma eff_entry tr s ev q :
  Inv tr s -> jobs (effect ev s) !! q = entry (ev :: tr) q.
Proof.
  intros I. pose proof (inv_entry _ _ I q).
  destruct ev; simpl; try done; try (destruct (heap s !! job); done).
  - rewrite lookup_insert. destruct (decide (query = q)); done.
  - rewrite lookup_delete. destruct (decide (query = q)); done.
Qed.

Lemma eff_length s ev :
  ev_state s ev ->
  length (heap (effect ev s)) =
  match ev with EvInsert _ _ _ => S (length (heap s)) | _ => length (heap s) end.
Proof.
  intros Hs. destruct ev; simpl; try done;
    try (destruct (heap s !! job); simpl; rewrite ?length_insert; done).
  rewrite length_app. simpl. lia.
Qed.

Lemma eff_fresh tr s ev j :
  Inv tr s -> ev_ok tr ev -> ev_state s ev ->
  phase (ev :: tr) j = None <-> (length (heap (effect ev s)) <= j)%nat.
Proof.
  intros I Hok Hs. rewrite eff_length by done.
  pose proof (inv_fresh _ _ I) as Hf. simpl.
  destruct ev; simpl in *; try apply Hf;
    (destruct (decide (job = j)) as [->|Hne]; [|try apply Hf]).
  - subst j. split; [done|lia].
  - subst job. rewrite Hf. lia.
  - destruct Hok as (Hp & _). split; [done|]. intros Hl.
    apply Hf in Hl. congruence.
  - destruct Hok as (w & Hp). split; [done|]. intros Hl.
    apply Hf in Hl. congruence.
  - split; [done|]. intros Hl. apply Hf in Hl. congruence.
  - destruct Hok as (_ & _ & Hp). split; [done|]. intros Hl.
    apply Hf in Hl. congruence.
  - destruct Hok as (Hp & _). split; [done|]. intros Hl.
    apply Hf in Hl. congruence.
Qed.

Lemma eff_query s ev j q :
  query_of s j = Some q -> query_of (effect ev s) j = Some q.
Proof.
  unfold query_of. intros H.
  destruct ev; simpl; try done.
  - destruct (heap s !! j) as [jb|] eqn:E; [|discriminate].
    now rewrite (lookup_app_l_Some _ _ _ _ E).
  - destruct (heap s !! job) as [jb|] eqn:E; simpl; [|done].
    destruct (decide (job = j)) as [->|Hne].
    + rewrite list_lookup_insert_eq by (eapply lookup_lt_Some; eauto).
      rewrite E in H. done.
    + now rewrite list_lookup_insert_ne.
  - destruct (heap s !! job) as [jb|] eqn:E; simpl; [|done].
    destruct (decide (job = j)) as [->|Hne].
    + rewrite list_lookup_insert_eq by (eapply lookup_lt_Some; eauto).
      rewrite E in H. done.
    + now rewrite list_lookup_insert_ne.
Qed.

Lemma eff_results tr s ev j :
  ev_ok tr ev -> finished tr j ->
  results_of (effect ev s) j = results_of s j.
Proof.
  unfold results_of. intros Hok [w Hf].
  destruct ev; simpl; try done.
  - destruct (heap s !! j) as [jb|] eqn:E.
    + now rewrite (lookup_app_l_Some _ _ _ _ E).
    + apply lookup_ge_None in E.
      destruct (decide (j = length (heap s))) as [->|Hne].
      * rewrite lookup_app_r by lia. rewrite Nat.sub_diag. done.
      * rewrite lookup_ge_None_2; [done|]. rewrite length_app. simpl. lia.
  - destruct (heap s !! job) as [jb|] eqn:E; simpl; [|done].
    destruct (decide (job = j)) as [->|Hne].
    + simpl in Hok. congruence.
    + now rewrite list_lookup_insert_ne.
  - destruct (heap s !! job) as [jb|] eqn:E; simpl; [|done].
    destruct (decide (job = j)) as [->|Hne].
    + rewrite list_lookup_insert_eq by (eapply lookup_lt_Some; eauto).
      rewrite E. done.
    + now rewrite list_lookup_insert_ne.
Qed.


Lemma eff_heap tr s ev j job :
  Inv tr s -> ev_ok tr ev -> ev_state s ev ->
  heap (effect ev s) !! j = Some job ->
  exists st w,
    phase (ev :: tr) j = Some (st, w) /\
    wait job = (if decide (st = Finished) then 0 else 1)%Z /\
    (Result job = None <-> pending st = true) /\
    (jobs (effect ev s) !! Query job = Some j <-> mapped st = true).
Proof.
  intros I Hok Hs H.
  pose proof (inv_heap _ _ I) as Hh.
  pose proof (inv_entry _ _ I) as Hen.
  destruct ev as [| | | | | |t q j0|t j0| | | | | | | |t j0|t j0 r|t q j0|t j0|];
    simpl in H, Hok, Hs |- *; try (exact (Hh _ _ H)).
  - (* insert *)
    subst j0. destruct Hok as (He & Hp & _).
    destruct (decide (length (heap s) = j)) as [<-|Hne].
    + rewrite lookup_app_r in H by lia. rewrite Nat.sub_diag in H.
      injection H as <-. simpl. exists Inserted, t.
      rewrite lookup_insert_eq. done.
    + assert (Hj : heap s !! j = Some job).
      { destruct (decide (j < length (heap s))%nat).
        - now rewrite lookup_app_l in H.
        - rewrite lookup_ge_None_2 in H; [done|]. rewrite length_app. simpl. lia. }
      destruct (Hh _ _ Hj) as (st & w & H1 & H2 & H3 & H4).
      exists st, w. repeat split; try tauto.
      * intros Hl. apply H4. rewrite lookup_insert in Hl.
        destruct (decide (q = Query job)); [congruence|done].
      * intros Hm. apply H4 in Hm. rewrite lookup_insert_ne; [done|].
        intros ->. rewrite Hen in Hm. congruence.
  - (* enqueue *)
    destruct (Hh _ _ H) as (st & w & H1 & H2 & H3 & H4).
    destruct (decide (j0 = j)) as [->|Hne]; [|eauto 10].
    destruct Hok as (Hp & _). rewrite Hp in H1. injection H1 as <- <-.
    exists Enqueued, t. done.
  - (* dequeue *)
    destruct (Hh _ _ H) as (st & w & H1 & H2 & H3 & H4).
    destruct (decide (j0 = j)) as [->|Hne]; [|eauto 10].
    destruct Hok as (w' & Hp). rewrite Hp in H1. injection H1 as <- <-.
    exists Dequeued, t. done.
  - (* result *)
    destruct Hs as [jb Hjb]. rewrite Hjb in H |- *. simpl in H |- *.
    destruct (decide (j0 = j)) as [->|Hne].
    + rewrite list_lookup_insert_eq in H by (eapply lookup_lt_Some; eauto).
      injection H as <-.
      destruct (Hh _ _ Hjb) as (st & w & H1 & H2 & H3 & H4).
      rewrite Hok in H1. injection H1 as <- <-.
      exists Written, t. simpl in *.
      split; [done|]. split; [exact H2|]. split; [done|].
      split; [done|]. intros _. now apply H4.
    + rewrite list_lookup_insert_ne in H by done. exact (Hh _ _ H).
  - (* delete *)
    destruct Hok as (He & _ & Hp).
    destruct (Hh _ _ H) as (st & w & H1 & H2 & H3 & H4).
    destruct (decide (j0 = j)) as [->|Hne].
    + rewrite Hp in H1. injection H1 as <- <-.
      unfold query_of in Hs. rewrite H in Hs. injection Hs as <-.
      exists Deleted, t. rewrite lookup_delete_eq. simpl in *.
      repeat split; try done. intros E. apply H3 in E. done.
    + exists st, w. repeat split; try tauto.
      * intros Hl. apply H4. rewrite lookup_delete in Hl.
        destruct (decide (q = Query job)); [done|done].
      * intros Hm. apply H4 in Hm. rewrite lookup_delete_ne; [done|].
        intros ->. rewrite Hen in Hm. congruence.
  - (* done *)
    destruct Hs as [jb Hjb]. rewrite Hjb in H |- *. simpl in H |- *.
    destruct (decide (j0 = j)) as [->|Hne].
    + rewrite list_lookup_insert_eq in H by (eapply lookup_lt_Some; eauto).
      injection H as <-.
      destruct (Hh _ _ Hjb) as (st & w & H1 & H2 & H3 & H4).
      destruct Hok as (Hp & _). rewrite Hp in H1. injection H1 as <- <-.
      exists Finished, t. simpl in *. rewrite H2.
      split; [done|]. split; [done|]. split; [exact H3|]. exact H4.
    + rewrite list_lookup_insert_ne in H by done. exact (Hh _ _ H).
Qed.


Lemma eff_entryq tr s ev q j :
  Inv tr s -> ev_state s ev ->
  jobs (effect ev s) !! q = Some j -> query_of (effect ev s) j = Some q.
Proof.
  intros I Hs H.
  assert (Hold : jobs s !! q = Some j -> query_of (effect ev s) j = Some q).
  { intros Hq. apply eff_query. now apply (inv_entryq _ _ I). }
  destruct ev; simpl in H; try (apply Hold; exact H);
    try (apply Hold; destruct (heap s !! job); exact H).
  - simpl in Hs. subst job. rewrite lookup_insert in H.
    destruct (decide (query = q)) as [->|Hne]; [|apply Hold; exact H].
    injection H as <-. unfold query_of. simpl.
    rewrite lookup_app_r by lia. now rewrite Nat.sub_diag.
  - rewrite lookup_delete in H.
    destruct (decide (query = q)); [done|]. apply Hold; exact H.
Qed.

Lemma phase_enqueued_frame tr ev j w :
  ev_ok tr ev -> phase tr j = Some (Enqueued, w) ->
  (forall t, ev <> EvDequeue t j) ->
  phase (ev :: tr) j = Some (Enqueued, w).
Proof.
  intros Hok Hp Hne. simpl.
  destruct (stage_of ev) as [[j' st']|] eqn:E; [|exact Hp].
  destruct (decide (j' = j)) as [->|]; [|exact Hp].
  exfalso. destruct ev; simpl in *; simplify_eq; destruct_and?;
    try congruence.
  eapply Hne; eauto.
Qed.

Lemma eff_queue tr s ev :
  Inv tr s -> ev_ok tr ev -> ev_state s ev ->
  NoDup (queue (effect ev s)) /\
  forall j, j ∈ queue (effect ev s) ->
            exists w, phase (ev :: tr) j = Some (Enqueued, w).
Proof.
  intros I Hok Hs. destruct (inv_queue _ _ I) as [Hnd Hq].
  assert (Hsame : (forall t j, ev <> EvDequeue t j) ->
                  forall j, j ∈ queue s ->
                            exists w, phase (ev :: tr) j = Some (Enqueued, w)).
  { intros Hne j Hj. destruct (Hq j Hj) as [w Hw]. exists w.
    apply phase_enqueued_frame; auto. }
  destruct ev as [| | | | | | |t j0| | | | | | | |t j0| | | |];
    simpl in Hok, Hs |- *;
    try (split; [exact Hnd | apply Hsame; intros; discriminate]);
    try (destruct (heap s !! job);
         (split; [exact Hnd | apply Hsame; intros; discriminate])).
  - (* enqueue *)
    destruct Hok as (Hp & _). unfold WorkerPool_Add. split.
    + apply NoDup_app. split; [exact Hnd|]. split; [|apply NoDup_singleton].
      intros x Hx Hx'. apply list_elem_of_singleton in Hx'. subst x.
      destruct (Hq _ Hx) as [w Hw]. congruence.
    + intros j Hj. apply elem_of_app in Hj. destruct Hj as [Hj|Hj].
      * destruct (Hq _ Hj) as [w Hw]. simpl. case_decide; eauto.
      * apply list_elem_of_singleton in Hj. subst j. exists t. simpl.
        case_decide; done.
  - (* dequeue *)
    destruct Hs as [l Hl]. rewrite Hl in Hnd, Hq |- *. simpl.
    apply NoDup_cons in Hnd. destruct Hnd as [Hin Hnd]. split; [exact Hnd|].
    intros j Hj. destruct (Hq j) as [w Hw]; [now right|].
    exists w. simpl. case_decide; [subst; done|done].
Qed.


(** *** Program points of the goroutines that do not move *)

Lemma map_query_frame {A} s ev g (f : A -> DnsQuery) (l : list A) :
  map (query_of s) g = map (fun x => Some (f x)) l ->
  map (query_of (effect ev s)) g = map (fun x => Some (f x)) l.
Proof.
  revert l; induction g as [|j g IH]; intros [|x l] H; simpl in *; try done.
  injection H as Hj Hg. f_equal; [|now apply IH]. now apply eff_query.
Qed.

Lemma group_ok_frame s ev d tys rest g :
  group_ok s d tys rest g -> group_ok (effect ev s) d tys rest g.
Proof.
  intros (dn & -> & H). exists dn. split; [done|]. now apply map_query_frame.
Qed.

Lemma cont_ok_frame s ev q k :
  cont_ok s q k -> cont_ok (effect ev s) q k.
Proof.
  destruct k as [|d tys rest g]; simpl; [done|].
  intros (ty & -> & H). exists ty. split; [done|]. now apply group_ok_frame.
Qed.

Lemma results_frame tr s ev dn :
  ev_ok tr ev -> Forall (finished tr) dn ->
  concat (map (results_of (effect ev s)) dn) = concat (map (results_of s) dn).
Proof.
  intros Hok H. induction H as [|j dn Hj _ IH]; simpl; [done|].
  rewrite IH. f_equal. eapply eff_results; eauto.
Qed.

Lemma jobs_frame tr s ev t' q :
  Inv tr s -> ev_ok tr ev -> thread_of ev <> t' -> mutex s = Some t' ->
  jobs (effect ev s) !! q = jobs s !! q.
Proof.
  intros I Hok Hne Hm. rewrite (inv_mutex _ _ I) in Hm.
  destruct ev; simpl in *; try done; try (destruct (heap s !! job); done);
    destruct_and?; congruence.
Qed.

Lemma pc_ok_frame tr s ev t' p :
  Inv tr s -> ev_ok tr ev -> ev_state s ev -> thread_of ev <> t' ->
  (crit p = true -> mutex s = Some t') ->
  pc_ok tr s t' p -> pc_ok (ev :: tr) (effect ev s) t' p.
Proof.
  intros I Hok Hs Hne Hcrit H.
  assert (Hph : forall j st, phase tr j = Some (st, t') -> st <> Enqueued ->
                             phase (ev :: tr) j = Some (st, t')).
  { intros j st Hp Hst. apply phase_frame; auto. }
  assert (Hni : forall j q, query_of s j = Some q ->
                            phase tr j <> Some (Inserted, t') ->
                            phase (ev :: tr) j <> Some (Inserted, t')).
  { intros j q Hq Hp. apply phase_not_inserted; auto.
    eapply query_of_fresh; eauto. }
  destruct p; simpl in H |- *; try done;
    repeat match goal with
           | H : _ /\ _ |- _ => destruct H
           | H : exists _, _ |- _ => destruct H
           end;
    repeat match goal with
           | |- _ /\ _ => split
           end;
    eauto using cont_ok_frame, group_ok_frame, eff_query, finished_cons,
                Forall_finished_cons, recent_frame, call_done_frame.
  - erewrite jobs_frame; eauto.
  - destruct existed; destruct_and?; split; eauto using recent_frame.
  - eexists. split; [done|]. split; [eauto using Forall_finished_cons|].
    erewrite results_frame; eauto.
  - eexists. split; [done|]. split; [eauto using Forall_finished_cons|].
    split; [eauto using finished_cons|].
    erewrite results_frame; eauto.
Qed.


(** *** The program point of the goroutine that moves *)

Lemma group_ok_snoc s d tys ty rest g j :
  group_ok s d tys (ty :: rest) g -> query_of s j = Some (mkq d ty) ->
  group_ok s d tys rest (g ++ [j]).
Proof.
  intros (dn & -> & H) Hj. exists (dn ++ [ty]). split.
  - now rewrite <- app_assoc.
  - rewrite !map_app, H. simpl. now rewrite Hj.
Qed.

Lemma step_pc tr s t th ev s' :
  Inv tr s ->
  threads s !! t = Some th ->
  step_at cfg s t th = Some (ev, s') ->
  exists th', threads s' = <[t := th']> (threads s) /\
              pc_ok (ev :: tr) s' t (at_pc th').
Proof.
  intros I Hth H.
  destruct (step_ev _ _ _ _ _ _ I Hth H) as [Hok Hs].
  pose proof (inv_pc _ _ I _ _ Hth) as Hpc.
  step_cases H; (eexists; split; [reflexivity|]);
    simpl in Hpc, Hok, Hs; cbn [at_pc goto]; try done;
    try solve [ simpl; destruct_and?; repeat split;
                eauto using recent_push, recent_nil ].
  - exists []. done.
  - exists []. done.
  - exists []. done.
  - (* found *)
    simpl. destruct Hpc as [Hk Hr].
    split; [apply (inv_entryq _ _ I); done|]. split; [|done].
    split; [|eauto using recent_push].
    intros Hp. destruct (inv_inserted _ _ I _ _ Hp) as (th0 & q0 & k0 & Hth0 & Hpc0).
    rewrite Hth in Hth0. injection Hth0 as <-. destruct Hpc0; congruence.
  - (* insert *)
    simpl. destruct Hpc as (_ & Hk & Hr). split; [|split].
    + unfold query_of. simpl. rewrite lookup_app_r by lia.
      now rewrite Nat.sub_diag.
    + split; [case_decide; done|]. eauto using recent_push.
    + now apply (cont_ok_frame s (EvInsert t query (length (heap s)))).
  - (* unlock *)
    destruct Hpc as (Hq & Hp & Hk).
    destruct existed; simpl; destruct Hp as [Hp Hr];
      (split; [done|]); (split; [done|]); (split; [|done]).
    + left. eauto using recent_push.
    + eauto using recent_push.
  - (* enqueue *)
    simpl. destruct Hpc as (Hq & _ & Hr & Hk). split; [done|].
    split; [case_decide; done|]. split; [|done].
    right. eauto using recent_push.
  - (* return into the loop *)
    destruct Hpc as (Hq & _ & _ & ty & -> & Hg). simpl.
    eapply group_ok_snoc; eauto.
  - (* group wait: next job *)
    destruct Hpc as (dn & -> & Hf). simpl. exists (dn ++ [n]). split.
    + now rewrite <- app_assoc.
    + apply Forall_app. split; [now apply Forall_finished_cons|].
      apply Forall_singleton. now apply finished_cons.
  - (* group results: wait for next job *)
    destruct Hpc as (dn & -> & Hf & ->). simpl. exists dn.
    split; [done|]. split; [now apply Forall_finished_cons|].
    split; [now apply finished_cons|done].
  - (* group results: read *)
    destruct Hpc as (dn & -> & Hf & Hj & ->). simpl. exists (dn ++ [job]).
    split; [now rewrite <- app_assoc|].
    split.
    + apply Forall_app. split; [now apply Forall_finished_cons|].
      apply Forall_singleton. now apply finished_cons.
    + rewrite map_app, concat_app. simpl. rewrite app_nil_r. f_equal.
      unfold results_of. simpl.
      match goal with E : heap s !! job = Some _ |- _ => rewrite E end.
      match goal with E : Result _ = Some _ |- _ => rewrite E end. done.
  - (* dequeue *)
    simpl. split; [case_decide; done|]. eauto using recent_push, recent_nil.
  - (* result *)
    simpl. destruct Hpc as [_ Hr]. split; [case_decide; done|].
    eauto using recent_push.
  - (* lock *)
    simpl. destruct Hpc as [Hp [r Hr]]. split; [done|].
    eauto using recent_push.
  - (* delete *)
    simpl. destruct Hpc as [Hp [r Hr]]. split; [case_decide; done|].
    eauto using recent_push.
  - (* unlock *)
    simpl. destruct Hpc as [Hp (q & r & Hr)]. split; [done|].
    eauto using recent_push.
Qed.

Lemma phase_heap tr s j p :
  Inv tr s -> phase tr j = Some p -> is_Some (heap s !! j).
Proof.
  intros I Hp. apply lookup_lt_is_Some.
  destruct (decide (j < length (heap s))%nat); [done|].
  assert (phase tr j = None) by (apply (inv_fresh _ _ I); lia). congruence.
Qed.

Lemma step_crit tr s t th ev s' :
  Inv tr s ->
  threads s !! t = Some th ->
  step_at cfg s t th = Some (ev, s') ->
  exists th', threads s' = <[t := th']> (threads s) /\
              (crit (at_pc th') = true <-> holder (ev :: tr) = Some t).
Proof.
  intros I Hth H.
  pose proof (inv_pc _ _ I _ _ Hth) as Hpc.
  assert (Hcm : crit (at_pc th) = true <-> mutex s = Some t).
  { split; [apply (inv_crit _ _ I _ _ Hth)|].
    intros Hm. destruct (inv_held _ _ I _ Hm) as (th0 & Hth0 & Hc). congruence. }
  pose proof (inv_mutex _ _ I) as Hmx.
  step_cases H; (eexists; split; [reflexivity|]);
    simpl in Hpc, Hcm |- *; rewrite <- ?Hmx; try done;
    try (destruct existed; done);
    try solve [intuition congruence].
  destruct Hpc as [Hp _]. destruct (phase_heap _ _ _ _ I Hp) as [jb Hjb].
  congruence.
Qed.

Lemma step_inserted tr s t th ev s' :
  Inv tr s ->
  threads s !! t = Some th ->
  step_at cfg s t th = Some (ev, s') ->
  exists th', threads s' = <[t := th']> (threads s) /\
    forall j, phase (ev :: tr) j = Some (Inserted, t) ->
              exists q k, at_pc th' = c_Unlock q j false k \/ at_pc th' = c_Add q j k.
Proof.
  intros I Hth H.
  assert (Hold : forall j, phase tr j = Some (Inserted, t) ->
                 exists q k, at_pc th = c_Unlock q j false k \/ at_pc th = c_Add q j k).
  { intros j Hp. destruct (inv_inserted _ _ I _ _ Hp) as (th0 & q & k & Hth0 & Hpc0).
    rewrite Hth in Hth0. injection Hth0 as <-. eauto. }
  step_cases H; (eexists; split; [reflexivity|]);
    intros j0 Hp; simpl in Hp; try case_decide; simplify_eq;
    try (destruct (Hold _ Hp) as (q0 & k0 & [E|E]); simplify_eq); eauto.
  exfalso. pose proof (inv_crit _ _ I _ _ Hth) as Hc. rewrite Heqp in Hc.
  specialize (Hc eq_refl). congruence.
Qed.

Lemma step_group tr s t th ev s' :
  Inv tr s ->
  threads s !! t = Some th ->
  step_at cfg s t th = Some (ev, s') ->
  match ev with
  | EvGroup _ d tys g => map (query_of s) g = map (fun ty => Some (mkq d ty)) tys
  | EvGroupResults _ g r => r = concat (map (results_of s) g)
  | _ => True
  end.
Proof.
  intros I Hth H.
  pose proof (inv_pc _ _ I _ _ Hth) as Hpc.
  step_cases H; simpl in Hpc; try done.
  - destruct Hpc as (dn & -> & Hm). now rewrite app_nil_r.
  - destruct Hpc as (dn & -> & _ & ->). now rewrite app_nil_r.
Qed.


(** *** The invariant is kept *)

Lemma eff_threads s ev : threads (effect ev s) = threads s.
Proof. destruct ev; simpl; try done; destruct (heap s !! job); done. Qed.

Lemma mutex_frame tr s ev t0 :
  Inv tr s -> ev_ok tr ev -> thread_of ev <> t0 -> mutex s = Some t0 ->
  mutex (effect ev s) = Some t0.
Proof.
  intros I Hok Hne Hm. pose proof (inv_mutex _ _ I) as Hmx.
  destruct ev; simpl in *; try done; try (destruct (heap s !! job); done);
    congruence.
Qed.

Lemma holder_frame tr ev t0 :
  holder (ev :: tr) = Some t0 -> thread_of ev <> t0 -> holder tr = Some t0.
Proof. destruct ev; simpl; congruence. Qed.

Lemma phase_owner_frame tr ev j st w :
  phase (ev :: tr) j = Some (st, w) -> w <> thread_of ev ->
  phase tr j = Some (st, w).
Proof.
  simpl. destruct (stage_of ev) as [[j' st']|]; [|done].
  case_decide; [|done]. congruence.
Qed.

Lemma coherent_group_results tr t g r :
  coherent tr -> EvGroupResults t g r ∈ tr -> Forall (finished tr) g.
Proof.
  induction tr as [|ev tr IH]; intros Hc Hin; [by apply elem_of_nil in Hin|].
  destruct Hc as [Hok Hc]. apply Forall_finished_cons; [done|].
  apply elem_of_cons in Hin. destruct Hin as [<-|Hin]; [exact Hok|auto].
Qed.


Lemma pc_ok_with_thread tr s t th t0 p :
  pc_ok tr (with_thread s t th) t0 p = pc_ok tr s t0 p.
Proof. reflexivity. Qed.

Lemma Inv_step tr s t ev s' :
  Inv tr s -> step cfg s t = Some (ev, s') -> Inv (ev :: tr) s'.
Proof.
  intros I Hstep.
  destruct (step_inv _ _ _ _ Hstep) as (Hnp & th & Hth & H).
  destruct (step_at_shape _ _ _ _ _ Hth H) as (Hev & th' & ->).
  destruct (step_ev _ _ _ _ _ _ I Hth H) as [Hok Hs].
  assert (Hlt : (t < length (threads s))%nat) by (eapply lookup_lt_Some; eauto).
  assert (Hthr : threads (with_thread (effect ev s) t th') = <[t := th']> (threads s)).
  { simpl. now rewrite eff_threads. }
  assert (Hsame : forall th1, threads (with_thread (effect ev s) t th')
                              = <[t := th1]> (threads s) -> th1 = th').
  { intros th1 E. rewrite Hthr in E.
    assert (E' : <[t := th']> (threads s) !! t = <[t := th1]> (threads s) !! t)
      by (now rewrite E).
    rewrite !list_lookup_insert_eq in E' by done. congruence. }
  assert (Hme : forall th0, threads (with_thread (effect ev s) t th') !! t = Some th0 ->
                            th0 = th').
  { intros th0 E. rewrite Hthr, list_lookup_insert_eq in E by done. congruence. }
  assert (Hother : forall t0 th0, t0 <> t ->
            threads (with_thread (effect ev s) t th') !! t0 = Some th0 ->
            threads s !! t0 = Some th0).
  { intros t0 th0 Hne E. rewrite Hthr, list_lookup_insert_ne in E by done. done. }
  destruct (step_pc _ _ _ _ _ _ I Hth H) as (th1 & E1 & Hpc1).
  apply Hsame in E1. subst th1.
  destruct (step_crit _ _ _ _ _ _ I Hth H) as (th1 & E1 & Hcrit1).
  apply Hsame in E1. subst th1.
  destruct (step_inserted _ _ _ _ _ _ I Hth H) as (th1 & E1 & Hins1).
  apply Hsame in E1. subst th1.
  pose proof (step_group _ _ _ _ _ _ I Hth H) as Hgrp.
  assert (Hmx' : mutex (with_thread (effect ev s) t th') = holder (ev :: tr))
    by (apply (eff_mutex tr s ev I)).
  split.
  - split; [done|apply (inv_coh _ _ I)].
  - exact Hmx'.
  - intros t0 th0 Hl Hc. destruct (decide (t0 = t)) as [->|Hne].
    + apply Hme in Hl. subst th0. rewrite Hmx'. now apply Hcrit1.
    + apply Hother in Hl; [|done].
      apply (mutex_frame tr); auto; [congruence|].
      eapply inv_crit; eauto.
  - intros t0 Hm. rewrite Hmx' in Hm. destruct (decide (t0 = t)) as [->|Hne].
    + exists th'. split; [|now apply Hcrit1].
      rewrite Hthr. now apply list_lookup_insert_eq.
    + apply holder_frame in Hm; [|congruence].
      rewrite <- (inv_mutex _ _ I) in Hm.
      destruct (inv_held _ _ I _ Hm) as (th0 & Hl & Hc).
      exists th0. split; [|done]. rewrite Hthr. now rewrite list_lookup_insert_ne.
  - intros q. apply (eff_entry tr s ev q I).
  - intros j. apply (eff_fresh tr s ev j I Hok Hs).
  - intros j job Hj. apply (eff_heap tr s ev j job I Hok Hs Hj).
  - intros q j Hj. apply (eff_entryq tr s ev q j I Hs Hj).
  - apply (eff_queue tr s ev I Hok Hs).
  - intros t0 th0 Hl. destruct (decide (t0 = t)) as [->|Hne].
    + apply Hme in Hl. subst th0. exact Hpc1.
    + apply Hother in Hl; [|done]. rewrite pc_ok_with_thread.
      apply pc_ok_frame; auto; [congruence| |].
      * intros Hc. eapply inv_crit; eauto.
      * eapply inv_pc; eauto.
  - intros j t0 Hp. destruct (decide (t0 = t)) as [->|Hne].
    + destruct (Hins1 j Hp) as (q & k & Hk). exists th', q, k. split; [|done].
      rewrite Hthr. now apply list_lookup_insert_eq.
    + apply phase_owner_frame in Hp; [|congruence].
      destruct (inv_inserted _ _ I _ _ Hp) as (th0 & q & k & Hl & Hk).
      exists th0, q, k. split; [|done]. rewrite Hthr.
      now rewrite list_lookup_insert_ne.
  - intros t0 d tys g Hin. apply elem_of_cons in Hin.
    change (map (query_of (effect ev s)) g = map (fun ty => Some (mkq d ty)) tys).
    apply map_query_frame. destruct Hin as [<-|Hin]; [exact Hgrp|].
    eapply inv_group; eauto.
  - intros t0 g r Hin. apply elem_of_cons in Hin.
    change (r = concat (map (results_of (effect ev s)) g)).
    destruct Hin as [<-|Hin].
    + simpl in Hgrp, Hok. rewrite (results_frame tr); done.
    + rewrite (results_frame tr); [eapply inv_results; eauto|done|].
      eapply coherent_group_results; [apply (inv_coh _ _ I)|eauto].
Qed.

Lemma Inv_init programs n : Inv [] (init programs n).
Proof.
  split; simpl; try done.
  - intros t th Hl Hc. apply list_elem_of_lookup_2 in Hl.
    apply elem_of_app in Hl. destruct Hl as [Hl|Hl].
    + apply list_elem_of_fmap in Hl. destruct Hl as (p & -> & _). done.
    + apply elem_of_replicate in Hl. destruct Hl as [-> _]. done.
  - intros j. split; [intros _; lia|done].
  - split; [apply NoDup_nil_2|]. intros j Hj. by apply elem_of_nil in Hj.
  - intros t th Hl. apply list_elem_of_lookup_2 in Hl.
    apply elem_of_app in Hl. destruct Hl as [Hl|Hl].
    + apply list_elem_of_fmap in Hl. destruct Hl as (p & -> & _). done.
    + apply elem_of_replicate in Hl. destruct Hl as [-> _]. done.
  - intros t d tys g Hin. by apply elem_of_nil in Hin.
  - intros t g r Hin. by apply elem_of_nil in Hin.
Qed.

Lemma reachable_Inv programs n tr s :
  reachable cfg programs n tr s -> Inv tr s.
Proof.
  induction 1 as [|tr s t ev s' _ IH Hstep]; [apply Inv_init|].
  eapply Inv_step; eauto.
Qed.

End ProcFacts.

(** *** What coherent traces tell *)

Section TraceFacts.

Import Dns Proc Trace.
Local Open Scope list_scope.

Lemma coherent_app l tr : coherent (l ++ tr) -> coherent tr.
Proof. induction l as [|ev l IH]; simpl; [done|]. intros [_ H]. auto. Qed.

Lemma coherent_at l ev tr : coherent (l ++ ev :: tr) -> ev_ok tr ev.
Proof. intros H. apply coherent_app in H. now destruct H. Qed.

Lemma handle_entry tr ev q j :
  ev_ok tr ev -> handle_of q ev = Some j -> entry (ev :: tr) q = Some j.
Proof.
  destruct ev; simpl; try done; intros Hok H; case_decide; simplify_eq; try done.
  now destruct Hok.
Qed.

Lemma entry_kept l tr q j :
  coherent (l ++ tr) -> entry tr q = Some j ->
  count (is_delete q) l = 0%nat ->
  entry (l ++ tr) q = Some j.
Proof.
  induction l as [|ev l IH]; simpl; [done|].
  intros [Hok Hc] He Hd.
  assert (Hd' : is_delete q ev = false /\ count (is_delete q) l = 0%nat).
  { unfold count in *. simpl in Hd. destruct (is_delete q ev); simpl in Hd; [lia|done]. }
  destruct Hd' as [Hev Hd'].
  specialize (IH Hc He Hd').
  destruct ev; simpl in *; try done; case_decide; simplify_eq; try done.
  destruct Hok as [Hn _]. congruence.
Qed.

(** Two lookups of a query with no removal in between end with the same
    handle. *)
Lemma same_handle later ev2 between ev1 earlier q j1 j2 :
  coherent (later ++ ev2 :: between ++ ev1 :: earlier) ->
  handle_of q ev1 = Some j1 -> handle_of q ev2 = Some j2 ->
  count (is_delete q) between = 0%nat ->
  j1 = j2.
Proof.
  intros Hc H1 H2 Hd.
  apply coherent_app in Hc. destruct Hc as [Hok2 Hc].
  pose proof (coherent_at _ _ _ Hc) as Hok1.
  pose proof (handle_entry _ _ _ _ Hok1 H1) as He.
  pose proof (entry_kept _ _ _ _ Hc He Hd) as He'.
  destruct ev2; simpl in H2, Hok2; try done; case_decide; simplify_eq.
  - destruct Hok2 as [E _]. congruence.
  - destruct Hok2 as [E _]. congruence.
Qed.

Lemma count_cons f ev tr :
  count f (ev :: tr) = ((if f ev then 1 else 0) + count f tr)%nat.
Proof. unfold count. simpl. destruct (f ev); done. Qed.

(** Insertions and removals of a query alternate. *)
Lemma inserts_deletes tr q :
  coherent tr ->
  count (is_insert q) tr
  = (count (is_delete q) tr + match entry tr q with Some _ => 1 | None => 0 end)%nat.
Proof.
  induction tr as [|ev tr IH]; [done|]. intros [Hok Hc].
  specialize (IH Hc). rewrite !count_cons.
  destruct ev; simpl in *; try lia; case_bool_decide; case_decide;
    simplify_eq; try lia.
  - destruct Hok as [E _]. rewrite E in IH. lia.
  - destruct Hok as [E _]. rewrite E in IH. lia.
Qed.

(** A job is handed to the pool when it leaves the stage [Inserted]. *)
Lemma enqueues_phase tr j :
  coherent tr ->
  count (is_enqueue j) tr =
  match phase tr j with
  | None | Some (Inserted, _) => 0%nat
  | _ => 1%nat
  end.
Proof.
  induction tr as [|ev tr IH]; [done|]. intros [Hok Hc].
  specialize (IH Hc). rewrite count_cons.
  destruct ev; simpl in *; try done;
    try case_bool_decide; case_decide; simplify_eq; try done;
    destruct_and?;
    repeat match goal with H : exists _, _ |- _ => destruct H end;
    repeat match goal with H : phase tr _ = _ |- _ => rewrite H in IH end;
    try lia.
Qed.

Lemma insert_phase tr t q j : EvInsert t q j ∈ tr -> phase tr j <> None.
Proof.
  induction tr as [|ev tr IH]; intros Hin; [by apply elem_of_nil in Hin|].
  apply elem_of_cons in Hin. simpl. destruct Hin as [<-|Hin].
  - simpl. case_decide; done.
  - destruct (stage_of ev) as [[j' st]|]; [|auto]. case_decide; [done|auto].
Qed.

(** The goroutine that inserted a job is the only one to have done so. *)
Lemma inserter_unique tr j w t q :
  coherent tr -> phase tr j = Some (Inserted, w) -> EvInsert t q j ∈ tr -> t = w.
Proof.
  induction tr as [|ev tr IH]; intros Hc Hp Hin; [by apply elem_of_nil in Hin|].
  destruct Hc as [Hok Hc]. apply elem_of_cons in Hin. simpl in Hp.
  destruct (stage_of ev) as [[j' st]|] eqn:E.
  - case_decide.
    + injection Hp as -> <-. subst j'.
      destruct ev; simpl in E; simplify_eq. simpl in Hok.
      destruct Hin as [Hin|Hin]; [by simplify_eq|].
      apply insert_phase in Hin. destruct Hok as (_ & Hn & _). done.
    + destruct Hin as [<-|Hin]; [simpl in E; congruence|]. auto.
  - destruct Hin as [<-|Hin]; [done|]. auto.
Qed.

(** Once the creating call has returned, the job has left [Inserted]. *)
Lemma returned_past_inserted tr t q q' j :
  coherent tr -> EvReturn t q j ∈ tr -> EvInsert t q' j ∈ tr ->
  exists st w, phase tr j = Some (st, w) /\ st <> Inserted.
Proof.
  induction tr as [|ev tr IH]; intros Hc Hr Hi; [by apply elem_of_nil in Hr|].
  destruct Hc as [Hok Hc].
  apply elem_of_cons in Hr. apply elem_of_cons in Hi.
  destruct Hr as [<-|Hr].
  - destruct Hi as [|Hi]; [done|]. simpl in Hok |- *.
    destruct Hok as [([st w] & Hp & Hne) _]. exists st, w. split; [done|].
    intros ->. assert (t = w) by (eapply inserter_unique; eauto). congruence.
  - destruct Hi as [<-|Hi].
    + simpl in Hok. destruct Hok as (_ & Hn & _).
      clear IH. exfalso. revert Hn.
      induction tr as [|ev' tr IH']; [by apply elem_of_nil in Hr|].
      destruct Hc as [Hok' Hc']. apply elem_of_cons in Hr. simpl.
      destruct Hr as [<-|Hr].
      * simpl in Hok' |- *. destruct Hok' as [(p & Hp & _) _]. congruence.
      * destruct (stage_of ev') as [[j' st]|]; [|auto]. case_decide; [done|auto].
    + destruct (IH Hc Hr Hi) as (st & w & Hp & Hne). simpl.
      destruct (stage_of ev) as [[j' st']|] eqn:E; [|eauto].
      case_decide; [|eauto]. subst j'. exists st', (thread_of ev).
      split; [done|]. intros ->.
      destruct ev; simpl in E; simplify_eq. simpl in Hok.
      destruct Hok as (_ & Hn & _). congruence.
Qed.


(** *** From schedules to the invariant *)

Lemma run_from_reachable cfg programs n sched tr s :
  reachable cfg programs n tr s ->
  reachable cfg programs n (run_from cfg sched tr s).1 (run_from cfg sched tr s).2.
Proof.
  revert tr s; induction sched as [|t sched IH]; intros tr s Hr; simpl; [done|].
  destruct (step cfg s t) as [[ev s']|] eqn:E; [|auto].
  apply IH. econstructor; eauto.
Qed.

Lemma run_Inv cfg programs n sched tr s :
  run cfg programs n sched = (tr, s) -> Inv tr s.
Proof.
  intros H. apply (reachable_Inv cfg programs n).
  pose proof (run_from_reachable cfg programs n sched [] (init programs n)
                (reachable_init _ _ _)) as Hr.
  unfold run in H. now rewrite H in Hr.
Qed.





Lemma finished_result tr s j :
  Inv tr s -> finished tr j ->
  exists job r, heap s !! j = Some job /\ Result job = Some r.
Proof.
  intros I [w Hp]. destruct (phase_heap _ _ _ _ I Hp) as [job Hj].
  destruct (inv_heap _ _ I _ _ Hj) as (st & w' & Hp' & _ & Hr & _).
  rewrite Hp in Hp'. injection Hp' as <- <-.
  destruct (Result job) as [r|] eqn:E; [eauto|].
  destruct Hr as [Hr _]. specialize (Hr eq_refl). done.
Qed.

End TraceFacts.

(** C2. Lookups of one query that are not separated by a removal of
    that query end with the same handle, and every return of [NewJob] is
    the end of a pass of lock, lookup, unlock that yields the handle
    returned; insertions and removals of a query alternate, so that the
    map holds at most one entry for it, keyed by the query of its job; a job
    is handed to the worker pool at most once, exactly once as soon as the
    call that created it has returned, and only by that call, after it has
    released the lock; that call can always hand it over. *)
Theorem NewJob_coalesces_queries_in_flight
    (cfg : Proc.config) (programs : list (list Proc.op)) (workersCount : nat)
    (sched : list nat) (tr : list Proc.event) (s : Proc.state) :
  Proc.run cfg programs workersCount sched = (tr, s) ->
  (forall later ev2 between ev1 earlier q j1 j2,
      tr = (later ++ ev2 :: between ++ ev1 :: earlier)%list ->
      Trace.handle_of q ev1 = Some j1 -> Trace.handle_of q ev2 = Some j2 ->
      Trace.count (Trace.is_delete q) between = 0%nat ->
      j1 = j2) /\
  (forall later earlier t q j,
      tr = (later ++ Proc.EvReturn t q j :: earlier)%list ->
      Trace.call_done earlier t q j) /\
  (forall q,
      Trace.count (Trace.is_insert q) tr
      = (Trace.count (Trace.is_delete q) tr
         + match Proc.jobs s !! q with Some _ => 1 | None => 0 end)%nat) /\
  (forall q j, Proc.jobs s !! q = Some j -> Trace.query_of s j = Some q) /\
  (forall j, (Trace.count (Trace.is_enqueue j) tr <= 1)%nat) /\
  (forall t q j,
      Proc.EvInsert t q j ∈ tr -> Proc.EvReturn t q j ∈ tr ->
      Trace.count (Trace.is_enqueue j) tr = 1%nat) /\
  (forall later earlier t j,
      tr = (later ++ Proc.EvEnqueue t j :: earlier)%list ->
      Trace.holder earlier <> Some t /\
      exists q, Trace.recent earlier t
                  [Proc.EvUnlock t; Proc.EvInsert t q j;
                   Proc.EvMissing t q; Proc.EvLock t]) /\
  (forall t th q j k,
      Proc.threads s !! t = Some th -> Proc.at_pc th = Proc.c_Add q j k ->
      Proc.panicked s = false ->
      exists s', Proc.step cfg s t = Some (Proc.EvEnqueue t j, s')).
Proof.
  intros Hrun. pose proof (run_Inv _ _ _ _ _ _ Hrun) as I.
  pose proof (Trace.inv_coh _ _ I) as Hc.
  split; [|split; [|split; [|split; [|split; [|split; [|split]]]]]];
    [| | | | | | |
     intros t th q j k Hth Hpc Hnp; unfold Proc.step, Proc.step_at;
     rewrite Hnp, Hth, Hpc; eauto];
    repeat split.
  - intros later ev2 between ev1 earlier q j1 j2 -> H1 H2 Hd.
    eapply same_handle; eauto.
  - intros later earlier t q j ->. apply coherent_at in Hc. apply Hc.
  - intros q. rewrite (Trace.inv_entry _ _ I). now apply inserts_deletes.
  - apply (Trace.inv_entryq _ _ I).
  - intros j. rewrite (enqueues_phase _ _ Hc).
    destruct (Trace.phase tr j) as [[[] w]|]; lia.
  - intros t q j Hi Hr. rewrite (enqueues_phase _ _ Hc).
    destruct (returned_past_inserted _ _ _ _ _ Hc Hr Hi) as (st & w & -> & Hne).
    destruct st; done.
  - subst tr. apply coherent_at in Hc. apply Hc.
  - subst tr. apply coherent_at in Hc. apply Hc.
Qed.



Lemma NewJob_coalesces_queries_in_flight_witness :
  let tr := (Proc.run Sample.proc_cfg Sample.programs 2 Sample.sched).1 in
  Trace.count (Trace.is_enqueue 0) tr = 1%nat /\
  Trace.count (Trace.is_insert Sample.mx_A) tr
  = Trace.count (Trace.is_delete Sample.mx_A) tr /\
  Trace.call_done (drop 31 tr) 1 Sample.mx_A 0.
Proof.
  intros tr.
  destruct (NewJob_coalesces_queries_in_flight
              Sample.proc_cfg Sample.programs 2 Sample.sched tr
              (Proc.run Sample.proc_cfg Sample.programs 2 Sample.sched).2)
    as (_ & H2 & H3 & _ & _ & H6 & _ & _).
  { vm_compute. reflexivity. }
  split; [|split].
  - apply (H6 0%nat Sample.mx_A 0%nat).
    + apply (list_elem_of_lookup_2 _ 41). vm_compute. reflexivity.
    + apply (list_elem_of_lookup_2 _ 38). vm_compute. reflexivity.
  - rewrite (H3 Sample.mx_A). vm_compute. reflexivity.
  - apply (H2 (take 30 tr)). vm_compute. reflexivity.
Defined.



(** ** Beyond the design document: accessors, connection attempts, lookups
    and the life of a job *)

Section ChainFacts.

Import Validity Chains.

Local Open Scope list_scope.

Lemma index_at_last {A} (l : list A) :
  index_at l (Z.of_nat (length l) - 1) =
  match last l with Some x => Ret x | None => Panic index_out_of_range end.
Proof.
  unfold index_at. destruct l as [|a l _] using rev_ind; [reflexivity|].
  rewrite length_app, last_snoc.
  destruct (Z.ltb_spec (Z.of_nat (length l + length [a]) - 1) 0) as [H|H];
    [simpl in H; lia|].
  replace (Z.to_nat (Z.of_nat (length l + length [a]) - 1)) with (length l)
    by (simpl; lia).
  rewrite lookup_app_r by lia. rewrite Nat.sub_diag. reflexivity.
Qed.

Lemma slice_of_middle {A} (a z : A) (mid : list A) :
  slice_of (a :: mid ++ [z]) 1 (Z.of_nat (length (a :: mid ++ [z])) - 1) = Ret mid.
Proof.
  unfold slice_of.
  assert (Z.of_nat (length (a :: mid ++ [z])) - 1 = 1 + Z.of_nat (length mid)) as ->.
  { simpl length. rewrite length_app. simpl. lia. }
  assert (Z.of_nat (length (a :: mid ++ [z])) = 2 + Z.of_nat (length mid)) as ->.
  { simpl length. rewrite length_app. simpl. lia. }
  destruct (Z.leb_spec 0 1); [|lia].
  destruct (Z.leb_spec 1 (1 + Z.of_nat (length mid))); [|lia].
  destruct (Z.leb_spec (1 + Z.of_nat (length mid)) (2 + Z.of_nat (length mid))); [|lia].
  simpl andb. cbv iota. f_equal.
  replace (Z.to_nat (1 + Z.of_nat (length mid) - 1)) with (length mid) by lia.
  change (Z.to_nat 1) with 1%nat. simpl drop.
  apply take_app_length.
Qed.

Lemma copy_certs_fills (src : list Certificate) pre post :
  length post = length src ->
  copy_certs src (length pre) (pre ++ post) = Ret (pre ++ map Some src).
Proof.
  revert pre post. induction src as [|c src IH]; intros pre post Hl.
  - destruct post; [|discriminate]. reflexivity.
  - destruct post as [|p post]; [discriminate|]. simpl in Hl.
    simpl. rewrite length_app. simpl.
    case_match eqn:E; [|apply Nat.ltb_ge in E; lia].
    replace (<[length pre := Some c]> (pre ++ p :: post))
      with ((pre ++ [Some c]) ++ post).
    2:{ rewrite insert_app_r_alt by lia. rewrite Nat.sub_diag. simpl.
        rewrite <- app_assoc. reflexivity. }
    replace (S (length pre)) with (length (pre ++ [Some c])) by (rewrite length_app; simpl; lia).
    rewrite IH by lia. rewrite <- app_assoc. reflexivity.
Qed.

Lemma chain_ends (chain : list Certificate) :
  (2 <= length chain)%nat ->
  exists leaf mid root, chain = leaf :: mid ++ [root].
Proof.
  intros H. destruct chain as [|leaf rest]; [simpl in H; lia|].
  destruct rest as [|root mid] using rev_ind; [simpl in H; lia|].
  eauto.
Qed.

Lemma TrustedNames_list visit :
  TrustedNames visit = list_to_set visit.*1.
Proof.
  unfold TrustedNames.
  assert (forall acc : gset string,
            fold_left (fun set kv => {[ kv.1 ]} ∪ set) visit acc
            = list_to_set visit.*1 ∪ acc) as H.
  { induction visit as [|kv visit IH]; intros acc; simpl.
    - apply set_eq; intros x; set_unfold; tauto.
    - rewrite IH. apply set_eq; intros x; set_unfold; tauto. }
  rewrite H. apply set_eq; intros x; set_unfold; tauto.
Qed.

Lemma range_of_head v name chain rest :
  range_of v ((name, chain) :: rest) -> TrustedChains v !! name = Some chain.
Proof.
  unfold range_of. intros H.
  apply elem_of_map_to_list. rewrite <- H. left.
Qed.

Lemma range_of_nil v : range_of v [] <-> TrustedChains v = ∅.
Proof.
  unfold range_of. split.
  - intros H. symmetry in H. apply Permutation_nil_r in H.
    apply map_to_list_empty_iff in H. exact H.
  - intros ->. rewrite map_to_list_empty. reflexivity.
Qed.

End ChainFacts.

Lemma IntermediateCertificates_middle name leaf mid root rest :
  mid <> [] ->
  Chains.IntermediateCertificates ((name, (leaf :: mid ++ [root])%list) :: rest)
  = Ret (Some (map Some mid)).
Proof.
  intros Hm. unfold Chains.IntermediateCertificates.
  destruct (Nat.ltb_spec (length (leaf :: mid ++ [root])) 3) as [Hl|Hl].
  { destruct mid; [contradiction|]. simpl in Hl. rewrite length_app in Hl. simpl in Hl. lia. }
  rewrite slice_of_middle.
  assert (length (leaf :: mid ++ [root]) - 2 = length mid)%nat as ->.
  { simpl length. rewrite length_app. simpl. lia. }
  pose proof (copy_certs_fills mid [] (replicate (length mid) None)) as Hf.
  simpl in Hf. unfold mbind, go_mbind, go_bind. rewrite Hf by apply length_replicate.
  reflexivity.
Qed.



Lemma validation_outcome
    (env : Validity.X509) (certs : list Certificate)
    (v : Validity.CertificateValidity) (calls : list Validity.call) :
  Validity.NewCertificateValidity env certs = Ret (v, calls) ->
  (Validity.Error v = None /\
   exists chain, Validity.TrustedChains v = {[ "system" := chain ]}) \/
  (Validity.Error v <> None /\ Validity.TrustedChains v = ∅).
Proof.
  destruct certs as [|leaf rest]; [discriminate|].
  destruct (NewCertificateValidity_cons env leaf rest) as (opts & _ & ->).
  cbv zeta.
  destruct (0 <? length (UnhandledCriticalExtensions leaf))%nat.
  { intros [= <- <-]. right. split; [discriminate|reflexivity]. }
  destruct (Validity.BuildChains env leaf opts) as [cands [e|]].
  { intros [= <- <-]. right. split; [discriminate|reflexivity]. }
  destruct (Validity.FilterChainsByKeyUsage env cands _) as [|chain0 chains].
  { intros [= <- <-]. right. split; [discriminate|reflexivity]. }
  intros [= <- <-]. left. split; [reflexivity|].
  exists chain0. reflexivity.
Qed.

Lemma NewCertificateValidity_Certificates
    (env : Validity.X509) (certs : list Certificate)
    (v : Validity.CertificateValidity) (calls : list Validity.call) :
  Validity.NewCertificateValidity env certs = Ret (v, calls) ->
  Validity.Certificates v = certs.
Proof.
  destruct certs as [|leaf rest]; [discriminate|].
  destruct (NewCertificateValidity_cons env leaf rest) as (opts & _ & ->).
  cbv zeta.
  destruct (0 <? length (UnhandledCriticalExtensions leaf))%nat.
  { intros [= <- <-]. reflexivity. }
  destruct (Validity.BuildChains env leaf opts) as [cands [e|]].
  { intros [= <- <-]. reflexivity. }
  destruct (Validity.FilterChainsByKeyUsage env cands _) as [|chain0 chains];
    intros [= <- <-]; reflexivity.
Qed.

(** X1. The record that [NewCertificateValidity] returns keeps the certificates
    it was given, and it either has no error and exactly one trusted chain,
    stored under the name "system", or it has an error and no trusted chain
    at all. *)
Theorem validity_error_or_system_chain
    (env : Validity.X509) (certs : list Certificate)
    (v : Validity.CertificateValidity) (calls : list Validity.call) :
  Validity.NewCertificateValidity env certs = Ret (v, calls) ->
  Validity.Certificates v = certs /\
  ((Validity.Error v = None /\
    exists chain, Validity.TrustedChains v = {[ "system" := chain ]}) \/
   (Validity.Error v <> None /\ Validity.TrustedChains v = ∅)).
Proof.
  intros H. split.
  - exact (NewCertificateValidity_Certificates env certs v calls H).
  - exact (validation_outcome env certs v calls H).
Qed.

Lemma validity_error_or_system_chain_witness :
  exists v calls,
    Validity.NewCertificateValidity Cases.x509_via_intermediates Cases.presented
    = Ret (v, calls) /\
    Validity.Certificates v = Cases.presented /\
    Validity.Error v = None /\
    Validity.TrustedChains v = {[ "system" := Cases.chain3 ]}.
Proof.
  eexists _, _. split; [reflexivity|].
  destruct (validity_error_or_system_chain
              Cases.x509_via_intermediates Cases.presented _ _ eq_refl)
    as (H1 & _).
  split; [exact H1|]. split; reflexivity.
Defined.

(** X2. [TrustedNames] returns the set of the keys of [TrustedChains], in
    whatever order the map is visited. *)
Theorem TrustedNames_any_order
    (v : Validity.CertificateValidity) (visit : list (string * list Certificate)) :
  Chains.range_of v visit ->
  Chains.TrustedNames visit = dom (Validity.TrustedChains v).
Proof.
  intros H. rewrite TrustedNames_list. unfold Chains.range_of in H.
  apply set_eq. intros x. rewrite elem_of_list_to_set, elem_of_dom.
  rewrite list_elem_of_fmap. split.
  - intros ([k c] & -> & Hin). rewrite H in Hin.
    apply elem_of_map_to_list in Hin. eauto.
  - intros [c Hc]. exists (x, c). split; [reflexivity|].
    rewrite H. apply elem_of_map_to_list. exact Hc.
Qed.

Lemma TrustedNames_any_order_witness :
  Chains.TrustedNames [("system", Cases.chain3)]
  = dom (Validity.TrustedChains
           (Validity.set_chain
              {| Validity.Expired := false; Validity.Error := None;
                 Validity.Certificates := Cases.presented;
                 Validity.TrustedChains := ∅ |} "system" Cases.chain3)).
Proof.
  apply TrustedNames_any_order.
  unfold Chains.range_of. vm_compute. reflexivity.
Defined.

(** X3. [RootCertificate] returns nil exactly when there is no trusted
    chain; a certificate it returns is the last one of a trusted chain; and it
    faults, with an index out of range, only when the chain visited first is
    empty. *)
Theorem RootCertificate_last_of_first_chain
    (v : Validity.CertificateValidity) (visit : list (string * list Certificate)) :
  Chains.range_of v visit ->
  (Chains.RootCertificate visit = Ret None <-> Validity.TrustedChains v = ∅) /\
  (forall c, Chains.RootCertificate visit = Ret (Some c) ->
     exists name chain,
       Validity.TrustedChains v !! name = Some chain /\ last chain = Some c) /\
  (forall why, Chains.RootCertificate visit = Panic why ->
     why = index_out_of_range /\
     exists name, Validity.TrustedChains v !! name = Some []).
Proof.
  intros H. destruct visit as [|[name chain] rest].
  - apply range_of_nil in H. split; [tauto|]. split; intros ?; discriminate.
  - pose proof (range_of_head _ _ _ _ H) as Hc.
    unfold Chains.RootCertificate. rewrite index_at_last.
    destruct (last chain) as [c|] eqn:El; simpl.
    + split; [|split].
      * split; [discriminate|]. intros He. rewrite He in Hc. discriminate.
      * intros c' [= <-]. eauto.
      * discriminate.
    + apply last_None in El. subst chain. split; [|split].
      * split; [discriminate|]. intros He. rewrite He in Hc. discriminate.
      * discriminate.
      * intros why [= <-]. eauto.
Qed.

Lemma RootCertificate_last_of_first_chain_witness :
  exists name chain,
    (<[ "system" := Cases.chain3 ]> (∅ : gmap string (list Certificate))) !! name
    = Some chain /\
    last chain = Some Sample.root.
Proof.
  destruct (RootCertificate_last_of_first_chain
              {| Validity.Expired := false; Validity.Error := None;
                 Validity.Certificates := Cases.presented;
                 Validity.TrustedChains := <[ "system" := Cases.chain3 ]> ∅ |}
              [("system", Cases.chain3)]) as (_ & H & _).
  { unfold Chains.range_of. vm_compute. reflexivity. }
  apply (H Sample.root). reflexivity.
Defined.

(** X4. [IntermediateCertificates] never faults: it returns nil when there
    is no trusted chain or the chain visited first has fewer than three
    certificates, and otherwise the certificates strictly between the first
    and the last of that chain, in order, every slot of the slice filled. *)
Theorem IntermediateCertificates_between_leaf_and_root
    (v : Validity.CertificateValidity) (visit : list (string * list Certificate)) :
  Chains.range_of v visit ->
  exists r,
    Chains.IntermediateCertificates visit = Ret r /\
    match r with
    | None =>
        Validity.TrustedChains v = ∅ \/
        exists name chain,
          Validity.TrustedChains v !! name = Some chain /\ (length chain < 3)%nat
    | Some certs =>
        exists name leaf mid root,
          Validity.TrustedChains v !! name = Some (leaf :: mid ++ [root])%list /\
          mid <> [] /\ certs = map Some mid
    end.
Proof.
  intros H. destruct visit as [|[name chain] rest].
  - apply range_of_nil in H. exists None. split; [reflexivity|]. left; exact H.
  - pose proof (range_of_head _ _ _ _ H) as Hc.
    unfold Chains.IntermediateCertificates.
    destruct (Nat.ltb_spec (length chain) 3) as [Hl|Hl].
    + exists None. split; [reflexivity|]. right. eauto.
    + destruct (chain_ends chain) as (leaf & mid & root & ->); [lia|].
      assert (mid <> []) as Hm by (intros ->; simpl in Hl; lia).
      pose proof (IntermediateCertificates_middle name leaf mid root rest Hm) as Hi.
      unfold Chains.IntermediateCertificates in Hi.
      destruct (Nat.ltb_spec (length (leaf :: mid ++ [root])) 3) as [Hl'|_]; [lia|].
      eexists. split; [exact Hi|].
      exists name, leaf, mid, root. split; [exact Hc|]. split; [exact Hm|reflexivity].
Qed.

Lemma IntermediateCertificates_between_leaf_and_root_witness :
  Chains.IntermediateCertificates [("system", Cases.chain3)] = Ret (Some [Some Cases.inter]).
Proof.
  destruct (IntermediateCertificates_between_leaf_and_root
              {| Validity.Expired := false; Validity.Error := None;
                 Validity.Certificates := Cases.presented;
                 Validity.TrustedChains := <[ "system" := Cases.chain3 ]> ∅ |}
              [("system", Cases.chain3)]) as (r & Hr & _).
  { unfold Chains.range_of. vm_compute. reflexivity. }
  rewrite Hr. injection Hr as <-. reflexivity.
Defined.



Section AccessorFacts.

Import MxHost Summary.
Local Open Scope list_scope.

Lemma shift_fingerprints_from (src pre post : list (list Z)) :
  length post = length src ->
  shift_fingerprints src (S (length pre)) (pre ++ post) = Ret (pre ++ src).
Proof.
  revert pre post. induction src as [|f src IH]; intros pre post Hl.
  - destruct post; [|discriminate]. reflexivity.
  - destruct post as [|p post]; [discriminate|]. simpl in Hl.
    cbn [shift_fingerprints].
    destruct (Nat.ltb_spec 0 (S (length pre))) as [_|?]; [|lia].
    replace (S (length pre) - 1)%nat with (length pre) by lia.
    destruct (Nat.ltb_spec (length pre) (length (pre ++ p :: post))) as [_|H];
      [|rewrite length_app in H; simpl in H; lia].
    replace (<[length pre := f]> (pre ++ p :: post)) with ((pre ++ [f]) ++ post).
    2:{ rewrite insert_app_r_alt by lia. rewrite Nat.sub_diag. simpl.
        rewrite <- app_assoc. reflexivity. }
    replace (S (S (length pre))) with (S (length (pre ++ [f])))
      by (rewrite length_app; simpl; lia).
    rewrite IH by lia. rewrite <- app_assoc. reflexivity.
Qed.

Lemma CaFingerprints_cons s fp rest :
  fingerprints s = Some (fp :: rest) ->
  CaFingerprints s = Ret (Some rest).
Proof.
  intros H. unfold CaFingerprints. rewrite H.
  destruct (Z.ltb_spec (Z.of_nat (length (fp :: rest)) - 1) 0) as [Hl|_];
    [simpl in Hl; lia|].
  replace (length (fp :: rest) - 1)%nat with (length rest) by (simpl; lia).
  cbn [shift_fingerprints]. change (0 <? 0)%nat with false. cbv iota.
  pose proof (shift_fingerprints_from rest [] (replicate (length rest) [])) as Hf.
  simpl in Hf. unfold mbind, go_mbind, go_bind.
  rewrite Hf by apply length_replicate. reflexivity.
Qed.

End AccessorFacts.

(** X6. [ServerFingerprint] and [CaFingerprints] split the fingerprints into
    the first and the rest: both are nil when no fingerprints are set; on an
    empty, non-nil slice the first faults with an index out of range and the
    second in [make] with a negative length. *)
Theorem fingerprint_accessors_split (summary : MxHost.MxHostSummary) :
  match MxHost.fingerprints summary with
  | None =>
      Summary.ServerFingerprint summary = Ret None /\
      Summary.CaFingerprints summary = Ret None
  | Some [] =>
      Summary.ServerFingerprint summary = Panic index_out_of_range /\
      Summary.CaFingerprints summary = Panic makeslice_out_of_range
  | Some (fp :: rest) =>
      Summary.ServerFingerprint summary = Ret (Some fp) /\
      Summary.CaFingerprints summary = Ret (Some rest)
  end.
Proof.
  destruct (MxHost.fingerprints summary) as [[|fp rest]|] eqn:E.
  - unfold Summary.ServerFingerprint, Summary.CaFingerprints. rewrite E.
    split; reflexivity.
  - split; [|apply (CaFingerprints_cons _ _ _ E)].
    unfold Summary.ServerFingerprint. rewrite E. reflexivity.
  - unfold Summary.ServerFingerprint, Summary.CaFingerprints. rewrite E.
    split; reflexivity.
Qed.

(** X7. A summary that [NewMxHostSummary] returns has fingerprints and a
    validity record exactly when it has certificates.  Then the certificates
    are not empty, the fingerprints are theirs in order, the validity record
    is about them, [ServerFingerprint] is the fingerprint of the first,
    [CaFingerprints] those of the others, and [CertificateValidForDomain]
    checks the first certificate without faulting. *)
Theorem NewMxHostSummary_fingerprints_follow_certificates
    (w : MxHost.World) (addr : list Z) (s : MxHost.MxHostSummary) :
  (MxHost.NewMxHostSummary w addr).1 = Ret s ->
  match MxHost.certificates s with
  | None =>
      MxHost.fingerprints s = None /\ MxHost.validity s = None /\
      Summary.ServerFingerprint s = Ret None /\
      Summary.CaFingerprints s = Ret None
  | Some certs =>
      exists leaf rest v,
        certs = (leaf :: rest)%list /\
        MxHost.fingerprints s = Some (map FingerprintSHA1 certs) /\
        MxHost.validity s = Some v /\ Validity.Certificates v = certs /\
        Summary.ServerFingerprint s = Ret (Some (FingerprintSHA1 leaf)) /\
        Summary.CaFingerprints s = Ret (Some (map FingerprintSHA1 rest)) /\
        forall VerifyHostname domain,
          Summary.CertificateValidForDomain VerifyHostname s domain
          = Ret (bool_decide (VerifyHostname leaf domain = None))
  end.
Proof.
  unfold MxHost.NewMxHostSummary.
  destruct (MxHost.merge_grabs w addr) as [r probes] eqn:Em.
  assert (MxHost.fingerprints r = None /\ MxHost.validity r = None) as [Hf Hv].
  { rewrite merge_grabs_eq in Em. cbv zeta in Em.
    assert (forall s g, MxHost.fingerprints (MxHost.Append s g) = MxHost.fingerprints s
                        /\ MxHost.validity (MxHost.Append s g) = MxHost.validity s) as HA.
    { intros s0 g. unfold MxHost.Append.
      repeat case_match; simpl; split; reflexivity. }
    repeat case_match; simplify_eq; simpl;
      repeat (rewrite (proj1 (HA _ _)) || rewrite (proj2 (HA _ _))); simpl; auto. }
  destruct (MxHost.certificates r) as [certs|] eqn:Ec; simpl.
  - destruct (Validity.NewCertificateValidity (MxHost.x509 w) certs) as [[v calls]|why] eqn:Ev;
      simpl; [|discriminate].
    intros [= <-]. simpl. rewrite Ec.
    destruct certs as [|leaf rest]; [discriminate|].
    exists leaf, rest, v. split; [reflexivity|].
    unfold MxHost.Fingerprints. rewrite Ec. split; [reflexivity|].
    split; [reflexivity|].
    split; [exact (NewCertificateValidity_Certificates _ _ _ _ Ev)|].
    split; [reflexivity|].
    split; [apply (CaFingerprints_cons _ (FingerprintSHA1 leaf)); reflexivity|].
    intros VH domain. unfold Summary.CertificateValidForDomain. simpl. rewrite Ec.
    simpl. destruct (VH leaf domain); reflexivity.
  - intros [= <-]. rewrite Ec.
    unfold Summary.ServerFingerprint, Summary.CaFingerprints. rewrite Hf.
    repeat split; auto.
Qed.

Lemma NewMxHostSummary_fingerprints_follow_certificates_witness :
  exists s,
    (MxHost.NewMxHostSummary Sample.world [192; 0; 2; 1]%Z).1 = Ret s /\
    Summary.ServerFingerprint s = Ret (Some [1; 1]%Z) /\
    Summary.CaFingerprints s = Ret (Some []).
Proof.
  eexists. split; [reflexivity|].
  pose proof (NewMxHostSummary_fingerprints_follow_certificates
                Sample.world [192; 0; 2; 1]%Z _ eq_refl) as H.
  destruct H as (leaf & rest & v & Hc & _ & _ & _ & Hs & Hca & _).
  injection Hc as <- <-. split; [exact Hs | exact Hca].
Defined.



Section AppendFacts.

Import MxHost.

Lemma Append_untouched s g :
  address (Append s g) = address s /\ Updated (Append s g) = Updated s /\
  fingerprints (Append s g) = fingerprints s /\ validity (Append s g) = validity s.
Proof. unfold Append. repeat case_match; simpl; repeat split; reflexivity. Qed.

Lemma Append_sets_grow s g vs cs :
  tlsVersions s = Some vs -> tlsCipherSuites s = Some cs ->
  exists vs' cs',
    tlsVersions (Append s g) = Some vs' /\ tlsCipherSuites (Append s g) = Some cs' /\
    vs ⊆ vs' /\ cs ⊆ cs'.
Proof.
  intros Hv Hc. unfold Append.
  destruct (certificates s); simpl;
    (destruct (tlsVersion g =? 0)%Z; simpl;
     [exists vs, cs; rewrite ?Hv, ?Hc; repeat split; reflexivity|]);
    rewrite Hv; simpl; rewrite Hv, Hc; simpl;
    exists ({[tlsVersion g]} ∪ vs), ({[tlsCipherSuite g]} ∪ cs);
    (repeat case_match; simpl; (split; [reflexivity|]); (split; [reflexivity|]);
     split; apply union_subseteq_r).
Qed.

Lemma Append_sets_paired s g :
  (tlsVersions s = None <-> tlsCipherSuites s = None) ->
  (tlsVersions (Append s g) = None <-> tlsCipherSuites (Append s g) = None).
Proof.
  intros H. unfold Append.
  destruct (certificates s); simpl;
    (destruct (tlsVersion g =? 0)%Z; simpl; [exact H|]);
    destruct (tlsVersions s) eqn:Ev; simpl; rewrite ?Ev; simpl;
    destruct (tlsCipherSuites s) eqn:Ec; simpl;
    repeat case_match; simpl; rewrite ?Ec; simpl; intuition congruence.
Qed.

End AppendFacts.

(** X9. [Append] only adds.  On a summary whose two sets are allocated
    together it leaves them so, leaves [Starttls], [Error], the fingerprints
    and the validity untouched, keeps certificates and ECDHE parameters that
    are already set, and makes the sets of versions and cipher suites no
    smaller. *)
Theorem Append_keeps_what_is_set (s : MxHost.MxHostSummary) (g : MxHost.MxHostGrab) :
  (MxHost.tlsVersions s = None <-> MxHost.tlsCipherSuites s = None) ->
  (MxHost.tlsVersions (MxHost.Append s g) = None
   <-> MxHost.tlsCipherSuites (MxHost.Append s g) = None) /\
  MxHost.Starttls (MxHost.Append s g) = MxHost.Starttls s /\
  MxHost.Error (MxHost.Append s g) = MxHost.Error s /\
  MxHost.fingerprints (MxHost.Append s g) = MxHost.fingerprints s /\
  MxHost.validity (MxHost.Append s g) = MxHost.validity s /\
  (forall c, MxHost.certificates s = Some c ->
             MxHost.certificates (MxHost.Append s g) = Some c) /\
  (forall ty, MxHost.ecdheCurveType s = Some ty ->
     MxHost.ecdheCurveType (MxHost.Append s g) = MxHost.ecdheCurveType s /\
     MxHost.ecdheCurveId (MxHost.Append s g) = MxHost.ecdheCurveId s /\
     MxHost.ecdheKeyLength (MxHost.Append s g) = MxHost.ecdheKeyLength s) /\
  (forall vs cs,
     MxHost.tlsVersions s = Some vs -> MxHost.tlsCipherSuites s = Some cs ->
     exists vs' cs',
       MxHost.tlsVersions (MxHost.Append s g) = Some vs' /\
       MxHost.tlsCipherSuites (MxHost.Append s g) = Some cs' /\
       vs ⊆ vs' /\ cs ⊆ cs').
Proof.
  intros Hp.
  split; [exact (Append_sets_paired s g Hp)|].
  split; [exact (proj1 (Append_first s g))|].
  split; [exact (proj2 (Append_first s g))|].
  destruct (Append_untouched s g) as (_ & _ & Hf & Hv).
  split; [exact Hf|]. split; [exact Hv|].
  split; [intros c Hc; rewrite Append_certificates, Hc; reflexivity|].
  split; [intros ty Hty; exact (Append_ecdhe_kept s g ty Hty)|].
  intros vs cs. apply Append_sets_grow.
Qed.

Lemma Append_keeps_what_is_set_witness :
  let s := (MxHost.merge_grabs Sample.world [192; 0; 2; 1]%Z).1 in
  MxHost.certificates (MxHost.Append s Sample.grab_tls10) = Some [Sample.leaf_ok] /\
  MxHost.ecdheCurveType (MxHost.Append s Sample.grab_tls10) = Some 3%Z.
Proof.
  intros s.
  destruct (Append_keeps_what_is_set s Sample.grab_tls10)
    as (_ & _ & _ & _ & _ & Hc & He & _).
  { vm_compute. split; intros H; discriminate H. }
  split.
  - apply Hc. reflexivity.
  - destruct (He 3%Z) as (H & _); [reflexivity|]. rewrite H. reflexivity.
Defined.

(** X10. Appending the same connection attempt a second time changes
    nothing. *)
Theorem Append_idempotent (s : MxHost.MxHostSummary) (g : MxHost.MxHostGrab) :
  (MxHost.tlsVersions s = None <-> MxHost.tlsCipherSuites s = None) ->
  MxHost.Append (MxHost.Append s g) g = MxHost.Append s g.
Proof.
  intros Hp. destruct s as [a u st vs cs c f v e1 e2 e3 er]. simpl in Hp.
  assert (forall (x : Z) (m : gset Z), {[x]} ∪ ({[x]} ∪ m) = {[x]} ∪ m) as Hu.
  { intros x m. apply set_eq. intros y. set_unfold. tauto. }
  unfold MxHost.Append. simpl.
  destruct c as [c|]; simpl;
    (destruct (MxHost.tlsVersion g =? 0)%Z eqn:Ez; simpl; rewrite ?Ez; simpl;
     [destruct (MxHost.g_certificates g); reflexivity|]);
    (destruct vs as [vs|]; [destruct cs as [cs|]; [|destruct Hp as [_ Hp]; discriminate Hp; reflexivity]
                           |destruct cs as [cs|]; [destruct Hp as [Hp _]; discriminate Hp; reflexivity|]]);
    simpl; destruct e1 as [e1|]; simpl; rewrite ?Ez; simpl;
    try (destruct (MxHost.dhParams g) eqn:Ed; simpl; rewrite ?Ez; simpl);
    try (destruct (MxHost.g_certificates g) eqn:Eg; simpl; rewrite ?Ez; simpl);
    rewrite ?Hu; reflexivity.
Qed.

Lemma Append_idempotent_witness :
  let s := (MxHost.merge_grabs Sample.world [192; 0; 2; 1]%Z).1 in
  MxHost.Append (MxHost.Append s Sample.grab_tls10) Sample.grab_tls10
  = MxHost.Append s Sample.grab_tls10.
Proof.
  intros s. apply Append_idempotent.
  vm_compute. split; intros H; discriminate H.
Defined.

Lemma simplifyError_returns (err : error) :
  exists err', MxHost.simplifyError err = Ret err' /\
    (err' = err \/
     exists pre, Error_text err = (pre ++ ": " ++ Error_text err')%string).
Proof.
  unfold MxHost.simplifyError. rewrite simplify_loop_spec.
  destruct (existsb _ _); simpl; [|eauto].
  destruct (Strings.Contains (Error_text err) ": ") eqn:Ec; [|eauto].
  destruct (LastIndex_cut _ Ec) as (pre & suf & Ht & _ & _ & ->).
  simpl. eexists. split; [reflexivity|]. right. exists pre. exact Ht.
Qed.

Section GrabFacts.

Import MxHost Grab.
Local Open Scope list_scope.

Lemma log_loop_snoc st log entry :
  log_loop st (log ++ [entry]) = st' ← log_loop st log; log_entry st' entry.
Proof.
  revert st. induction log as [|e log IH]; intros st; simpl.
  - destruct (log_entry st entry); reflexivity.
  - destruct (log_entry st e) as [st'|why]; simpl; [apply IH|reflexivity].
Qed.

Lemma last_with_snoc p log entry :
  last_with p (log ++ [entry]) = if p entry then Some entry else last_with p log.
Proof.
  unfold last_with. rewrite List.filter_app. simpl.
  destruct (p entry); [apply last_snoc | rewrite app_nil_r; reflexivity].
Qed.


Lemma log_entry_post log st entry st' :
  Grab.loop_post log st -> log_entry st entry = Ret st' -> Grab.loop_post (log ++ [entry]) st'.
Proof.
  intros (Hs & He & Hh) Hstep. unfold Grab.loop_post.
  rewrite !last_with_snoc. unfold log_entry in Hstep.
  unfold is_starttls, is_handshake, has_error in *.
  destruct entry as [data err]. simpl in *.
  destruct data as [[h|]| |]; simpl in *; try discriminate;
    destruct err as [e|]; simpl in *;
    try (destruct (simplifyError e) as [e'|] eqn:Ee; simpl in *; [|discriminate]);
    injection Hstep as <-; simpl;
    repeat split; eauto.
Qed.

Lemma log_loop_post log st :
  log_loop locals0 log = Ret st -> Grab.loop_post log st.
Proof.
  revert st. induction log as [|entry log IH] using rev_ind; intros st H.
  - injection H as <-. repeat split.
  - rewrite log_loop_snoc in H.
    destruct (log_loop locals0 log) as [st0|] eqn:E0; [|discriminate].
    simpl in H. eapply log_entry_post; eauto.
Qed.

Lemma log_entry_returns st entry :
  Data entry <> TLSHandshakeEvent None -> exists st', log_entry st entry = Ret st'.
Proof.
  intros H. unfold log_entry. destruct entry as [data err]. simpl in *.
  destruct data as [[h|]| |]; try contradiction; simpl;
    destruct err as [e|]; simpl; eauto;
    destruct (simplifyError_returns e) as (e' & -> & _); simpl; eauto.
Qed.

Lemma log_entry_panics st entry why :
  log_entry st entry = Panic why ->
  why = nil_dereference /\ Data entry = TLSHandshakeEvent None.
Proof.
  unfold log_entry. destruct entry as [data err]. simpl.
  destruct data as [[h|]| |]; simpl;
    try (intros [= <-]; split; reflexivity);
    destruct err as [e|]; simpl; try discriminate;
    destruct (simplifyError_returns e) as (e' & -> & _); simpl; discriminate.
Qed.

Lemma log_loop_panics st log :
  (exists why, log_loop st log = Panic why) <->
  Exists (fun entry => Data entry = TLSHandshakeEvent None) log.
Proof.
  revert st. induction log as [|entry log IH]; intros st; simpl.
  - rewrite Exists_nil. split; [intros [? [=]] | tauto].
  - rewrite Exists_cons.
    destruct (log_entry st entry) as [st'|w] eqn:E; simpl.
    + rewrite IH. split; [tauto|]. intros [H|H]; [|exact H].
      exfalso. unfold log_entry in E. rewrite H in E. discriminate.
    + apply log_entry_panics in E as [_ E]. split; eauto.
Qed.

Lemma log_loop_panic_why st log why :
  log_loop st log = Panic why -> why = nil_dereference.
Proof.
  revert st. induction log as [|entry log IH]; intros st; simpl; [discriminate|].
  destruct (log_entry st entry) as [st'|w] eqn:E; simpl.
  - apply IH.
  - intros [= <-]. apply (log_entry_panics _ _ _ E).
Qed.

End GrabFacts.



Lemma grab_starttls
    (log : list Grab.LogEntry) (g : MxHost.MxHostGrab) :
  Grab.NewMxHostGrab log = Ret g ->
  MxHost.starttls g
  = (fun entry => negb (Grab.has_error entry)) <$> Grab.last_with Grab.is_starttls log.
Proof.
  unfold Grab.NewMxHostGrab.
  destruct (Grab.log_loop Grab.locals0 log) as [st|] eqn:E; [|discriminate].
  apply log_loop_post in E as (Hs & _ & _). simpl.
  destruct (Grab.tlsHello st), (Grab.tlsHandshake st); intros [= <-]; simpl;
    assumption.
Qed.

Lemma grab_tls_parameters
    (log : list Grab.LogEntry) (g : MxHost.MxHostGrab) :
  Grab.NewMxHostGrab log = Ret g ->
  match Grab.last_with Grab.is_handshake log with
  | None =>
      MxHost.tlsVersion g = 0%Z /\ MxHost.tlsCipherSuite g = 0%Z /\
      MxHost.g_certificates g = None /\ MxHost.dhParams g = MxHost.dh_nil
  | Some entry =>
      exists h,
        Grab.Data entry = Grab.TLSHandshakeEvent (Some h) /\
        MxHost.tlsVersion g = from_option Grab.Version 0%Z (Grab.Hello h) /\
        MxHost.tlsCipherSuite g = from_option Grab.CipherSuite 0%Z (Grab.Hello h) /\
        MxHost.g_certificates g
        = Grab.ServerCertificates h ≫= Grab.ParsedCertificates /\
        MxHost.dhParams g = Grab.DHParams h
  end.
Proof.
  unfold Grab.NewMxHostGrab.
  destruct (Grab.log_loop Grab.locals0 log) as [st|] eqn:E; [|discriminate].
  apply log_loop_post in E as (_ & _ & Hh). simpl.
  destruct (Grab.last_with Grab.is_handshake log) as [entry|].
  - destruct Hh as (h & Hd & -> & ->).
    destruct (Grab.Hello h) as [hello|] eqn:Eh; intros [= <-]; simpl;
      exists h; rewrite Eh; simpl;
      (destruct (Grab.ServerCertificates h) as [certs|]; simpl; auto).
  - destruct Hh as [-> ->]. intros [= <-]. simpl. auto.
Qed.


(** X11. In the result of [NewMxHostGrab], [starttls] tells whether the last
    STARTTLS entry of the log is free of an error (nil if the log has no such
    entry), and [Error] is the simplified text of the last entry of the log
    that carries an error (nil if none does): a later error replaces an
    earlier one. *)
Theorem NewMxHostGrab_starttls_and_last_error
    (log : list Grab.LogEntry) (g : MxHost.MxHostGrab) :
  Grab.NewMxHostGrab log = Ret g ->
  MxHost.starttls g
  = (fun entry => negb (Grab.has_error entry)) <$> Grab.last_with Grab.is_starttls log /\
  match Grab.last_with Grab.has_error log with
  | None => MxHost.g_Error g = None
  | Some entry =>
      exists e err,
        Grab.Error entry = Some e /\ MxHost.simplifyError e = Ret err /\
        MxHost.g_Error g = Some (Error_text err)
  end.
Proof.
  unfold Grab.NewMxHostGrab.
  destruct (Grab.log_loop Grab.locals0 log) as [st|] eqn:E; [|discriminate].
  apply log_loop_post in E as (Hs & He & _). simpl.
  destruct (Grab.tlsHello st), (Grab.tlsHandshake st); intros [= <-]; simpl;
    split; assumption.
Qed.

Lemma NewMxHostGrab_starttls_and_last_error_witness :
  exists g,
    Grab.NewMxHostGrab Cases.log_no_starttls = Ret g /\
    MxHost.starttls g = Some false /\
    MxHost.g_Error g = Some "502 not implemented".
Proof.
  eexists. split; [reflexivity|].
  destruct (NewMxHostGrab_starttls_and_last_error Cases.log_no_starttls _ eq_refl)
    as (Hs & e & err & He & Hr & Hg).
  split; [exact Hs|].
  injection He as <-. injection Hr as <-. exact Hg.
Defined.

(** X12. The TLS fields of the result of [NewMxHostGrab] come from the last
    handshake entry of the log: version and cipher suite from its server
    hello (zero without one), the certificates from its certificate message
    (nil without one) and the key-exchange parameters as they are.  Without a
    handshake entry all four are zero values. *)
Theorem NewMxHostGrab_tls_parameters_of_last_handshake
    (log : list Grab.LogEntry) (g : MxHost.MxHostGrab) :
  Grab.NewMxHostGrab log = Ret g ->
  match Grab.last_with Grab.is_handshake log with
  | None =>
      MxHost.tlsVersion g = 0%Z /\ MxHost.tlsCipherSuite g = 0%Z /\
      MxHost.g_certificates g = None /\ MxHost.dhParams g = MxHost.dh_nil
  | Some entry =>
      exists h,
        Grab.Data entry = Grab.TLSHandshakeEvent (Some h) /\
        MxHost.tlsVersion g = from_option Grab.Version 0%Z (Grab.Hello h) /\
        MxHost.tlsCipherSuite g = from_option Grab.CipherSuite 0%Z (Grab.Hello h) /\
        MxHost.g_certificates g
        = Grab.ServerCertificates h ≫= Grab.ParsedCertificates /\
        MxHost.dhParams g = Grab.DHParams h
  end.
Proof.
  intros Hg. pose proof (grab_tls_parameters log g Hg) as H.
  destruct (Grab.last_with Grab.is_handshake log) as [entry|].
  - destruct H as (h & Hd & Hv & Hs & Hc & Hdh).
    exists h. repeat split; assumption.
  - exact H.
Qed.

Lemma NewMxHostGrab_tls_parameters_of_last_handshake_witness :
  Grab.NewMxHostGrab Cases.log_tls12 = Ret Sample.grab_tls12 /\
  exists h,
    MxHost.tlsVersion Sample.grab_tls12 = from_option Grab.Version 0%Z (Grab.Hello h) /\
    MxHost.g_certificates Sample.grab_tls12
    = Grab.ServerCertificates h ≫= Grab.ParsedCertificates.
Proof.
  split; [reflexivity|].
  destruct (NewMxHostGrab_tls_parameters_of_last_handshake
              Cases.log_tls12 Sample.grab_tls12 eq_refl)
    as (h & _ & Hv & _ & Hc & _).
  exists h. split; [exact Hv | exact Hc].
Defined.

(** X13. [NewMxHostGrab] faults exactly when the log has a handshake entry
    whose handshake log is nil, and the fault is a nil dereference; the
    simplification of error texts never faults. *)
Theorem NewMxHostGrab_faults_on_handshake_without_log (log : list Grab.LogEntry) :
  ((exists why, Grab.NewMxHostGrab log = Panic why) <->
   Exists (fun entry => Grab.Data entry = Grab.TLSHandshakeEvent None) log) /\
  (forall why, Grab.NewMxHostGrab log = Panic why -> why = nil_dereference).
Proof.
  unfold Grab.NewMxHostGrab. split.
  - rewrite <- (log_loop_panics Grab.locals0 log).
    destruct (Grab.log_loop Grab.locals0 log) as [st|w]; simpl.
    + destruct (Grab.tlsHello st), (Grab.tlsHandshake st);
        split; intros [? [=]].
    + split; eauto.
  - intros why.
    destruct (Grab.log_loop Grab.locals0 log) as [st|w] eqn:E; simpl.
    + destruct (Grab.tlsHello st), (Grab.tlsHandshake st); discriminate.
    + intros [= <-]. apply (log_loop_panic_why _ _ _ E).
Qed.

Lemma NewMxHostGrab_faults_on_handshake_without_log_witness :
  exists why,
    Grab.NewMxHostGrab
      [ {| Grab.Data := Grab.StartTLSEvent; Grab.Error := None |};
        {| Grab.Data := Grab.TLSHandshakeEvent None; Grab.Error := None |} ]
    = Panic why.
Proof.
  destruct (NewMxHostGrab_faults_on_handshake_without_log
              [ {| Grab.Data := Grab.StartTLSEvent; Grab.Error := None |};
                {| Grab.Data := Grab.TLSHandshakeEvent None; Grab.Error := None |} ])
    as (H & _).
  apply H. apply Exists_cons_tl, Exists_cons_hd. reflexivity.
Defined.

(** X14. When the log of the first connection attempt has no handshake
    entry, [NewMxHostSummary] makes that one attempt only and returns a
    summary with the STARTTLS outcome of the log and no certificates,
    fingerprints, validity, versions, cipher suites or ECDHE parameters. *)
Theorem no_handshake_no_second_attempt
    (w : MxHost.World) (addr : list Z) (log : list Grab.LogEntry) :
  Grab.NewMxHostGrab log = Ret (MxHost.NewMxHostGrab w addr MxHost.VersionTLS12) ->
  Grab.last_with Grab.is_handshake log = None ->
  exists s,
    MxHost.NewMxHostSummary w addr = (Ret s, [MxHost.VersionTLS12]) /\
    MxHost.Starttls s
    = (fun entry => negb (Grab.has_error entry)) <$> Grab.last_with Grab.is_starttls log /\
    MxHost.certificates s = None /\ MxHost.fingerprints s = None /\
    MxHost.validity s = None /\
    MxHost.tlsVersions s = None /\ MxHost.tlsCipherSuites s = None /\
    MxHost.ecdheCurveType s = None.
Proof.
  intros Hg Hh.
  pose proof (grab_tls_parameters _ _ Hg) as Ht.
  rewrite Hh in Ht. destruct Ht as (Hv & _ & Hc & _).
  pose proof (grab_starttls _ _ Hg) as Hs.
  unfold MxHost.NewMxHostSummary. rewrite merge_grabs_eq. cbv zeta.
  rewrite Hv. change (MxHost.VersionTLS10 <? 0)%Z with false. cbv iota.
  unfold MxHost.Append. rewrite Hv, Hc. simpl.
  destruct (MxHost.starttls _) as [[|]|] eqn:Es; simpl;
    eexists; (split; [reflexivity|]); simpl; rewrite <- Hs; repeat split; reflexivity.
Qed.

Lemma no_handshake_no_second_attempt_witness :
  exists s,
    MxHost.NewMxHostSummary Cases.world_no_starttls [192; 0; 2; 1]%Z
    = (Ret s, [MxHost.VersionTLS12]) /\
    MxHost.Starttls s = Some false /\ MxHost.certificates s = None.
Proof.
  destruct (no_handshake_no_second_attempt
              Cases.world_no_starttls [192; 0; 2; 1]%Z Cases.log_no_starttls)
    as (s & H & Hs & Hc & _).
  { reflexivity. }
  { reflexivity. }
  exists s. split; [exact H|]. split; [exact Hs | exact Hc].
Defined.

Section DnsFacts.

Import Dns.
Local Open Scope list_scope.

Variable lib : Library.

Lemma appendRR_fields r rr :
  Results (appendRR lib r rr) = Results r ++ Results (appendRR lib zero_result rr) /\
  Secure (appendRR lib r rr) = Secure r /\
  Error (appendRR lib r rr) = Error r /\
  WhyBogus (appendRR lib r rr) = WhyBogus r.
Proof.
  destruct rr; simpl; repeat split; try reflexivity.
  rewrite app_nil_r. reflexivity.
Qed.

Lemma fold_appendRR rrs r :
  Results (fold_left (appendRR lib) rrs r)
  = Results r ++ flat_map (fun rr => Results (appendRR lib zero_result rr)) rrs /\
  Secure (fold_left (appendRR lib) rrs r) = Secure r /\
  Error (fold_left (appendRR lib) rrs r) = Error r /\
  WhyBogus (fold_left (appendRR lib) rrs r) = WhyBogus r.
Proof.
  revert r. induction rrs as [|rr rrs IH]; intros r; simpl.
  - rewrite app_nil_r. auto.
  - destruct (IH (appendRR lib r rr)) as (H1 & H2 & H3 & H4).
    destruct (appendRR_fields r rr) as (G1 & G2 & G3 & G4).
    rewrite H1, H2, H3, H4, G1, G2, G3, G4, <- app_assoc. auto.
Qed.



Lemma append_data_spec rrs data i r :
  (i <= length rrs)%nat ->
  append_data lib rrs data i r =
  if (i + length data <=? length rrs)%nat
  then Ret (fold_left (appendRR lib) (take (length data) (drop i rrs)) r)
  else Panic index_out_of_range.
Proof.
  revert i r. induction data as [|d data IH]; intros i r Hi; simpl.
  - destruct (Nat.leb_spec (i + 0) (length rrs)); [reflexivity|lia].
  - destruct (rrs !! i) as [rr|] eqn:E.
    + pose proof (lookup_lt_Some _ _ _ E) as Hlt. rewrite IH by lia.
      replace (S i + length data)%nat with (i + S (length data))%nat by lia.
      destruct (Nat.leb_spec (i + S (length data)) (length rrs)); [|reflexivity].
      rewrite (list_basics.list.drop_S _ _ _ E). reflexivity.
    + apply lookup_ge_None in E.
      destruct (Nat.leb_spec (i + S (length data)) (length rrs)); [lia|reflexivity].
Qed.

End DnsFacts.





(** X16. A result of [Lookup] with an error has no entries, over either
    backend. *)
Theorem Lookup_error_excludes_results
    (lib : Dns.Library) (net : Dns.Network) (query : Dns.DnsQuery) (r : Dns.DnsResult) :
  Dns.Lookup lib net query = Ret r ->
  Dns.Error r <> None -> Dns.Results r = [].
Proof.
  unfold Dns.Lookup, Dns.lookupDns, Dns.lookupUnbound.
  destruct (Dns.Type_ query =? Dns.TypeTLSA)%Z.
  - destruct (Dns.Resolve net query) as [u [e|]].
    { intros [= <-] _. destruct (negb _); reflexivity. }
    destruct (Dns.u_NxDomain u).
    { intros [= <-] _. destruct (negb _); reflexivity. }
    destruct (negb (Dns.u_Rcode u =? _)%Z).
    { intros [= <-] _. destruct (negb _); reflexivity. }
    rewrite append_data_spec by lia.
    destruct (_ <=? _)%nat; [|discriminate].
    intros [= <-] He. exfalso. apply He.
    rewrite (proj1 (proj2 (proj2 (fold_appendRR lib _ _)))).
    destruct (negb _); reflexivity.
  - destruct (Dns.Exchange net query) as [[m|] [e|]]; simpl;
      try (intros [= <-] _; reflexivity); try discriminate.
    destruct (Dns.Rcode m =? Dns.RcodeNameError)%Z; [intros [= <-] _; reflexivity|].
    destruct (negb (Dns.Rcode m =? _)%Z); [intros [= <-] _; reflexivity|].
    intros [= <-] He. exfalso. apply He.
    rewrite (proj1 (proj2 (proj2 (fold_appendRR lib _ _)))). reflexivity.
Qed.

Lemma Lookup_error_excludes_results_witness :
  exists r,
    Dns.Lookup Sample.lib Sample.net_timeout Sample.no_such = Ret r /\
    Dns.Error r = Some (library_error "i/o timeout") /\
    Dns.Results r = [].
Proof.
  eexists. split; [reflexivity|]. split; [reflexivity|].
  apply (Lookup_error_excludes_results
           Sample.lib Sample.net_timeout Sample.no_such _ eq_refl).
  discriminate.
Defined.




(** X19. When the resolution succeeds and there are at least as many records
    as data items, [lookupUnbound] returns the renderings of the first
    [len(Data)] records, in order, and no error. *)
Theorem lookupUnbound_results_for_data
    (lib : Dns.Library) (u : Dns.UnboundResult) :
  Dns.u_NxDomain u = false -> Dns.u_Rcode u = Dns.RcodeSuccess ->
  (length (Dns.u_Data u) <= length (Dns.u_Rr u))%nat ->
  exists r,
    Dns.lookupUnbound lib (u, None) = Ret r /\
    Dns.Results r
    = flat_map (fun rr => Dns.Results (Dns.appendRR lib Dns.zero_result rr))
               (take (length (Dns.u_Data u)) (Dns.u_Rr u)) /\
    Dns.Error r = None.
Proof.
  intros Hnx Hrc Hl. unfold Dns.lookupUnbound. rewrite Hnx, Hrc. simpl.
  rewrite append_data_spec by lia. simpl.
  destruct (Nat.leb_spec (length (Dns.u_Data u)) (length (Dns.u_Rr u))); [|lia].
  eexists. split; [reflexivity|].
  match goal with
  | |- context [fold_left _ ?l ?r0] =>
      destruct (fold_appendRR lib l r0) as (H1 & _ & H3 & _)
  end.
  rewrite H1, H3. destruct (negb _); simpl; split; reflexivity.
Qed.

Lemma lookupUnbound_results_for_data_witness :
  exists r,
    Dns.Lookup Sample.lib Cases.net_tlsa Cases.tlsa_query = Ret r /\
    Dns.Results r = ["3 1 1 ab"; "2 0 1 cd"].
Proof.
  destruct (lookupUnbound_results_for_data Sample.lib Cases.unbound_tlsa.1)
    as (r & Hr & Hres & _).
  { reflexivity. }
  { reflexivity. }
  { simpl. lia. }
  exists r. split; [exact Hr | exact Hres].
Defined.

Section ProcessorFacts.

Import Dns Proc Trace.
Local Open Scope list_scope.

Variable cfg : config.

Local Ltac at_pc_cases H :=
  unfold step_at, panic in H;
  repeat (match type of H with
          | context [match ?x with _ => _ end] => destruct x eqn:?
          | context [if ?x then _ else _] => destruct x eqn:?
          end; simplify_eq).

(** A step, taken apart. *)
Lemma step_parts tr s t ev s' :
  Inv tr s -> step cfg s t = Some (ev, s') ->
  panicked s = false /\
  exists th th',
    threads s !! t = Some th /\ step_at cfg s t th = Some (ev, s') /\
    thread_of ev = t /\ s' = with_thread (effect ev s) t th' /\
    ev_ok tr ev /\ ev_state s ev.
Proof.
  intros I H. destruct (step_inv cfg _ _ _ _ H) as (Hp & th & Hth & Hat).
  destruct (step_at_shape cfg _ _ _ _ _ Hth Hat) as (Ht & th' & Hs').
  destruct (step_ev cfg _ _ _ _ _ _ I Hth Hat) as (Hok & Hst).
  split; [exact Hp|]. exists th, th'. repeat split; assumption.
Qed.

Lemma step_at_result s t th t' j r s' :
  step_at cfg s t th = Some (EvResult t' j r, s') ->
  exists job, heap s !! j = Some job /\
              Lookup (lib cfg) (net cfg j) (Query job) = Ret r.
Proof. intros H. at_pc_cases H. eauto. Qed.

Lemma step_at_job_results s t th t' j rs s' :
  step_at cfg s t th = Some (EvJobResults t' j rs, s') ->
  rs = results_of s j.
Proof.
  intros H. at_pc_cases H. unfold results_of.
  repeat match goal with E : _ = _ |- _ => rewrite E end. reflexivity.
Qed.

Lemma recent_elem tr t l ev : recent tr t l -> ev ∈ l -> ev ∈ tr.
Proof.
  intros [older H] Hin.
  assert (ev ∈ by_thread t tr) as Hb by (rewrite H; apply elem_of_app; auto).
  unfold by_thread in Hb. apply list_elem_of_filter in Hb. tauto.
Qed.

Lemma coherent_job_results tr t j rs :
  coherent tr -> EvJobResults t j rs ∈ tr -> finished tr j.
Proof.
  induction tr as [|ev tr IH]; intros Hc Hin; [by apply elem_of_nil in Hin|].
  destruct Hc as [Hok Hc]. apply finished_cons; [done|].
  apply elem_of_cons in Hin. destruct Hin as [<-|Hin]; [exact Hok|auto].
Qed.


Lemma names_query_effect s ev ev0 :
  Observed.names_query s ev0 -> Observed.names_query (effect ev s) ev0.
Proof. destruct ev0; simpl; auto using eff_query. Qed.

Lemma reachable_names_query programs n tr s :
  reachable cfg programs n tr s -> forall ev, ev ∈ tr -> Observed.names_query s ev.
Proof.
  induction 1 as [|tr s t ev s' Hr IH Hstep]; intros ev0 Hin;
    [by apply elem_of_nil in Hin|].
  pose proof (reachable_Inv cfg _ _ _ _ Hr) as I.
  destruct (step_parts _ _ _ _ _ I Hstep)
    as (_ & th & th' & Hth & Hat & Ht & -> & Hok & Hst).
  assert (forall e, Observed.names_query (effect ev s) e ->
                    Observed.names_query (with_thread (effect ev s) t th') e) as Hw.
  { intros e. destruct e; simpl; auto. }
  apply Hw. apply elem_of_cons in Hin. destruct Hin as [->|Hin];
    [|apply names_query_effect; auto].
  destruct ev; simpl; try exact Logic.I.
  - (* found *)
    destruct Hok as [He _]. rewrite <- (inv_entry _ _ I) in He.
    apply (inv_entryq _ _ I _ _ He).
  - (* insert *)
    simpl in Hst. subst job. unfold query_of. simpl.
    rewrite lookup_app_r by lia. rewrite Nat.sub_diag. reflexivity.
  - (* return *)
    destruct Hok as [_ [Hcd|Hcd]].
    + apply (IH (EvFound t0 query job)).
      eapply recent_elem; [exact Hcd|]. set_solver.
    + apply (IH (EvInsert t0 query job)).
      eapply recent_elem; [exact Hcd|]. set_solver.
  - (* delete *)
    exact Hst.
Qed.

(** A result that is written is what the lookup of the job's query gave. *)
Lemma reachable_result programs n tr s :
  reachable cfg programs n tr s ->
  forall j job r,
    heap s !! j = Some job -> Result job = Some r ->
    Lookup (lib cfg) (net cfg j) (Query job) = Ret r.
Proof.
  induction 1 as [|tr s t ev s' Hr IH Hstep]; intros j job r Hj Hres;
    [by (simpl in Hj; rewrite lookup_nil in Hj)|].
  pose proof (reachable_Inv cfg _ _ _ _ Hr) as I.
  destruct (step_parts _ _ _ _ _ I Hstep)
    as (_ & th & th' & Hth & Hat & Ht & -> & Hok & Hst).
  change (heap (effect ev s) !! j = Some job) in Hj.
  destruct ev; simpl in Hj; eauto.
  - (* insert *)
    destruct (heap s !! j) as [jb|] eqn:E.
    + rewrite (lookup_app_l_Some _ _ _ _ E) in Hj. simplify_eq. eauto.
    + apply lookup_ge_None in E.
      destruct (decide (j = length (heap s))) as [->|Hne].
      * rewrite lookup_app_r in Hj by lia. rewrite Nat.sub_diag in Hj.
        injection Hj as <-. simpl in Hres. discriminate Hres.
      * rewrite lookup_ge_None_2 in Hj; [discriminate|].
        rewrite length_app. simpl. lia.
  - (* result *)
    destruct (step_at_result _ _ _ _ _ _ _ Hat) as (jb & Hjb & Hl).
    rewrite Hjb in Hj. simpl in Hj.
    destruct (decide (job0 = j)) as [->|Hne].
    + rewrite list_lookup_insert_eq in Hj by (eapply lookup_lt_Some; eauto).
      simplify_eq. simpl in Hres. simplify_eq. exact Hl.
    + rewrite list_lookup_insert_ne in Hj by done. eauto.
  - (* done *)
    destruct (heap s !! job0) as [jb|] eqn:E; simpl in Hj; [|eauto].
    destruct (decide (job0 = j)) as [->|Hne].
    + rewrite list_lookup_insert_eq in Hj by (eapply lookup_lt_Some; eauto).
      simplify_eq. simpl in Hres. apply (IH _ _ _ E Hres).
    + rewrite list_lookup_insert_ne in Hj by done. eauto.
Qed.

(** What [job.Results()] returned is the result the job has now. *)
Lemma reachable_job_results programs n tr s :
  reachable cfg programs n tr s ->
  forall t j rs, EvJobResults t j rs ∈ tr -> rs = results_of s j.
Proof.
  induction 1 as [|tr s t ev s' Hr IH Hstep]; intros t0 j rs Hin;
    [by apply elem_of_nil in Hin|].
  pose proof (reachable_Inv cfg _ _ _ _ Hr) as I.
  destruct (step_parts _ _ _ _ _ I Hstep)
    as (_ & th & th' & Hth & Hat & Ht & -> & Hok & Hst).
  change (rs = results_of (effect ev s) j).
  apply elem_of_cons in Hin. destruct Hin as [<-|Hin].
  - apply (step_at_job_results _ _ _ _ _ _ _ Hat).
  - rewrite (eff_results tr s ev j Hok).
    + eauto.
    + eapply coherent_job_results; [apply (inv_coh _ _ I)|exact Hin].
Qed.

(** A job is looked up when it leaves the stage [Dequeued]. *)
Lemma lookups_phase tr j :
  coherent tr ->
  count (Observed.is_lookup j) tr =
  match phase tr j with
  | Some ((Written | Deleted | Finished), _) => 1%nat
  | _ => 0%nat
  end.
Proof.
  induction tr as [|ev tr IH]; [done|]. intros [Hok Hc].
  specialize (IH Hc). rewrite count_cons.
  destruct ev; simpl in *; try done;
    try case_bool_decide; case_decide; simplify_eq; try done;
    destruct_and?;
    repeat match goal with H : exists _, _ |- _ => destruct H end;
    repeat match goal with H : phase tr _ = _ |- _ => rewrite H in IH end;
    try lia.
Qed.

(** A worker takes a job when it leaves the stage [Enqueued]. *)
Lemma dequeues_phase tr j :
  coherent tr ->
  count (Observed.is_dequeue j) tr =
  match phase tr j with
  | None | Some ((Inserted | Enqueued), _) => 0%nat
  | _ => 1%nat
  end.
Proof.
  induction tr as [|ev tr IH]; [done|]. intros [Hok Hc].
  specialize (IH Hc). rewrite count_cons.
  destruct ev; simpl in *; try done;
    try case_bool_decide; case_decide; simplify_eq; try done;
    destruct_and?;
    repeat match goal with H : exists _, _ |- _ => destruct H end;
    repeat match goal with H : phase tr _ = _ |- _ => rewrite H in IH end;
    try lia.
Qed.

(** The object of a finished job is not written any more. *)
Lemma finished_frozen tr s ev j :
  ev_ok tr ev -> ev_state s ev -> finished tr j -> is_Some (heap s !! j) ->
  heap (effect ev s) !! j = heap s !! j.
Proof.
  intros Hok Hst [w Hf] [jb Hj].
  destruct ev; simpl; try done.
  - now rewrite (lookup_app_l_Some _ _ _ _ Hj).
  - destruct (heap s !! job) as [jb'|] eqn:E; simpl; [|done].
    destruct (decide (job = j)) as [->|Hne].
    + simpl in Hok. congruence.
    + now rewrite list_lookup_insert_ne.
  - destruct (heap s !! job) as [jb'|] eqn:E; simpl; [|done].
    destruct (decide (job = j)) as [->|Hne].
    + simpl in Hok. destruct Hok as [Hok _]. congruence.
    + now rewrite list_lookup_insert_ne.
Qed.

Lemma run_from_app sched1 sched2 tr s :
  run_from cfg (sched1 ++ sched2) tr s
  = run_from cfg sched2 (run_from cfg sched1 tr s).1 (run_from cfg sched1 tr s).2.
Proof.
  revert tr s. induction sched1 as [|t sched1 IH]; intros tr s; simpl; [done|].
  destruct (step cfg s t) as [[ev s']|]; apply IH.
Qed.

Lemma run_from_frozen sched tr s j :
  Inv tr s -> finished tr j ->
  finished (run_from cfg sched tr s).1 j /\
  heap (run_from cfg sched tr s).2 !! j = heap s !! j /\
  exists later, (run_from cfg sched tr s).1 = later ++ tr.
Proof.
  revert tr s. induction sched as [|t sched IH]; intros tr s I Hf; simpl.
  - split; [done|]. split; [done|]. by exists [].
  - destruct (step cfg s t) as [[ev s']|] eqn:E; [|auto].
    destruct (step_parts _ _ _ _ _ I E)
      as (_ & th & th' & Hth & Hat & Ht & -> & Hok & Hst).
    pose proof (Inv_step cfg _ _ _ _ _ I E) as I'.
    destruct (IH _ _ I' (finished_cons _ _ _ Hok Hf)) as (H1 & H2 & later & H3).
    split; [exact H1|]. split.
    + rewrite H2. change (heap (effect ev s) !! j = heap s !! j).
      apply (finished_frozen tr); auto.
      destruct Hf as [w Hw]. eapply phase_heap; eauto.
    + exists (later ++ [ev]). rewrite H3, <- app_assoc. done.
Qed.

(** Why a goroutine can panic. *)
Lemma step_at_panic tr s t th t' why s' :
  Inv tr s -> threads s !! t = Some th ->
  step_at cfg s t th = Some (EvPanic t' why, s') ->
  (at_pc th = c_next /\ why = nil_dereference /\
   exists o rest, prog th = o :: rest /\
     match o with
     | op_job_Wait | op_job_Results => cur_job th = None
     | op_group_Wait | op_group_Results => cur_group th = None
     | _ => False
     end) \/
  (exists j job, at_pc th = w_Lookup j /\ heap s !! j = Some job /\
                 Lookup (lib cfg) (net cfg j) (Query job) = Panic why).
Proof.
  intros I Hth H.
  pose proof (inv_pc _ _ I _ _ Hth) as Hpc.
  pose proof (inv_crit _ _ I _ _ Hth) as Hcrit.
  assert (forall j p, phase tr j = Some p -> heap s !! j <> None) as Hheap.
  { intros j p Hp Hn. destruct (phase_heap _ _ _ _ I Hp) as [? ?]. congruence. }
  assert (forall j, finished tr j ->
            forall job, heap s !! j = Some job -> Result job <> None) as Hfin.
  { intros j Hf job Hj Hn.
    destruct (finished_result _ _ _ I Hf) as (job' & r & Hj' & Hr'). congruence. }
  unfold step_at, panic in H.
  destruct (at_pc th) eqn:Epc; simpl in Hpc, Hcrit.
  - (* c_next *)
    left. split; [done|].
    destruct (prog th) as [|o rest]; [done|].
    destruct o; simplify_eq;
      repeat case_match; simplify_eq; (split; [done|]);
      eexists _, _; (split; [reflexivity|]); simpl; done.
  - repeat case_match; simplify_eq.
  - repeat case_match; simplify_eq.
  - simplify_eq.
  - specialize (Hcrit eq_refl). repeat case_match; simplify_eq.
  - simplify_eq.
  - repeat case_match; simplify_eq.
  - repeat case_match; simplify_eq.
  - repeat case_match; simplify_eq.
  - repeat case_match; simplify_eq.
  - (* c_Results_Read *)
    repeat case_match; simplify_eq.
    + exfalso. eapply Hfin; eauto.
    + exfalso. destruct Hpc as [w Hw]. eapply Hheap; eauto.
  - repeat case_match; simplify_eq.
  - repeat case_match; simplify_eq.
  - (* c_group_Read *)
    destruct Hpc as (dn & _ & _ & Hf & _).
    repeat case_match; simplify_eq.
    + exfalso. eapply Hfin; eauto.
    + exfalso. destruct Hf as [w Hw]. eapply Hheap; eauto.
  - repeat case_match; simplify_eq.
  - (* w_Lookup *)
    destruct Hpc as [Hp _].
    repeat case_match; simplify_eq.
    + right. eauto.
    + exfalso. eapply Hheap; eauto.
  - repeat case_match; simplify_eq.
  - (* w_Delete *)
    destruct Hpc as [Hp _].
    repeat case_match; simplify_eq. exfalso. eapply Hheap; eauto.
  - specialize (Hcrit eq_refl). repeat case_match; simplify_eq.
  - (* w_Done *)
    destruct Hpc as [Hp _].
    repeat case_match; simplify_eq.
    + exfalso.
      match goal with Hj : heap s !! _ = Some ?jb |- _ =>
        destruct (inv_heap _ _ I _ _ Hj) as (st & w & Hp' & Hw & _) end.
      rewrite Hp in Hp'. simplify_eq. simpl in Hw.
      match goal with Hlt : (_ <? 0)%Z = true |- _ => apply Z.ltb_lt in Hlt; lia end.
    + exfalso. eapply Hheap; eauto.
  - done.
Qed.

End ProcessorFacts.



(** X20. At any moment of a run at most one goroutine stands between
    [proc.mutex.Lock()] and [proc.mutex.Unlock()], it is the one that holds
    the mutex, and the holder can always take its next step: nothing blocks
    while the mutex is held. *)
Theorem one_goroutine_between_Lock_and_Unlock
    (cfg : Proc.config) (programs : list (list Proc.op)) (workersCount : nat)
    (sched : list nat) (tr : list Proc.event) (s : Proc.state) :
  Proc.run cfg programs workersCount sched = (tr, s) ->
  (forall t1 t2 th1 th2,
      Proc.threads s !! t1 = Some th1 -> Proc.threads s !! t2 = Some th2 ->
      Trace.crit (Proc.at_pc th1) = true -> Trace.crit (Proc.at_pc th2) = true ->
      t1 = t2) /\
  (forall t, Proc.mutex s = Some t ->
      exists th, Proc.threads s !! t = Some th /\ Trace.crit (Proc.at_pc th) = true) /\
  (forall t, Proc.mutex s = Some t -> Proc.panicked s = false ->
      exists ev s', Proc.step cfg s t = Some (ev, s')).
Proof.
  intros H. pose proof (run_Inv _ _ _ _ _ _ H) as I.
  split; [|split].
  - intros t1 t2 th1 th2 H1 H2 C1 C2.
    pose proof (Trace.inv_crit _ _ I _ _ H1 C1) as M1.
    pose proof (Trace.inv_crit _ _ I _ _ H2 C2) as M2.
    congruence.
  - intros t Hm. exact (Trace.inv_held _ _ I t Hm).
  - intros t Hm Hp.
    destruct (Trace.inv_held _ _ I t Hm) as (th & Hth & Hc).
    unfold Proc.step. rewrite Hp, Hth. unfold Proc.step_at, Proc.panic.
    destruct (Proc.at_pc th); try discriminate Hc; rewrite ?Hm;
      repeat case_match; eauto.
Qed.

Lemma one_goroutine_between_Lock_and_Unlock_witness :
  let s := (Proc.run Sample.proc_cfg Sample.programs 2 [0; 0; 0]%nat).2 in
  Proc.mutex s = Some 0%nat /\
  exists ev s', Proc.step Sample.proc_cfg s 0 = Some (ev, s').
Proof.
  intros s.
  destruct (one_goroutine_between_Lock_and_Unlock
              Sample.proc_cfg Sample.programs 2 [0; 0; 0]%nat
              (Proc.run Sample.proc_cfg Sample.programs 2 [0; 0; 0]%nat).1 s)
    as (_ & _ & H).
  { vm_compute. reflexivity. }
  split; [reflexivity|]. apply H; reflexivity.
Defined.

(** X21. The job behind a handle has the query the handle was handed out
    for: this holds for every handle [NewJob] returned or found in the map,
    and for every entry a worker removed; so a handle is never returned for
    two different queries. *)
Theorem handles_name_the_query_asked
    (cfg : Proc.config) (programs : list (list Proc.op)) (workersCount : nat)
    (sched : list nat) (tr : list Proc.event) (s : Proc.state) :
  Proc.run cfg programs workersCount sched = (tr, s) ->
  (forall t q j, Proc.EvReturn t q j ∈ tr -> Trace.query_of s j = Some q) /\
  (forall t q j, Proc.EvFound t q j ∈ tr -> Trace.query_of s j = Some q) /\
  (forall t q j, Proc.EvDelete t q j ∈ tr -> Trace.query_of s j = Some q) /\
  (forall t t' q q' j,
      Proc.EvReturn t q j ∈ tr -> Proc.EvReturn t' q' j ∈ tr -> q = q').
Proof.
  intros H.
  pose proof (run_from_reachable cfg programs workersCount sched []
                (Proc.init programs workersCount) (Proc.reachable_init _ _ _)) as Hr.
  unfold Proc.run in H. rewrite H in Hr. simpl in Hr.
  pose proof (reachable_names_query cfg _ _ _ _ Hr) as Hn.
  split; [|split; [|split]].
  - intros t q j Hin. exact (Hn _ Hin).
  - intros t q j Hin. exact (Hn _ Hin).
  - intros t q j Hin. exact (Hn _ Hin).
  - intros t t' q q' j H1 H2.
    pose proof (Hn _ H1) as Q1. pose proof (Hn _ H2) as Q2. simpl in Q1, Q2.
    congruence.
Qed.

Lemma handles_name_the_query_asked_witness :
  let s := (Proc.run Sample.proc_cfg Sample.programs 2 Sample.sched).2 in
  Trace.query_of s 0 = Some Sample.mx_A.
Proof.
  intros s.
  destruct (handles_name_the_query_asked
              Sample.proc_cfg Sample.programs 2 Sample.sched
              (Proc.run Sample.proc_cfg Sample.programs 2 Sample.sched).1 s)
    as (H & _).
  { vm_compute. reflexivity. }
  apply (H 1%nat). apply (list_elem_of_lookup_2 _ 30). vm_compute. reflexivity.
Defined.

Lemma lookups_of_results (cfg : Proc.config) (s : Proc.state) (d : string)
    (g : list nat) (tys : list Z) :
  map (Trace.query_of s) g = map (fun ty => Some (Proc.mkq d ty)) tys ->
  (forall j, j ∈ g ->
     exists job r, Proc.heap s !! j = Some job /\ Proc.Result job = Some r /\
                   Dns.Lookup (Proc.lib cfg) (Proc.net cfg j) (Proc.Query job) = Ret r) ->
  exists rl,
    Observed.lookups_of cfg d g tys = map Ret rl /\
    concat (map (Trace.results_of s) g) = concat (map Dns.Results rl).
Proof.
  revert tys. induction g as [|j g IH]; intros tys Hq Hall.
  - destruct tys; [|discriminate]. exists []. split; reflexivity.
  - destruct tys as [|ty tys]; [discriminate|]. simpl in Hq.
    injection Hq as Hj Hq.
    destruct (IH tys Hq) as (rl & Hl & Hc).
    { intros j' Hin. apply Hall. right. exact Hin. }
    destruct (Hall j) as (job & r & Hjob & Hres & Hlook); [left|].
    exists (r :: rl). unfold Observed.lookups_of in *. simpl. split.
    + rewrite Hl. f_equal. unfold Trace.query_of in Hj. rewrite Hjob in Hj.
      simpl in Hj. injection Hj as Hj. rewrite <- Hj. exact Hlook.
    + rewrite Hc. unfold Trace.results_of at 1. rewrite Hjob, Hres. reflexivity.
Qed.

(** X22. What [Results()] returns is what [Lookup] computed: for a job, the
    entries of the lookup of the query its handle was returned for; for a
    group made by [NewJobs(domain, types)], the concatenation of the entries
    of the lookups of [domain] with each type, in the order of the types.  In
    particular none of these lookups faulted. *)
Theorem Results_are_what_Lookup_gave
    (cfg : Proc.config) (programs : list (list Proc.op)) (workersCount : nat)
    (sched : list nat) (tr : list Proc.event) (s : Proc.state) :
  Proc.run cfg programs workersCount sched = (tr, s) ->
  (forall t q j rs,
      Proc.EvReturn t q j ∈ tr -> Proc.EvJobResults t j rs ∈ tr ->
      exists r, Dns.Lookup (Proc.lib cfg) (Proc.net cfg j) q = Ret r /\
                rs = Dns.Results r) /\
  (forall t t' d tys g rs,
      Proc.EvGroup t d tys g ∈ tr -> Proc.EvGroupResults t' g rs ∈ tr ->
      exists rl, Observed.lookups_of cfg d g tys = map Ret rl /\
                 rs = concat (map Dns.Results rl)).
Proof.
  intros H. pose proof (run_Inv _ _ _ _ _ _ H) as I.
  pose proof (run_from_reachable cfg programs workersCount sched []
                (Proc.init programs workersCount) (Proc.reachable_init _ _ _)) as Hr.
  unfold Proc.run in H. rewrite H in Hr. simpl in Hr.
  pose proof (reachable_result cfg _ _ _ _ Hr) as Hres.
  split.
  - intros t q j rs Hret Hjr.
    pose proof (reachable_names_query cfg _ _ _ _ Hr _ Hret) as Hq. simpl in Hq.
    pose proof (reachable_job_results cfg _ _ _ _ Hr _ _ _ Hjr) as ->.
    pose proof (coherent_job_results _ _ _ _ (Trace.inv_coh _ _ I) Hjr) as Hf.
    destruct (finished_result _ _ _ I Hf) as (job & r & Hj & Hr').
    exists r. unfold Trace.query_of in Hq. rewrite Hj in Hq. simpl in Hq.
    injection Hq as <-. split; [exact (Hres _ _ _ Hj Hr')|].
    unfold Trace.results_of. rewrite Hj, Hr'. reflexivity.
  - intros t t' d tys g rs Hg Hgr.
    pose proof (Trace.inv_group _ _ I _ _ _ _ Hg) as Hq.
    pose proof (Trace.inv_results _ _ I _ _ _ Hgr) as ->.
    pose proof (coherent_group_results _ _ _ _ (Trace.inv_coh _ _ I) Hgr) as Hf.
    apply (lookups_of_results cfg s d g tys Hq).
    intros j Hin. rewrite Forall_forall in Hf.
    destruct (finished_result _ _ _ I (Hf _ Hin)) as (job & r & Hj & Hr').
    exists job, r. split; [exact Hj|]. split; [exact Hr'|]. exact (Hres _ _ _ Hj Hr').
Qed.

Lemma Results_are_what_Lookup_gave_witness :
  (exists r, Dns.Lookup Sample.lib Sample.net_answers Sample.mx_A = Ret r /\
             ["192.0.2.1"] = Dns.Results r) /\
  (exists rl,
     Observed.lookups_of Sample.proc_cfg "mx.example." [0; 1]%nat [Dns.TypeA; Dns.TypeAAAA]
     = map Ret rl /\
     ["192.0.2.1"; "192.0.2.1"] = concat (map Dns.Results rl)).
Proof.
  destruct (Results_are_what_Lookup_gave
              Sample.proc_cfg Sample.programs 2 Sample.sched
              (Proc.run Sample.proc_cfg Sample.programs 2 Sample.sched).1
              (Proc.run Sample.proc_cfg Sample.programs 2 Sample.sched).2)
    as (H1 & H2).
  { vm_compute. reflexivity. }
  split.
  - apply (H1 1%nat Sample.mx_A 0%nat).
    + apply (list_elem_of_lookup_2 _ 30). vm_compute. reflexivity.
    + apply (list_elem_of_lookup_2 _ 10). vm_compute. reflexivity.
  - apply (H2 0%nat 0%nat).
    + apply (list_elem_of_lookup_2 _ 17). vm_compute. reflexivity.
    + apply (list_elem_of_lookup_2 _ 0). vm_compute. reflexivity.
Defined.

(** X23. A job is handed to the pool, taken by a worker and looked up at most
    once, in this order; a job that is complete was looked up exactly
    once. *)
Theorem a_job_is_looked_up_once
    (cfg : Proc.config) (programs : list (list Proc.op)) (workersCount : nat)
    (sched : list nat) (tr : list Proc.event) (s : Proc.state) :
  Proc.run cfg programs workersCount sched = (tr, s) ->
  forall j,
    (Trace.count (Observed.is_lookup j) tr
     <= Trace.count (Observed.is_dequeue j) tr)%nat /\
    (Trace.count (Observed.is_dequeue j) tr
     <= Trace.count (Trace.is_enqueue j) tr)%nat /\
    (Trace.count (Trace.is_enqueue j) tr <= 1)%nat /\
    (Proc.done s j = true -> Trace.count (Observed.is_lookup j) tr = 1%nat).
Proof.
  intros H j. pose proof (run_Inv _ _ _ _ _ _ H) as I.
  pose proof (Trace.inv_coh _ _ I) as Hc.
  rewrite (lookups_phase tr j Hc), (dequeues_phase tr j Hc), (enqueues_phase tr j Hc).
  split; [|split; [|split]].
  - destruct (Trace.phase tr j) as [[[] w]|]; lia.
  - destruct (Trace.phase tr j) as [[[] w]|]; lia.
  - destruct (Trace.phase tr j) as [[[] w]|]; lia.
  - intros Hd. destruct (done_finished _ _ _ I Hd) as [w ->]. reflexivity.
Qed.

Lemma a_job_is_looked_up_once_witness :
  let tr := (Proc.run Sample.proc_cfg Sample.programs 2 Sample.sched).1 in
  Trace.count (Observed.is_lookup 0) tr = 1%nat.
Proof.
  intros tr.
  destruct (a_job_is_looked_up_once
              Sample.proc_cfg Sample.programs 2 Sample.sched tr
              (Proc.run Sample.proc_cfg Sample.programs 2 Sample.sched).2)
    with (j := 0%nat) as (_ & _ & _ & H).
  { vm_compute. reflexivity. }
  apply H. vm_compute. reflexivity.
Defined.

(** X24. The processor's own bookkeeping never faults.  If a step panics in
    a state of a run, then either a caller calls [Wait] or [Results] on a
    handle it never obtained, or the panic is that of [Lookup] in a worker;
    unlocking, the completion signal and the reads of a job's result do not
    fault. *)
Theorem a_panic_comes_from_the_caller_or_the_lookup
    (cfg : Proc.config) (programs : list (list Proc.op)) (workersCount : nat)
    (sched : list nat) (tr : list Proc.event) (s : Proc.state)
    (t t' : nat) (why : string) (s' : Proc.state) :
  Proc.run cfg programs workersCount sched = (tr, s) ->
  Proc.step cfg s t = Some (Proc.EvPanic t' why, s') ->
  exists th,
    Proc.threads s !! t = Some th /\
    ((Proc.at_pc th = Proc.c_next /\ why = nil_dereference /\
      exists o rest, Proc.prog th = o :: rest /\
        match o with
        | Proc.op_job_Wait | Proc.op_job_Results => Proc.cur_job th = None
        | Proc.op_group_Wait | Proc.op_group_Results => Proc.cur_group th = None
        | _ => False
        end) \/
     (exists j job,
        Proc.at_pc th = Proc.w_Lookup j /\ Proc.heap s !! j = Some job /\
        Dns.Lookup (Proc.lib cfg) (Proc.net cfg j) (Proc.Query job) = Panic why)).
Proof.
  intros H Hstep. pose proof (run_Inv _ _ _ _ _ _ H) as I.
  destruct (step_inv cfg _ _ _ _ Hstep) as (_ & th & Hth & Hat).
  exists th. split; [exact Hth|].
  exact (step_at_panic cfg _ _ _ _ _ _ _ I Hth Hat).
Qed.

Lemma a_panic_comes_from_the_caller_or_the_lookup_witness :
  exists th,
    Proc.threads (Proc.init Cases.programs_no_handle 1) !! 0%nat = Some th /\
    Proc.at_pc th = Proc.c_next /\ Proc.cur_job th = None.
Proof.
  destruct (a_panic_comes_from_the_caller_or_the_lookup
              Sample.proc_cfg Cases.programs_no_handle 1 [] []
              (Proc.init Cases.programs_no_handle 1) 0 0 nil_dereference
              (Proc.with_thread (Proc.crash (Proc.init Cases.programs_no_handle 1)) 0
                 {| Proc.at_pc := Proc.crashed; Proc.prog := [Proc.op_job_Wait];
                    Proc.cur_job := None; Proc.cur_group := None |}))
    as (th & Hth & [(Hpc & _ & o & rest & Hp & Ho)|(j & job & Hpc & _)]).
  { reflexivity. }
  { reflexivity. }
  - exists th. split; [exact Hth|]. split; [exact Hpc|].
    injection Hth as <-. injection Hp as <- <-. exact Ho.
  - injection Hth as <-. discriminate Hpc.
Defined.

(** X25. Completion is final: when a run is continued, a job that was
    complete stays complete, its object, and so its result, stays as it was,
    and the trace only grows. *)
Theorem a_finished_job_is_frozen
    (cfg : Proc.config) (programs : list (list Proc.op)) (workersCount : nat)
    (sched1 sched2 : list nat) (tr1 tr2 : list Proc.event) (s1 s2 : Proc.state)
    (j : nat) :
  Proc.run cfg programs workersCount sched1 = (tr1, s1) ->
  Proc.run cfg programs workersCount (sched1 ++ sched2) = (tr2, s2) ->
  Proc.done s1 j = true ->
  Proc.done s2 j = true /\
  Proc.heap s2 !! j = Proc.heap s1 !! j /\
  Trace.results_of s2 j = Trace.results_of s1 j /\
  exists later, tr2 = (later ++ tr1)%list.
Proof.
  intros H1 H2 Hd. pose proof (run_Inv _ _ _ _ _ _ H1) as I.
  pose proof (done_finished _ _ _ I Hd) as Hf.
  unfold Proc.run in H1, H2. rewrite run_from_app, H1 in H2. simpl in H2.
  destruct (run_from_frozen cfg sched2 tr1 s1 j I Hf) as (F1 & F2 & later & F3).
  rewrite H2 in F1, F2, F3. simpl in F1, F2, F3.
  split.
  - unfold Proc.done in *. rewrite F2. exact Hd.
  - split; [exact F2|]. split; [|eauto].
    unfold Trace.results_of. rewrite F2. reflexivity.
Qed.

Lemma a_finished_job_is_frozen_witness :
  let s1 := (Proc.run Sample.proc_cfg Sample.programs 2 (take 60 Sample.sched)).2 in
  let s2 := (Proc.run Sample.proc_cfg Sample.programs 2 Sample.sched).2 in
  Proc.done s2 0 = true /\ Proc.heap s2 !! 0%nat = Proc.heap s1 !! 0%nat.
Proof.
  intros s1 s2.
  destruct (a_finished_job_is_frozen
              Sample.proc_cfg Sample.programs 2
              (take 60 Sample.sched) (drop 60 Sample.sched)
              (Proc.run Sample.proc_cfg Sample.programs 2 (take 60 Sample.sched)).1
              (Proc.run Sample.proc_cfg Sample.programs 2 Sample.sched).1
              s1 s2 0%nat) as (H1 & H2 & _).
  { vm_compute. reflexivity. }
  { vm_compute. reflexivity. }
  { vm_compute. reflexivity. }
  split; [exact H1 | exact H2].
Defined.
